(** * Tooltip placement ([src/ui/views/components/tooltip.js])

    A shallow embedding of the placement calculator of the tooltip
    component: [getTooltipPosition] and its helpers [getDimensions],
    [getCurrentMouseOffset], [getDefaultPosition] and [calculateOffset],
    together with the parts of the host language they rely on
    (numbers with [NaN], strings of code units, [parseInt], [JSON.parse],
    [for ... in] enumeration and thrown errors). *)

From Stdlib Require Import String Ascii Decimal DecimalN DecimalPos DecimalFacts.
From Stdlib Require Import ZArith NArith QArith Qabs Qpower Qround List Bool Lia Lqa.
From Stdlib Require Import Permutation.
Import ListNotations.

Set Warnings "-register-all".

(** * The host language *)

Module JS.

(** ** Numbers

    A JavaScript number is modelled as [NaN] or an exact rational, and the
    arithmetic is that of the rationals.  This is the arithmetic of doubles
    wherever no operation rounds: for operands that are multiples of some
    2^-k of bounded size, as pixel counts, their halves and coordinates on
    a grid of fractions of a pixel are.  The theorems that depend on the
    value of a sum or a difference carry such a bound as a hypothesis;
    those that follow the comparisons and the control flow hold for any
    arithmetic.  The infinities are not modelled (the only division of the
    program is by the literal 2), and -0 is 0. *)

Inductive number : Type :=
| NaN
| Num (q : Q).

Definition add (a b : number) : number :=
  match a, b with
  | Num x, Num y => Num (x + y)
  | _, _ => NaN
  end.

Definition sub (a b : number) : number :=
  match a, b with
  | Num x, Num y => Num (x - y)
  | _, _ => NaN
  end.

Definition neg (a : number) : number :=
  match a with
  | Num x => Num (- x)
  | NaN => NaN
  end.

(** [a / b]; a zero divisor (an infinity or [NaN] in the host) is outside
    the model and mapped to [NaN]. *)
Definition div (a b : number) : number :=
  match a, b with
  | Num x, Num y => if Qeq_bool y 0 then NaN else Num (x / y)
  | _, _ => NaN
  end.

(** [a < b] and [a > b]: false as soon as one side is [NaN]. *)
Definition lt (a b : number) : bool :=
  match a, b with
  | Num x, Num y => if Qlt_le_dec x y then true else false
  | _, _ => false
  end.

Definition gt (a b : number) : bool := lt b a.

Definition of_Z (z : Z) : number := Num (inject_Z z).

(** Equality of numbers as values: rationals are compared by [Qeq]. *)
Definition num_eq (a b : number) : Prop :=
  match a, b with
  | NaN, NaN => True
  | Num x, Num y => x == y
  | _, _ => False
  end.

(** Truncation toward zero. *)
Definition Qtrunc (q : Q) : Z := Z.quot (Qnum q) (Zpos (Qden q)).

(** *** [parseInt(x, 10)] of a number

    The number is first written out ([Number::toString]), with the fewest
    digits that read back as the same double.  The text is in decimal
    notation when the number written is at least 10^-6 and below 10^21,
    and in exponent notation, one digit before the point, otherwise.
    [parseInt] reads the integer before the point: the truncation of the
    number in decimal notation, its first digit in exponent notation. *)

(** The binary exponent [floor (log2 a)] of a positive rational. *)
Definition floor_log2 (a : Q) : Z :=
  let e := (Z.log2 (Qnum a) - Z.log2 (Zpos (Qden a)))%Z in
  if Qle_bool (2 ^ e) a then e else (e - 1)%Z.

(** The distance from the double [a] to the next one. *)
Definition ulp (a : Q) : Q := 2 ^ (Z.max (floor_log2 a) (-1022) - 52).

(** The decimal [D], not below the double [a], reads back as [a]: it is
    nearer to [a] than to the next double, or half-way with the
    significand of [a] even. *)
Definition reads_back (D a : Q) : bool :=
  let h := ulp a / 2 in
  let g := D - a in
  Qle_bool 0 g
  && (negb (Qle_bool h g) || (Qeq_bool g h && Z.even (Qfloor (a / ulp a)))).

(** [floor (log10 a)] of a positive rational: one less than the number of
    digits of its integer part, or minus the number of times it must be
    multiplied by 10 to reach 1. *)
Fixpoint more_digits (fuel : nat) (z : Z) : Z :=
  match fuel with
  | O => 0
  | S f => if (z <? 10)%Z then 0 else 1 + more_digits f (z / 10)
  end%Z.

Fixpoint places_below (fuel : nat) (n d : Z) : Z :=
  match fuel with
  | O => 0
  | S f => if (d <=? n)%Z then 0 else 1 + places_below f (10 * n) d
  end%Z.

Definition floor_log10 (a : Q) : Z :=
  if Qle_bool 1 a
  then more_digits (S (Z.to_nat (Z.log2 (Qfloor a)))) (Qfloor a)
  else (- places_below (S (Z.to_nat (Z.log2 (Zpos (Qden a))))) (Qnum a) (Zpos (Qden a)))%Z.

(** The first digit of the text of the positive double [a].  It is the
    first digit of [a] itself unless the next decimal of one digit reads
    back as [a], which then is the text. *)
Definition first_digit (a : Q) : Z :=
  let k := floor_log10 a in
  let d := Qfloor (a / 10 ^ k) in
  if reads_back (inject_Z (d + 1) * 10 ^ k) a
  then (if (d =? 9)%Z then 1%Z else (d + 1)%Z)
  else d.

(** The text of the positive double [a] is in decimal notation. *)
Definition decimal_notation (a : Q) : bool :=
  (Qle_bool (1 # 1000000) a || reads_back (1 # 1000000) a)
  && negb (Qle_bool (inject_Z (10 ^ 21)) a)
  && negb (reads_back (inject_Z (10 ^ 21)) a).

Definition parseInt_number (a : number) : number :=
  match a with
  | Num q =>
    if Qeq_bool q 0 || decimal_notation (Qabs q) then of_Z (Qtrunc q)
    else of_Z (Z.sgn (Qnum q) * first_digit (Qabs q))
  | NaN => NaN
  end.

(** ** Strings

    A string is its sequence of 16-bit code units. *)

Definition jsstring : Type := list N.

Definition chr (a : ascii) : N := N_of_ascii a.

Definition str (s : string) : jsstring := List.map chr (list_ascii_of_string s).

Definition jsstring_eqb (a b : jsstring) : bool :=
  if list_eq_dec N.eq_dec a b then true else false.

Definition is_digit (c : N) : bool := (48 <=? c)%N && (c <=? 57)%N.

(** Decimal digits of Stdlib's [Decimal.uint], as code units and back. *)
Fixpoint uint_chars (u : Decimal.uint) : jsstring :=
  match u with
  | Nil => []
  | D0 u => 48%N :: uint_chars u
  | D1 u => 49%N :: uint_chars u
  | D2 u => 50%N :: uint_chars u
  | D3 u => 51%N :: uint_chars u
  | D4 u => 52%N :: uint_chars u
  | D5 u => 53%N :: uint_chars u
  | D6 u => 54%N :: uint_chars u
  | D7 u => 55%N :: uint_chars u
  | D8 u => 56%N :: uint_chars u
  | D9 u => 57%N :: uint_chars u
  end.

(** The digits of a string that holds only digits (anything else reads as
    the digit 9; callers pass digit runs only). *)
Fixpoint chars_uint (s : jsstring) : Decimal.uint :=
  match s with
  | [] => Nil
  | c :: r =>
    let u := chars_uint r in
    match c with
    | 48%N => D0 u | 49%N => D1 u | 50%N => D2 u | 51%N => D3 u
    | 52%N => D4 u | 53%N => D5 u | 54%N => D6 u | 55%N => D7 u
    | 56%N => D8 u | _ => D9 u
    end
  end.

(** The longest prefix of digits, and what follows it. *)
Fixpoint span_digits (s : jsstring) : jsstring * jsstring :=
  match s with
  | c :: r =>
    if is_digit c then let (ds, rest) := span_digits r in (c :: ds, rest)
    else ([], s)
  | [] => ([], [])
  end.

Definition digits_value (ds : jsstring) : Z := Z.of_N (N.of_uint (chars_uint ds)).

(** ** Values

    The values an [offset] can be or can hold: what [JSON.parse] builds,
    and [undefined].  An object is the list of its own properties in
    creation order; its keys are pairwise distinct. *)

Inductive value : Type :=
| VUndefined
| VNull
| VBool (b : bool)
| VNum (n : number)
| VStr (s : jsstring)
| VArr (l : list value)
| VObj (m : list (jsstring * value)).

(** ** [parseInt(v, 10)] *)

(** StrWhiteSpaceChar: white space and line terminators. *)
Definition is_StrWhiteSpaceChar (c : N) : bool :=
  ((9 <=? c) && (c <=? 13) || (c =? 32) || (c =? 160) || (c =? 5760)
   || (8192 <=? c) && (c <=? 8202) || (c =? 8232) || (c =? 8233)
   || (c =? 8239) || (c =? 8287) || (c =? 12288) || (c =? 65279))%N.

Fixpoint trim_start (s : jsstring) : jsstring :=
  match s with
  | c :: r => if is_StrWhiteSpaceChar c then trim_start r else s
  | [] => []
  end.

(** Leading white space is skipped, one sign is read, then the longest run
    of decimal digits; no digit gives [NaN].  With the radix given as 10 a
    prefix [0x] is not special.  The value is the whole number the digits
    write; the host gives the double nearest to it, which is that number
    up to 2^53 (and an infinity beyond the doubles). *)
Definition parseInt_string (s : jsstring) : number :=
  let s1 := trim_start s in
  let '(sign, s2) :=
    match s1 with
    | c :: r =>
      if (c =? chr "-")%N then ((-1)%Z, r)
      else if (c =? chr "+")%N then (1%Z, r)
      else (1%Z, s1)
    | [] => (1%Z, s1)
    end in
  match fst (span_digits s2) with
  | [] => NaN
  | ds => of_Z (sign * digits_value ds)
  end.

(** The argument is first converted to a string.  [undefined], [null],
    booleans, [NaN] and plain objects render as words without a leading
    digit.  An array renders as its elements joined by commas, so only its
    first element is read. *)
Fixpoint parseInt (v : value) : number :=
  match v with
  | VNum n => parseInt_number n
  | VStr s => parseInt_string s
  | VArr (x :: _) => parseInt x
  | _ => NaN
  end.

(** ** [for (key in v)]

    The enumerable string keys of [v] with the values [v[key]]: none for
    a primitive other than a string, the indices for a string or an array,
    and for an object first the keys that are array indices, in ascending
    order, then the other keys in creation order. *)

Definition index_key (i : nat) : jsstring := uint_chars (Nat.to_uint i).

Fixpoint indexed (i : nat) (l : list value) : list (jsstring * value) :=
  match l with
  | [] => []
  | x :: r => (index_key i, x) :: indexed (S i) r
  end.

(** A canonical numeric string below 2^32 - 1 is an array index. *)
Definition array_index (k : jsstring) : option N :=
  match k with
  | [] => None
  | c :: r =>
    if forallb is_digit k && negb ((c =? 48)%N && negb (List.length r =? 0)%nat)
       && (N.of_uint (chars_uint k) <? 4294967295)%N
    then Some (N.of_uint (chars_uint k))
    else None
  end.

Definition is_index (kv : jsstring * value) : bool :=
  match array_index (fst kv) with Some _ => true | None => false end.

Definition index_of (kv : jsstring * value) : N :=
  match array_index (fst kv) with Some n => n | None => 0%N end.

Fixpoint insert_by_index (kv : jsstring * value) (l : list (jsstring * value))
  : list (jsstring * value) :=
  match l with
  | [] => [kv]
  | x :: r =>
    if (index_of kv <=? index_of x)%N then kv :: l
    else x :: insert_by_index kv r
  end.

Definition sort_by_index (l : list (jsstring * value)) : list (jsstring * value) :=
  fold_right insert_by_index [] l.

Definition for_in (v : value) : list (jsstring * value) :=
  match v with
  | VObj m => sort_by_index (filter is_index m)
              ++ filter (fun kv => negb (is_index kv)) m
  | VArr l => indexed 0 l
  | VStr s => indexed 0 (List.map (fun c => VStr [c]) s)
  | _ => []
  end.

(** ** Thrown errors *)

Inductive exn : Type :=
| TypeError
| SyntaxError.

Inductive result (A : Type) : Type :=
| Ok (a : A)
| Throw (e : exn).

Arguments Ok {A} a.
Arguments Throw {A} e.

Definition bind {A B} (r : result A) (k : A -> result B) : result B :=
  match r with
  | Ok a => k a
  | Throw e => Throw e
  end.

(** ** Quotes

    The double quote, and the replacement of every single quote of a string
    by it ([s.replace] with a global pattern). *)

Definition dquote : N := 34%N.

Definition replace_quotes (s : jsstring) : jsstring :=
  List.map (fun c => if (c =? chr "'")%N then dquote else c) s.

(** ** [JSON.parse]

    A recursive-descent reading of the JSON grammar.  The partial parsers
    return the value read and the rest of the text, or [None] where the host
    throws a [SyntaxError]. *)

Definition is_json_ws (c : N) : bool :=
  ((c =? 32) || (c =? 9) || (c =? 10) || (c =? 13))%N.

Fixpoint skip_ws (s : jsstring) : jsstring :=
  match s with
  | c :: r => if is_json_ws c then skip_ws r else s
  | [] => []
  end.

Definition hex_digit (c : N) : option N :=
  if is_digit c then Some (c - 48)%N
  else if ((97 <=? c) && (c <=? 102))%N then Some (c - 87)%N
  else if ((65 <=? c) && (c <=? 70))%N then Some (c - 55)%N
  else None.

(** The character a one-letter escape stands for. *)
Definition unescape (c : N) : option N :=
  if (c =? dquote)%N then Some (dquote)
  else if (c =? chr "\")%N then Some (chr "\")
  else if (c =? chr "/")%N then Some (chr "/")
  else if (c =? chr "b")%N then Some 8%N
  else if (c =? chr "f")%N then Some 12%N
  else if (c =? chr "n")%N then Some 10%N
  else if (c =? chr "r")%N then Some 13%N
  else if (c =? chr "t")%N then Some 9%N
  else None.

Definition cons_fst {A B} (a : A) (r : option (list A * B)) : option (list A * B) :=
  match r with
  | Some (l, b) => Some (a :: l, b)
  | None => None
  end.

(** The characters of a string literal, read after its opening quote up to
    and including the closing one.  Control characters must be escaped. *)
Fixpoint parse_chars (s : jsstring) : option (jsstring * jsstring) :=
  match s with
  | [] => None
  | c :: r =>
    if (c =? dquote)%N then Some ([], r)
    else if (c =? chr "\")%N then
      match r with
      | e :: r1 =>
        if (e =? chr "u")%N then
          match r1 with
          | h1 :: h2 :: h3 :: h4 :: r2 =>
            match hex_digit h1, hex_digit h2, hex_digit h3, hex_digit h4 with
            | Some a, Some b, Some c', Some d =>
              cons_fst (((a * 16 + b) * 16 + c') * 16 + d)%N (parse_chars r2)
            | _, _, _, _ => None
            end
          | _ => None
          end
        else
          match unescape e with
          | Some x => cons_fst x (parse_chars r1)
          | None => None
          end
      | [] => None
      end
    else if (c <? 32)%N then None
    else cons_fst c (parse_chars r)
  end.

(** [m * 10^e]. *)
Definition scale10 (m e : Z) : Q :=
  if (0 <=? e)%Z then inject_Z (m * 10 ^ e) else m # Pos.pow 10 (Z.to_pos (- e)).

(** The parts of a number literal: an optional minus, an integer part
    without leading zero, an optional fraction and an optional exponent. *)
Definition read_minus (s : jsstring) : Z * jsstring :=
  match s with
  | c :: r => if (c =? chr "-")%N then ((-1)%Z, r) else (1%Z, s)
  | [] => (1%Z, s)
  end.

Definition read_int (s : jsstring) : jsstring * jsstring :=
  match s with
  | c :: r => if (c =? chr "0")%N then ([c], r) else span_digits s
  | [] => ([], s)
  end.

Definition read_frac (s : jsstring) : option (jsstring * jsstring) :=
  match s with
  | c :: r =>
    if (c =? chr ".")%N then
      match span_digits r with
      | ([], _) => None
      | (fs, s') => Some (fs, s')
      end
    else Some ([], s)
  | [] => Some ([], s)
  end.

Definition read_exp (s : jsstring) : option (Z * jsstring) :=
  match s with
  | c :: r =>
    if ((c =? chr "e") || (c =? chr "E"))%N then
      let '(esign, r1) :=
        match r with
        | c1 :: r' =>
          if (c1 =? chr "-")%N then ((-1)%Z, r')
          else if (c1 =? chr "+")%N then (1%Z, r')
          else (1%Z, r)
        | [] => (1%Z, r)
        end in
      match span_digits r1 with
      | ([], _) => None
      | (es, s') => Some ((esign * digits_value es)%Z, s')
      end
    else Some (0%Z, s)
  | [] => Some (0%Z, s)
  end.

(** A number literal; its value is taken exactly.  The host gives the
    double nearest to it: the same number for whole numbers up to 2^53 and
    for fractions that are doubles. *)
Definition parse_number (s : jsstring) : option (Q * jsstring) :=
  let '(sign, s1) := read_minus s in
  let '(ints, s2) := read_int s1 in
  match ints with
  | [] => None
  | _ :: _ =>
    match read_frac s2 with
    | None => None
    | Some (fs, s3) =>
      match read_exp s3 with
      | None => None
      | Some (e, s4) =>
        Some (scale10 (sign * digits_value (ints ++ fs))
                      (e - Z.of_nat (List.length fs)), s4)
      end
    end
  end.

(** [s] starts with the word [w]: what follows it. *)
Fixpoint expect (w s : jsstring) : option jsstring :=
  match w, s with
  | [], _ => Some s
  | a :: w', c :: r => if (a =? c)%N then expect w' r else None
  | _ :: _, [] => None
  end.

(** Defining a property: an existing key keeps its place and takes the new
    value, a new key goes last. *)
Fixpoint obj_set (m : list (jsstring * value)) (k : jsstring) (v : value)
  : list (jsstring * value) :=
  match m with
  | [] => [(k, v)]
  | (k', v') :: r =>
    if jsstring_eqb k' k then (k', v) :: r else (k', v') :: obj_set r k v
  end.

(** Values, the members of an object after its brace and the elements of an
    array after its bracket: one step of each reader, over the readers it
    calls. *)
Section Readers.

Variable read_value : jsstring -> option (value * jsstring).
Variable read_members : list (jsstring * value) -> jsstring -> option (value * jsstring).
Variable read_elements : list value -> jsstring -> option (value * jsstring).

Definition value_step (s : jsstring) : option (value * jsstring) :=
  match skip_ws s with
  | [] => None
  | c :: r =>
    if (c =? chr "{")%N then
      match skip_ws r with
      | c1 :: r1 =>
        if (c1 =? chr "}")%N then Some (VObj [], r1)
        else read_members [] r
      | [] => None
      end
    else if (c =? chr "[")%N then
      match skip_ws r with
      | c1 :: r1 =>
        if (c1 =? chr "]")%N then Some (VArr [], r1)
        else read_elements [] r
      | [] => None
      end
    else if (c =? dquote)%N then
      match parse_chars r with
      | Some (k, r1) => Some (VStr k, r1)
      | None => None
      end
    else if (c =? chr "t")%N then
      option_map (fun r1 => (VBool true, r1)) (expect (str "rue") r)
    else if (c =? chr "f")%N then
      option_map (fun r1 => (VBool false, r1)) (expect (str "alse") r)
    else if (c =? chr "n")%N then
      option_map (fun r1 => (VNull, r1)) (expect (str "ull") r)
    else
      match parse_number (c :: r) with
      | Some (q, r1) => Some (VNum (Num q), r1)
      | None => None
      end
  end.

Definition members_step (acc : list (jsstring * value)) (s : jsstring)
  : option (value * jsstring) :=
  match skip_ws s with
  | c :: r =>
    if (c =? dquote)%N then
      match parse_chars r with
      | Some (k, r1) =>
        match skip_ws r1 with
        | c1 :: r2 =>
          if (c1 =? chr ":")%N then
            match read_value r2 with
            | Some (v, r3) =>
              match skip_ws r3 with
              | c3 :: r4 =>
                if (c3 =? chr ",")%N then read_members (obj_set acc k v) r4
                else if (c3 =? chr "}")%N then Some (VObj (obj_set acc k v), r4)
                else None
              | [] => None
              end
            | None => None
            end
          else None
        | [] => None
        end
      | None => None
      end
    else None
  | [] => None
  end.

Definition elements_step (acc : list value) (s : jsstring)
  : option (value * jsstring) :=
  match read_value s with
  | Some (v, r1) =>
    match skip_ws r1 with
    | c :: r2 =>
      if (c =? chr ",")%N then read_elements (acc ++ [v]) r2
      else if (c =? chr "]")%N then Some (VArr (acc ++ [v]), r2)
      else None
    | [] => None
    end
  | None => None
  end.

End Readers.

(** The readers, by recursion on [fuel]: it bounds the depth of the calls,
    and [JSON_parse] starts with more of it than a text can use. *)
Fixpoint parse_value (fuel : nat) (s : jsstring) {struct fuel}
  : option (value * jsstring) :=
  match fuel with
  | O => None
  | S fuel => value_step (parse_members fuel) (parse_elements fuel) s
  end

with parse_members (fuel : nat) (acc : list (jsstring * value)) (s : jsstring)
  {struct fuel} : option (value * jsstring) :=
  match fuel with
  | O => None
  | S fuel => members_step (parse_value fuel) (parse_members fuel) acc s
  end

with parse_elements (fuel : nat) (acc : list value) (s : jsstring)
  {struct fuel} : option (value * jsstring) :=
  match fuel with
  | O => None
  | S fuel => elements_step (parse_value fuel) (parse_elements fuel) acc s
  end.

(** One value, with nothing but white space after it. *)
Definition JSON_parse (s : jsstring) : result value :=
  match parse_value (2 * List.length s + 2) s with
  | Some (v, r) =>
    match skip_ws r with
    | [] => Ok v
    | _ :: _ => Throw SyntaxError
    end
  | None => Throw SyntaxError
  end.

End JS.

Declare Scope js_scope.
Delimit Scope js_scope with js.
Bind Scope js_scope with JS.number.
Infix "+" := JS.add : js_scope.
Infix "-" := JS.sub : js_scope.
Infix "/" := JS.div : js_scope.
Notation "- x" := (JS.neg x) : js_scope.
Infix "<?" := JS.lt : js_scope.
Infix ">?" := JS.gt (at level 70, no associativity) : js_scope.
Infix "=n=" := JS.num_eq (at level 70, no associativity).
Notation "x <- r ;; k" := (JS.bind r (fun x => k))
  (at level 61, r at next level, right associativity).

Import JS.
Local Open Scope js_scope.

(** * The placement calculator *)

(** The four sides, in the order of the candidate list. *)
Inductive place : Type :=
| Top
| Bottom
| Left
| Right.

(** What [getBoundingClientRect()] answers for an element. *)
Record DOMRect : Type := {
  rect_width : Q;
  rect_height : Q;
  rect_top : Q;
  rect_left : Q
}.

(** [window.innerWidth] and [window.innerHeight]. *)
Record Window : Type := {
  innerWidth : Z;
  innerHeight : Z
}.

Record Dimensions : Type := {
  dim_width : number;
  dim_height : number;
  dim_top : number;
  dim_left : number
}.

Definition getDimensions (node : DOMRect) : Dimensions :=
  {| dim_width := parseInt_number (Num (rect_width node));
     dim_height := parseInt_number (Num (rect_height node));
     dim_top := parseInt_number (Num (rect_top node));
     dim_left := parseInt_number (Num (rect_left node)) |}.

Record MouseOffset : Type := {
  mouseX : number;
  mouseY : number
}.

Definition getCurrentMouseOffset (currentTarget : DOMRect) : MouseOffset :=
  let d := getDimensions currentTarget in
  {| mouseX := dim_left d + dim_width d / Num 2;
     mouseY := dim_top d + dim_height d / Num 2 |}.

(** The edges [l], [r], [t], [b] kept for one side. *)
Record Edges : Type := {
  e_l : number;
  e_r : number;
  e_t : number;
  e_b : number
}.

(** The object [getDefaultPosition] returns, one entry per side. *)
Record OffsetTable : Type := {
  at_top : Edges;
  at_bottom : Edges;
  at_left : Edges;
  at_right : Edges
}.

(** [table[p]] *)
Definition entry (table : OffsetTable) (p : place) : Edges :=
  match p with
  | Top => at_top table
  | Bottom => at_bottom table
  | Left => at_left table
  | Right => at_right table
  end.

Definition triangleHeight : number := Num 6.

Definition getDefaultPosition (targetWidth targetHeight tipWidth tipHeight : number)
  : OffsetTable :=
  {| at_top :=
       {| e_l := - (tipWidth / Num 2);
          e_r := tipWidth / Num 2;
          e_t := - (targetHeight / Num 2 + tipHeight + triangleHeight);
          e_b := - (targetHeight / Num 2) |};
     at_bottom :=
       {| e_l := - (tipWidth / Num 2);
          e_r := tipWidth / Num 2;
          e_t := targetHeight / Num 2 + triangleHeight;
          e_b := targetHeight / Num 2 + tipHeight |};
     at_left :=
       {| e_l := - (tipWidth + targetWidth / Num 2);
          e_r := - (targetWidth / Num 2) + triangleHeight;
          e_t := - (tipHeight / Num 2);
          e_b := tipHeight / Num 2 |};
     at_right :=
       {| e_l := targetWidth / Num 2 + triangleHeight;
          e_r := tipWidth + targetWidth / Num 2;
          e_t := - (tipHeight / Num 2);
          e_b := tipHeight / Num 2 |} |}.

Record ExtraOffset : Type := {
  extraOffsetX : number;
  extraOffsetY : number
}.

(** The body of the loop of [calculateOffset] for one key. *)
Definition offset_step (acc : ExtraOffset) (kv : jsstring * value) : ExtraOffset :=
  let '(key, v) := kv in
  if jsstring_eqb key (str "top") then
    {| extraOffsetX := extraOffsetX acc;
       extraOffsetY := extraOffsetY acc - parseInt v |}
  else if jsstring_eqb key (str "bottom") then
    {| extraOffsetX := extraOffsetX acc;
       extraOffsetY := extraOffsetY acc + parseInt v |}
  else if jsstring_eqb key (str "left") then
    {| extraOffsetX := extraOffsetX acc - parseInt v;
       extraOffsetY := extraOffsetY acc |}
  else if jsstring_eqb key (str "right") then
    {| extraOffsetX := extraOffsetX acc + parseInt v;
       extraOffsetY := extraOffsetY acc |}
  else acc.

Definition no_offset : ExtraOffset :=
  {| extraOffsetX := Num 0; extraOffsetY := Num 0 |}.

Definition calculateOffset (offset : value) : result ExtraOffset :=
  offset' <- match offset with
             | VStr s => JSON_parse (replace_quotes s)
             | _ => Ok offset
             end ;;
  Ok (fold_left offset_step (for_in offset') no_offset).

(** The functions [getTooltipPosition] defines over its local constants. *)
Section TipEdges.

Variable win : Window.
Variable mouse : MouseOffset.
Variable defaultOffset : OffsetTable.
Variable extra : ExtraOffset.

Definition getTipOffsetLeft (p : place) : number :=
  mouseX mouse + e_l (entry defaultOffset p) + extraOffsetX extra.

Definition getTipOffsetRight (p : place) : number :=
  mouseX mouse + e_r (entry defaultOffset p) + extraOffsetX extra.

Definition getTipOffsetTop (p : place) : number :=
  mouseY mouse + e_t (entry defaultOffset p) + extraOffsetY extra.

Definition getTipOffsetBottom (p : place) : number :=
  mouseY mouse + e_b (entry defaultOffset p) + extraOffsetY extra.

Definition outside (p : place) : bool :=
  (getTipOffsetLeft p <? Num 0)
  || (getTipOffsetRight p >? of_Z (innerWidth win))
  || (getTipOffsetTop p <? Num 0)
  || (getTipOffsetBottom p >? of_Z (innerHeight win)).

Definition inside (p : place) : bool := negb (outside p).

Definition insideList : list place := filter inside [Top; Bottom; Left; Right].

(** [newPlace] after the conditional; [None] is [undefined]. *)
Definition choose (desiredPlace : place) : option place :=
  if inside desiredPlace then Some desiredPlace
  else if (0 <? List.length insideList)%nat && outside desiredPlace
       then nth_error insideList 0
  else None.

End TipEdges.

Record Position : Type := {
  pos_left : number;
  pos_top : number
}.

Record Placement : Type := {
  res_place : place;
  res_position : Position
}.

(** [target] and [node] stand for the trigger element [e.currentTarget] and
    the tooltip element, through their bounding boxes.  With [newPlace]
    undefined the table has no entry to read the edge [l] from, and the
    property access throws. *)
Definition getTooltipPosition (win : Window) (target node : DOMRect)
    (desiredPlace : place) (offset : value) : result Placement :=
  let tip := getDimensions node in
  let tgt := getDimensions target in
  let mouse := getCurrentMouseOffset target in
  let defaultOffset :=
    getDefaultPosition (dim_width tgt) (dim_height tgt)
                       (dim_width tip) (dim_height tip) in
  extra <- calculateOffset offset ;;
  let newPlace := choose win mouse defaultOffset extra desiredPlace in
  let parentTop := Num (rect_top target) in
  let parentLeft := Num (rect_left target) in
  match newPlace with
  | None => Throw TypeError
  | Some p =>
    Ok {| res_place := p;
          res_position :=
            {| pos_left :=
                 parseInt_number (getTipOffsetLeft mouse defaultOffset extra p - parentLeft);
               pos_top :=
                 parseInt_number (getTipOffsetTop mouse defaultOffset extra p - parentTop) |} |}
  end.

(** * Statements

    What the theorems below are stated with. *)

(** ** Closed forms

    The quantities of the calculator written over the rationals: the anchor
    point (the centre of the trigger, in the dimensions [getDimensions]
    gives) and the four edges the table keeps for each side. *)

(** The rational a number is; [getDimensions] gives no [NaN]. *)
Definition numeral (a : number) : Q :=
  match a with
  | Num q => q
  | NaN => 0
  end.

(** The width and height [getDimensions] gives for a bounding box. *)
Definition tw_of (target : DOMRect) : Q := numeral (dim_width (getDimensions target)).

Definition th_of (target : DOMRect) : Q := numeral (dim_height (getDimensions target)).

Module Formula.

Definition anchorX (target : DOMRect) : Q :=
  numeral (dim_left (getDimensions target)) + tw_of target / 2.

Definition anchorY (target : DOMRect) : Q :=
  numeral (dim_top (getDimensions target)) + th_of target / 2.

Definition l (p : place) (targetWidth targetHeight tipWidth tipHeight : Q) : Q :=
  match p with
  | Top | Bottom => - (tipWidth / 2)
  | Left => - (tipWidth + targetWidth / 2)
  | Right => targetWidth / 2 + 6
  end.

Definition r (p : place) (targetWidth targetHeight tipWidth tipHeight : Q) : Q :=
  match p with
  | Top | Bottom => tipWidth / 2
  | Left => - (targetWidth / 2) + 6
  | Right => tipWidth + targetWidth / 2
  end.

Definition t (p : place) (targetWidth targetHeight tipWidth tipHeight : Q) : Q :=
  match p with
  | Top => - (targetHeight / 2 + tipHeight + 6)
  | Bottom => targetHeight / 2 + 6
  | Left | Right => - (tipHeight / 2)
  end.

Definition b (p : place) (targetWidth targetHeight tipWidth tipHeight : Q) : Q :=
  match p with
  | Top => - (targetHeight / 2)
  | Bottom => targetHeight / 2 + tipHeight
  | Left | Right => tipHeight / 2
  end.

End Formula.

(** The table the calculator builds from the two bounding boxes. *)
Definition table_of (target node : DOMRect) : OffsetTable :=
  getDefaultPosition (dim_width (getDimensions target)) (dim_height (getDimensions target))
                     (dim_width (getDimensions node)) (dim_height (getDimensions node)).

(** Extra offsets that are numbers, not [NaN]. *)
Definition finite (ex ey : Q) : ExtraOffset :=
  {| extraOffsetX := Num ex; extraOffsetY := Num ey |}.


(** ** Sample inputs *)

Definition win_1000x600 : Window := {| innerWidth := 1000; innerHeight := 600 |}.
Definition win_320x200 : Window := {| innerWidth := 320; innerHeight := 200 |}.
Definition rect_100x40_small_window : DOMRect :=
  {| rect_width := 100; rect_height := 40; rect_top := 80; rect_left := 110 |}.
Definition rect_tip_300x180 : DOMRect :=
  {| rect_width := 300; rect_height := 180; rect_top := 0; rect_left := 0 |}.
Definition rect_100x40_centre : DOMRect :=
  {| rect_width := 100; rect_height := 40; rect_top := 280; rect_left := 450 |}.
Definition rect_100x40_pinned : DOMRect :=
  {| rect_width := 100; rect_height := 40; rect_top := 0; rect_left := 450 |}.
Definition rect_tip_120x30 : DOMRect :=
  {| rect_width := 120; rect_height := 30; rect_top := 0; rect_left := 0 |}.

Definition rect_fractional : DOMRect :=
  {| rect_width := 100; rect_height := 40; rect_top := 0; rect_left := 901 # 2 |}.

(** ** Mirror images

    One entry of the table is the mirror image of another across the
    horizontal, respectively vertical, line through the centre of the
    target. *)

Definition mirrored_below (a b : Edges) : Prop :=
  e_l b =n= e_l a /\ e_r b =n= e_r a /\ e_t b =n= - e_b a /\ e_b b =n= - e_t a.

Definition mirrored_right (a b : Edges) : Prop :=
  e_t b =n= e_t a /\ e_b b =n= e_b a /\ e_l b =n= - e_r a /\ e_r b =n= - e_l a.

(** ** Offset objects *)

(** The keys the loop of [calculateOffset] acts on. *)
Definition recognized (kv : jsstring * value) : bool :=
  jsstring_eqb (fst kv) (str "top") || jsstring_eqb (fst kv) (str "bottom")
  || jsstring_eqb (fst kv) (str "left") || jsstring_eqb (fst kv) (str "right").

(** The offsets of an object given by its list of properties. *)
Definition extra_of (m : list (jsstring * value)) : ExtraOffset :=
  fold_left offset_step (for_in (VObj m)) no_offset.

(** What one entry adds to each axis. *)
Definition dx (kv : jsstring * value) : number :=
  if jsstring_eqb (fst kv) (str "top") then Num 0
  else if jsstring_eqb (fst kv) (str "bottom") then Num 0
  else if jsstring_eqb (fst kv) (str "left") then - parseInt (snd kv)
  else if jsstring_eqb (fst kv) (str "right") then parseInt (snd kv)
  else Num 0.

Definition dy (kv : jsstring * value) : number :=
  if jsstring_eqb (fst kv) (str "top") then - parseInt (snd kv)
  else if jsstring_eqb (fst kv) (str "bottom") then parseInt (snd kv)
  else Num 0.

Definition total (f : jsstring * value -> number) (l : list (jsstring * value)) : number :=
  fold_right (fun kv s => f kv + s) (Num 0) l.


(** ** Offsets written with single quotes

    The string encoding of an offset map, as a caller of the component
    writes it.  An offset map holds pixel counts given as integers or as
    strings; its encoding is the object literal with the keys and the
    string values between quotes, as in [{'top': 10, 'left': '5'}].
    [structured] is the offset object the map stands for. *)

Inductive pixels : Type :=
| PxNum (z : Z)
| PxStr (s : jsstring).

Definition offset_map : Type := list (jsstring * pixels).

Definition structured_value (v : pixels) : value :=
  match v with
  | PxNum z => VNum (of_Z z)
  | PxStr s => VStr s
  end.

Definition structured_entries (m : offset_map) : list (jsstring * value) :=
  List.map (fun kv => (fst kv, structured_value (snd kv))) m.

Definition structured (m : offset_map) : value := VObj (structured_entries m).

Definition squote : N := chr "'".

Definition encode_Z (z : Z) : jsstring :=
  (if (z <? 0)%Z then [chr "-"] else []) ++ uint_chars (N.to_uint (Z.abs_N z)).

Definition encode_value (q : N) (v : pixels) : jsstring :=
  match v with
  | PxNum z => encode_Z z
  | PxStr s => q :: s ++ [q]
  end.

Fixpoint encode_members (q : N) (m : offset_map) : jsstring :=
  match m with
  | [] => []
  | (k, v) :: r =>
    q :: k ++ q :: chr ":" :: chr " " :: encode_value q v
      ++ match r with
         | [] => []
         | _ :: _ => chr "," :: chr " " :: encode_members q r
         end
  end.

Definition encode_with (q : N) (m : offset_map) : jsstring :=
  chr "{" :: encode_members q m ++ [chr "}"].

Definition encode (m : offset_map) : jsstring := encode_with squote m.

(** Characters that stand for themselves between quotes: no quote of either
    kind, no backslash, no control character. *)
Definition plain_char (c : N) : bool :=
  negb (c =? squote)%N && negb (c =? dquote)%N && negb (c =? chr "\")%N && (32 <=? c)%N.

Definition plain (s : jsstring) : Prop := forallb plain_char s = true.

Definition plain_value (v : pixels) : Prop :=
  match v with
  | PxNum _ => True
  | PxStr s => plain s
  end.

Definition well_formed (m : offset_map) : Prop :=
  NoDup (List.map fst m)
  /\ Forall (fun kv => plain (fst kv) /\ plain_value (snd kv)) m.

(** The offset maps of the component: distinct keys among top, bottom, left
    and right, and values that are integers or strings of digits, signs,
    points and spaces. *)
Definition pixel_char (c : N) : bool :=
  is_digit c || (c =? chr "-")%N || (c =? chr "+")%N || (c =? chr ".")%N
  || (c =? chr " ")%N.

Definition pixel_value (v : pixels) : Prop :=
  match v with
  | PxNum _ => True
  | PxStr s => forallb pixel_char s = true
  end.

Definition side_key (k : jsstring) : Prop :=
  In k [str "top"; str "bottom"; str "left"; str "right"].

Definition side_offsets (m : offset_map) : Prop :=
  NoDup (List.map fst m)
  /\ Forall (fun kv => side_key (fst kv) /\ pixel_value (snd kv)) m.

(** ** Readers *)

(** A reader consumes input: what is left is shorter than what was given. *)
Definition consuming {X} (p : jsstring -> option (X * jsstring)) : Prop :=
  forall s v r, p s = Some (v, r) -> (List.length r < List.length s)%nat.

(** ** What may follow a token *)

Definition no_digit_ahead (rest : jsstring) : Prop :=
  match rest with
  | [] => True
  | c :: _ => is_digit c = false
  end.

Definition number_ends (rest : jsstring) : Prop :=
  match rest with
  | [] => True
  | c :: _ => is_digit c = false /\ c <> chr "." /\ c <> chr "e" /\ c <> chr "E"
  end.

(** What follows a member: a comma or the closing brace. *)
Definition member_ends (tail : jsstring) : Prop :=
  exists r, tail = chr "," :: r \/ tail = chr "}" :: r.

Definition offset_top10_left5 : offset_map :=
  [(str "top", PxNum 10); (str "left", PxStr (str "-5")); (str "gap", PxNum (-3))].

(** * The component

    [Tooltip] keeps four pieces of state ([unmounted], [visible],
    [position], [place]) and gives its trigger two handlers.  A handler
    reads the state of the last render and the props, and sets the state of
    the next one.  Of the props the handlers read [desiredPlace] and
    [offset]; [trigger], [children] and [maxWidth] only reach the rendered
    elements. *)

(** [v || d]: the conversion of [v] to a boolean decides. *)
Definition truthy (v : value) : bool :=
  match v with
  | VUndefined | VNull => false
  | VBool b => b
  | VNum NaN => false
  | VNum (Num q) => negb (Qeq_bool q 0)
  | VStr s => match s with [] => false | _ :: _ => true end
  | VArr _ | VObj _ => true
  end.

Definition or_else (v d : value) : value := if truthy v then v else d.

(** A [desiredPlace] that is not given is [None]. *)
Record Props : Type := {
  prop_desiredPlace : option place;
  prop_offset : value
}.

(** The parameter default [desiredPlace = 'top']. *)
Definition desiredPlace_of (props : Props) : place :=
  match prop_desiredPlace props with
  | Some d => d
  | None => Top
  end.

Record State : Type := {
  unmounted : bool;
  visible : bool;
  position : Position;
  st_place : place
}.

(** The values given to [useState]. *)
Definition initial_state (props : Props) : State :=
  {| unmounted := false;
     visible := false;
     position := {| pos_left := Num 0; pos_top := Num 0 |};
     st_place := desiredPlace_of props |}.

(** [target] is the box of [e.currentTarget], [node] the box of
    [contentRef.current].  The three setters are reached only when
    [getTooltipPosition] returns. *)
Definition onMouseEnter (props : Props) (st : State)
    (win : Window) (target node : DOMRect) : result State :=
  if unmounted st || visible st then Ok st
  else
    res <- getTooltipPosition win target node (desiredPlace_of props)
                              (or_else (prop_offset props) (VObj [])) ;;
    Ok {| unmounted := unmounted st;
          visible := true;
          position := res_position res;
          st_place := res_place res |}.

Definition onMouseLeave (st : State) : State :=
  if unmounted st || negb (visible st) then st
  else {| unmounted := unmounted st;
          visible := false;
          position := position st;
          st_place := st_place st |}.

(** The events of the trigger, and the state after one: a handler that
    throws has set nothing. *)
Inductive event : Type :=
| MouseEnter (win : Window) (target node : DOMRect)
| MouseLeave.

Definition handle (props : Props) (st : State) (ev : event) : State :=
  match ev with
  | MouseEnter win target node =>
    match onMouseEnter props st win target node with
    | Ok st' => st'
    | Throw _ => st
    end
  | MouseLeave => onMouseLeave st
  end.

Definition run (props : Props) (evs : list event) : State :=
  fold_left (handle props) evs (initial_state props).

(** What the events of a trigger keep true of the state. *)
Definition placed_at (props : Props) (evs : list event) (st : State) : Prop :=
  exists win target node,
    In (MouseEnter win target node) evs
    /\ getTooltipPosition win target node (desiredPlace_of props)
                          (or_else (prop_offset props) (VObj []))
       = Ok {| res_place := st_place st; res_position := position st |}.

Definition never_placed (props : Props) (st : State) : Prop :=
  visible st = false
  /\ st_place st = desiredPlace_of props
  /\ position st = {| pos_left := Num 0; pos_top := Num 0 |}.

(** ** More statements *)

(** The value an offset object gives a key, 0 without the key. *)
Definition offset_at (m : list (jsstring * value)) (k : jsstring) : number :=
  match find (fun kv => jsstring_eqb (fst kv) k) m with
  | Some kv => parseInt (snd kv)
  | None => Num 0
  end.

Definition is_object (v : value) : bool :=
  match v with
  | VObj _ => true
  | _ => false
  end.

Definition is_string (v : value) : bool :=
  match v with
  | VStr _ => true
  | _ => false
  end.

(** Boxes of a size that is not negative, and the room around the target
    that the tooltip needs on every side: its width to the left and to the
    right of the target, its height below, its height and the pointer
    above, and the pointer to the right of the target's left edge.  All
    lengths are the whole pixels [getDimensions] keeps. *)
Definition sized (target node : DOMRect) : Prop :=
  (0 <= Qtrunc (rect_width target) /\ 0 <= Qtrunc (rect_height target)
   /\ 0 <= Qtrunc (rect_width node) /\ 0 <= Qtrunc (rect_height node))%Z.

Definition roomy (win : Window) (target node : DOMRect) : Prop :=
  (Qtrunc (rect_width node) <= Qtrunc (rect_left target)
   /\ Qtrunc (rect_left target) + Qtrunc (rect_width target) + Qtrunc (rect_width node)
      <= innerWidth win
   /\ Qtrunc (rect_left target) + 6 <= innerWidth win
   /\ Qtrunc (rect_height node) + 6 <= Qtrunc (rect_top target)
   /\ Qtrunc (rect_top target) + Qtrunc (rect_height target) + Qtrunc (rect_height node)
      <= innerHeight win)%Z.

(** ** Where the arithmetic is exact

    Coordinates on the grid of 1/65536 of a pixel and at most 2^31 in
    size, and offset values that [parseInt] reads as [NaN] or as a whole
    number of at most 2^31 in size.  With these every sum and difference
    of the calculator is a double, so that no operation rounds, and every
    number handed to [parseInt] is 0 or is written in decimal notation. *)

Definition on_grid (q : Q) : bool :=
  let r := Qred (q * 65536) in
  (Zpos (Qden r) =? 1)%Z && (Z.abs (Qnum r) <=? 2 ^ 47)%Z.

Definition grid_box (b : DOMRect) : Prop :=
  on_grid (rect_width b) = true /\ on_grid (rect_height b) = true
  /\ on_grid (rect_top b) = true /\ on_grid (rect_left b) = true.

(** The tooltip is read for its size only. *)
Definition grid_size (b : DOMRect) : Prop :=
  on_grid (rect_width b) = true /\ on_grid (rect_height b) = true.

Definition small (a : number) : bool :=
  match a with
  | NaN => true
  | Num q => (Zpos (Qden (Qred q)) =? 1)%Z && (Z.abs (Qnum (Qred q)) <=? 2 ^ 31)%Z
  end.

(** An offset that is not a string, with small values under the four keys
    if it is an object. *)
Definition small_offset (offset : value) : Prop :=
  match offset with
  | VObj m =>
    NoDup (List.map fst m)
    /\ forallb (fun kv => small (parseInt (snd kv))) (filter recognized m) = true
  | VStr _ => False
  | _ => True
  end.

(** Truncation toward zero, of a number. *)
Definition truncated (a : number) : number :=
  match a with
  | Num q => of_Z (Qtrunc q)
  | NaN => NaN
  end.

(** A rational on the grid, whatever its size; a rational that is 0 or is
    written in decimal notation, by a margin. *)
Definition grid16 (q : Q) : Prop := exists z : Z, (q * 65536 == inject_Z z)%Q.

Definition legible (q : Q) : Prop :=
  (q == 0 \/ (1 # 1000000 <= Qabs q /\ Qabs q <= inject_Z (10 ^ 20)))%Q.

(** A number that is [NaN] or a whole number of at most [bound] in size. *)
Definition whole_within (bound : Z) (a : number) : Prop :=
  a = NaN \/ exists (q : Q) (z : Z), a = Num q /\ (q == inject_Z z)%Q /\ (Z.abs z <= bound)%Z.

(** ** More sample inputs *)

Definition rect_100x40_corner : DOMRect :=
  {| rect_width := 100; rect_height := 40; rect_top := 0; rect_left := 0 |}.

Definition rect_100x40_elsewhere : DOMRect :=
  {| rect_width := 100; rect_height := 40; rect_top := 500; rect_left := 17 |}.

Definition win_2000x1200 : Window := {| innerWidth := 2000; innerHeight := 1200 |}.

(** ** Sample inputs off the whole pixels *)



(** A trigger of an odd height. *)
Definition rect_100x41_centre : DOMRect :=
  {| rect_width := 100; rect_height := 41; rect_top := 280; rect_left := 450 |}.


(** * Proofs *)

(** ** Comparisons and arithmetic of numbers *)

Lemma lt_Num (x y : Q) : (Num x <? Num y) = true <-> (x < y)%Q.
Proof.
  unfold lt. destruct (Qlt_le_dec x y) as [H | H]; split; intro G;
    try reflexivity; try assumption; try discriminate.
  exfalso. apply (Qle_not_lt _ _ H G).
Qed.

Lemma gt_Num (x y : Q) : (Num x >? Num y) = true <-> (y < x)%Q.
Proof. unfold gt. apply lt_Num. Qed.

Lemma lt_NaN_l (b : number) : (NaN <? b) = false.
Proof. reflexivity. Qed.

Lemma lt_NaN_r (a : number) : (a <? NaN) = false.
Proof. destruct a; reflexivity. Qed.

Lemma num_eq_refl (a : number) : a =n= a.
Proof. destruct a; simpl; [exact I | reflexivity]. Qed.

Lemma num_eq_sym (a b : number) : a =n= b -> b =n= a.
Proof. destruct a, b; simpl; auto. intro H. symmetry. exact H. Qed.

Lemma num_eq_trans (a b c : number) : a =n= b -> b =n= c -> a =n= c.
Proof.
  destruct a, b, c; simpl; auto; try contradiction.
  intros H1 H2. rewrite H1. exact H2.
Qed.

(** ** The text of a number

    A number that is 0, or at least 10^-6 and at most 10^20 in size, is
    written in decimal notation, and [parseInt] truncates it. *)

Lemma two_power_log2 (n : Z) : (0 < n)%Z -> (2 ^ Z.log2 n <= inject_Z n)%Q.
Proof.
  intro H. pose proof (Z.log2_spec n H) as [L _].
  pose proof (Z.log2_nonneg n) as P.
  change 2%Q with (inject_Z 2). rewrite <- Zpower_Qpower by exact P.
  rewrite <- Zle_Qle. exact L.
Qed.

Lemma log2_two_power (n : Z) : (0 < n)%Z -> (inject_Z n <= 2 ^ (Z.log2 n + 1))%Q.
Proof.
  intro H. pose proof (Z.log2_spec n H) as [_ U].
  pose proof (Z.log2_nonneg n) as P.
  change 2%Q with (inject_Z 2). rewrite <- Zpower_Qpower by lia.
  rewrite <- Zle_Qle. unfold Z.succ in U. lia.
Qed.

Lemma floor_log2_le (a : Q) : (0 < a)%Q -> (2 ^ floor_log2 a <= a)%Q.
Proof.
  intro Ha. unfold floor_log2.
  set (e := (Z.log2 (Qnum a) - Z.log2 (Zpos (Qden a)))%Z).
  destruct (Qle_bool (2 ^ e) a) eqn:E; [apply Qle_bool_iff; exact E |].
  destruct a as [n d]. cbn [Qnum Qden] in e.
  assert (Hn : (0 < n)%Z) by (unfold Qlt in Ha; simpl in Ha; lia).
  pose proof (two_power_log2 n Hn) as L.
  pose proof (log2_two_power (Zpos d) eq_refl) as U.
  assert (P : (0 < 2 ^ (Z.log2 (Zpos d) + 1))%Q) by (apply Qpower_0_lt; reflexivity).
  assert (D : (0 < inject_Z (Zpos d))%Q) by reflexivity.
  assert (S : (2 ^ (e - 1) == 2 ^ Z.log2 n / 2 ^ (Z.log2 (Zpos d) + 1))%Q).
  { unfold e. replace (Z.log2 n - Z.log2 (Zpos d) - 1)%Z
      with (Z.log2 n + - (Z.log2 (Zpos d) + 1))%Z by lia.
    rewrite Qpower_plus by discriminate. rewrite Qpower_opp. reflexivity. }
  rewrite S, (Qmake_Qdiv n d).
  apply Qle_shift_div_r; [exact P |].
  unfold Qdiv. rewrite <- Qmult_assoc, (Qmult_comm (/ inject_Z (Zpos d))), Qmult_assoc.
  apply Qle_shift_div_l; [exact D |].
  assert (N : (0 <= 2 ^ Z.log2 n)%Q) by (apply Qpower_0_le; discriminate).
  revert L U N D. generalize (2 ^ Z.log2 n)%Q, (2 ^ (Z.log2 (Zpos d) + 1))%Q,
    (inject_Z n), (inject_Z (Zpos d)). intros x y u v L U N D. nra.
Qed.

Lemma ulp_le (a : Q) : (0 < a)%Q -> (ulp a <= a + 1)%Q.
Proof.
  intro Ha. unfold ulp. pose proof (floor_log2_le a Ha) as F.
  destruct (Z.max_spec (floor_log2 a) (-1022)) as [[_ ->] | [_ ->]].
  - assert (2 ^ (-1022 - 52) <= 2 ^ 0)%Q
      by (apply Qpower_le_compat_l; [lia | discriminate]).
    change (2 ^ 0)%Q with 1%Q in H. lra.
  - assert (2 ^ (floor_log2 a - 52) <= 2 ^ floor_log2 a)%Q
      by (apply Qpower_le_compat_l; [lia | discriminate]).
    lra.
Qed.

Lemma reads_back_far (D a : Q) :
  (0 < a)%Q -> (a + 1 < 2 * (D - a))%Q -> reads_back D a = false.
Proof.
  intros Ha Hfar. pose proof (ulp_le a Ha) as U. unfold reads_back.
  assert (G : (ulp a / 2 < D - a)%Q).
  { unfold Qdiv. change (/ 2)%Q with (1 # 2). lra. }
  assert (E1 : Qle_bool (ulp a / 2) (D - a) = true)
    by (apply Qle_bool_iff, Qlt_le_weak; exact G).
  assert (E2 : Qeq_bool (D - a) (ulp a / 2) = false).
  { destruct (Qeq_bool (D - a) (ulp a / 2)) eqn:E; [| reflexivity].
    apply Qeq_bool_iff in E. rewrite E in G. exfalso. exact (Qlt_irrefl _ G). }
  rewrite E1, E2. cbn. apply andb_false_r.
Qed.

Lemma decimal_notation_legible (a : Q) :
  (1 # 1000000 <= a)%Q -> (a <= inject_Z (10 ^ 20))%Q -> decimal_notation a = true.
Proof.
  intros Hl Hu. unfold decimal_notation.
  assert (Ha : (0 < a)%Q) by lra.
  assert (B : (inject_Z (10 ^ 20) == 100000000000000000000)%Q) by reflexivity.
  assert (C : (inject_Z (10 ^ 21) == 1000000000000000000000)%Q) by reflexivity.
  assert (E1 : Qle_bool (1 # 1000000) a = true) by (apply Qle_bool_iff; exact Hl).
  assert (E2 : Qle_bool (inject_Z (10 ^ 21)) a = false).
  { destruct (Qle_bool (inject_Z (10 ^ 21)) a) eqn:E; [| reflexivity].
    apply Qle_bool_iff in E. rewrite B in Hu. rewrite C in E. lra. }
  assert (E3 : reads_back (inject_Z (10 ^ 21)) a = false).
  { apply reads_back_far; [exact Ha |]. rewrite C. rewrite B in Hu. lra. }
  rewrite E1, E2, E3. reflexivity.
Qed.

Lemma parseInt_number_legible (q : Q) :
  legible q -> parseInt_number (Num q) = of_Z (Qtrunc q).
Proof.
  intros [H | [Hl Hu]]; unfold parseInt_number.
  - apply Qeq_bool_iff in H. rewrite H. reflexivity.
  - rewrite (decimal_notation_legible _ Hl Hu), orb_true_r. reflexivity.
Qed.

Lemma legible_inject_Z (z : Z) : (Z.abs z <= 10 ^ 20)%Z -> legible (inject_Z z).
Proof.
  intro H. destruct (Z.eq_dec z 0) as [-> | Hz]; [left; reflexivity |].
  right. change (Qabs (inject_Z z)) with (inject_Z (Z.abs z)).
  split; [| rewrite <- Zle_Qle; exact H].
  apply Qle_trans with (inject_Z 1); [discriminate |].
  rewrite <- Zle_Qle. lia.
Qed.

Lemma parseInt_number_of_Z (z : Z) :
  (Z.abs z <= 10 ^ 20)%Z -> parseInt_number (of_Z z) = of_Z z.
Proof.
  intro H. unfold of_Z at 1. rewrite (parseInt_number_legible _ (legible_inject_Z z H)).
  unfold Qtrunc. simpl. rewrite Z.quot_1_r. reflexivity.
Qed.

(** The bounding boxes give finite numbers: the anchor and the table are
    their closed forms. *)
Lemma parseInt_number_numeral (q : Q) :
  parseInt_number (Num q) = Num (numeral (parseInt_number (Num q))).
Proof.
  unfold parseInt_number.
  destruct (Qeq_bool q 0 || decimal_notation (Qabs q)); reflexivity.
Qed.

Lemma dimensions_numeral (b : DOMRect) :
  getDimensions b
  = {| dim_width := Num (tw_of b);
       dim_height := Num (th_of b);
       dim_top := Num (numeral (dim_top (getDimensions b)));
       dim_left := Num (numeral (dim_left (getDimensions b))) |}.
Proof.
  unfold tw_of, th_of, getDimensions. cbn [dim_width dim_height dim_top dim_left].
  rewrite <- !parseInt_number_numeral. reflexivity.
Qed.

Lemma mouse_closed_form (target : DOMRect) :
  getCurrentMouseOffset target
  = {| mouseX := Num (Formula.anchorX target); mouseY := Num (Formula.anchorY target) |}.
Proof.
  unfold getCurrentMouseOffset. rewrite (dimensions_numeral target).
  reflexivity.
Qed.

Lemma entry_closed_form (tw th pw ph : Q) (p : place) :
  entry (getDefaultPosition (Num tw) (Num th) (Num pw) (Num ph)) p
  = {| e_l := Num (Formula.l p tw th pw ph);
       e_r := Num (Formula.r p tw th pw ph);
       e_t := Num (Formula.t p tw th pw ph);
       e_b := Num (Formula.b p tw th pw ph) |}.
Proof. destruct p; reflexivity. Qed.

Lemma table_closed_form (target node : DOMRect) (p : place) :
  entry (table_of target node) p
  = {| e_l := Num (Formula.l p (tw_of target) (th_of target) (tw_of node) (th_of node));
       e_r := Num (Formula.r p (tw_of target) (th_of target) (tw_of node) (th_of node));
       e_t := Num (Formula.t p (tw_of target) (th_of target) (tw_of node) (th_of node));
       e_b := Num (Formula.b p (tw_of target) (th_of target) (tw_of node) (th_of node)) |}.
Proof.
  unfold table_of. rewrite (dimensions_numeral target), (dimensions_numeral node).
  cbn [dim_width dim_height]. apply entry_closed_form.
Qed.

(** ** The choice of the side *)

Lemma nth_error_filter_0 {A} (f : A -> bool) (l : list A) :
  nth_error (filter f l) 0 = find f l.
Proof.
  induction l as [| a l IH]; simpl; [reflexivity |].
  destruct (f a); [reflexivity | exact IH].
Qed.

Lemma find_none_all_false {A} (f : A -> bool) (l : list A) :
  find f l = None -> forall a, In a l -> f a = false.
Proof. intros H a Ha. exact (find_none f l H a Ha). Qed.

Lemma all_places (p : place) : In p [Top; Bottom; Left; Right].
Proof. destruct p; simpl; auto. Qed.

Lemma inside_outside win mouse table extra p :
  outside win mouse table extra p = negb (inside win mouse table extra p).
Proof. unfold inside. rewrite negb_involutive. reflexivity. Qed.

(** What [choose] answers, by cases on the inside test. *)
Lemma choose_desired win mouse table extra desiredPlace :
  inside win mouse table extra desiredPlace = true ->
  choose win mouse table extra desiredPlace = Some desiredPlace.
Proof. intro H. unfold choose. rewrite H. reflexivity. Qed.

Lemma choose_fallback win mouse table extra desiredPlace :
  inside win mouse table extra desiredPlace = false ->
  choose win mouse table extra desiredPlace
  = find (inside win mouse table extra) [Top; Bottom; Left; Right].
Proof.
  intro H. unfold choose, insideList. rewrite H, inside_outside, H. simpl negb.
  rewrite andb_true_r, <- nth_error_filter_0.
  destruct (filter (inside win mouse table extra) [Top; Bottom; Left; Right]);
    reflexivity.
Qed.

(** The result of [getTooltipPosition] once the offset is read. *)
Lemma getTooltipPosition_unfold win target node desiredPlace offset extra :
  calculateOffset offset = Ok extra ->
  getTooltipPosition win target node desiredPlace offset
  = match choose win (getCurrentMouseOffset target) (table_of target node) extra desiredPlace with
    | None => Throw TypeError
    | Some p =>
      Ok {| res_place := p;
            res_position :=
              {| pos_left :=
                   parseInt_number
                     (getTipOffsetLeft (getCurrentMouseOffset target) (table_of target node) extra p
                      - Num (rect_left target));
                 pos_top :=
                   parseInt_number
                     (getTipOffsetTop (getCurrentMouseOffset target) (table_of target node) extra p
                      - Num (rect_top target)) |} |}
    end.
Proof. intro H. unfold getTooltipPosition. rewrite H. reflexivity. Qed.

Lemma getTooltipPosition_offset_error win target node desiredPlace offset e :
  calculateOffset offset = Throw e ->
  getTooltipPosition win target node desiredPlace offset = Throw e.
Proof. intro H. unfold getTooltipPosition. rewrite H. reflexivity. Qed.

(** C2. When some side is fully inside the viewport, the chosen side is the
    desired one if that is inside, and otherwise the first inside side of
    the order top, bottom, left, right. *)
Theorem chosen_side_is_desired_or_first_inside
    (win : Window) (target node : DOMRect) (desiredPlace : place)
    (offset : value) (extra : ExtraOffset) :
  let inside_p := inside win (getCurrentMouseOffset target) (table_of target node) extra in
  calculateOffset offset = Ok extra ->
  (exists p, inside_p p = true) ->
  exists res,
    getTooltipPosition win target node desiredPlace offset = Ok res
    /\ (inside_p desiredPlace = true -> res_place res = desiredPlace)
    /\ (inside_p desiredPlace = false ->
        find inside_p [Top; Bottom; Left; Right] = Some (res_place res)).
Proof.
  intros inside_p Hoff [p Hp].
  rewrite (getTooltipPosition_unfold win target node desiredPlace offset extra Hoff).
  destruct (inside_p desiredPlace) eqn:Hd.
  - subst inside_p. rewrite (choose_desired _ _ _ _ _ Hd).
    eexists. split; [reflexivity |]. split; [reflexivity | discriminate].
  - subst inside_p. rewrite (choose_fallback _ _ _ _ _ Hd).
    destruct (find (inside win (getCurrentMouseOffset target) (table_of target node) extra)
                   [Top; Bottom; Left; Right]) as [q |] eqn:F.
    + eexists. split; [reflexivity |]. split; [discriminate | reflexivity].
    + exfalso. pose proof (find_none_all_false _ _ F p (all_places p)) as G.
      rewrite G in Hp. discriminate.
Qed.

(** With the trigger at the top of a window of 1000 by 600 and the desired
    side top, the first inside side is bottom. *)
Lemma chosen_side_is_desired_or_first_inside_witness :
  exists res,
    getTooltipPosition win_1000x600 rect_100x40_pinned rect_tip_120x30 Top (VObj []) = Ok res
    /\ res_place res = Bottom.
Proof.
  destruct (chosen_side_is_desired_or_first_inside
              win_1000x600 rect_100x40_pinned rect_tip_120x30 Top (VObj []) no_offset
              eq_refl (ex_intro _ Bottom eq_refl)) as [res [H1 [_ H3]]].
  exists res. split; [exact H1 |].
  specialize (H3 eq_refl). vm_compute in H3. injection H3 as H3. symmetry. exact H3.
Defined.

(** ** No side inside *)

(** With every side outside, [newPlace] stays undefined and reading the
    left edge of the table entry at it throws. *)
Lemma choose_none win mouse table extra desiredPlace :
  (forall p, inside win mouse table extra p = false) ->
  choose win mouse table extra desiredPlace = None.
Proof.
  intro H. rewrite (choose_fallback _ _ _ _ _ (H desiredPlace)).
  simpl. rewrite !H. reflexivity.
Qed.

(** C1, as the code behaves.  When no side is fully inside the viewport the
    call does not return the desired side: it ends with a [TypeError]. *)
Theorem no_side_inside_throws_TypeError
    (win : Window) (target node : DOMRect) (desiredPlace : place)
    (offset : value) (extra : ExtraOffset) :
  calculateOffset offset = Ok extra ->
  (forall p, inside win (getCurrentMouseOffset target) (table_of target node) extra p = false) ->
  getTooltipPosition win target node desiredPlace offset = Throw TypeError.
Proof.
  intros Hoff Hnone.
  rewrite (getTooltipPosition_unfold win target node desiredPlace offset extra Hoff).
  rewrite (choose_none _ _ _ _ desiredPlace Hnone). reflexivity.
Qed.

(** A tooltip of 300 by 180 on a trigger in a window of 320 by 200 fits on
    no side: the call throws. *)
Lemma no_side_inside_throws_TypeError_witness :
  getTooltipPosition win_320x200 rect_100x40_small_window rect_tip_300x180 Top (VObj [])
  = Throw TypeError.
Proof.
  apply (no_side_inside_throws_TypeError
           win_320x200 rect_100x40_small_window rect_tip_300x180 Top (VObj [])
           no_offset eq_refl).
  intro p. destruct p; reflexivity.
Defined.

(** ** Truncation *)

Lemma Qtrunc_nonneg (q : Q) : (0 <= q)%Q -> Qtrunc q = Qfloor q.
Proof.
  destruct q as [n d]. unfold Qle, Qtrunc, Qfloor. simpl. intro H.
  apply Z.quot_div_nonneg; lia.
Qed.

Lemma Qtrunc_nonpos (q : Q) : (q <= 0)%Q -> Qtrunc q = Qceiling q.
Proof.
  destruct q as [n d]. unfold Qle, Qtrunc, Qceiling, Qfloor. simpl. intro H.
  replace n with (- - n)%Z at 1 by lia.
  rewrite Z.quot_opp_l by lia. f_equal.
  apply Z.quot_div_nonneg; lia.
Qed.

Lemma Qtrunc_zero (q : Q) : (q == 0)%Q -> Qtrunc q = 0%Z.
Proof.
  destruct q as [n d]. unfold Qeq, Qtrunc. simpl. intro H.
  replace n with 0%Z by lia. reflexivity.
Qed.

Lemma Qtrunc_sign (q : Q) : (0 <= q)%Q -> (0 <= Qtrunc q)%Z.
Proof.
  destruct q as [n d]. unfold Qle, Qtrunc. simpl. intro H.
  apply Z.quot_pos; lia.
Qed.

Lemma Qtrunc_inject_Z (z : Z) : Qtrunc (inject_Z z) = z.
Proof. unfold Qtrunc. simpl. apply Z.quot_1_r. Qed.

(** ** The table of offsets *)

(** C5, as amended.  For every target and tooltip geometry, that is for
    all four sizes [getDefaultPosition] is given, the entries of the table
    are the following formulas over the centre of the target, with the
    constant 6 of the pointer.  Top and left are as claimed.  Bottom has
    the horizontal entries of top and runs from [targetHeight/2 + 6] to
    [targetHeight/2 + tipHeight]; right has the vertical entries of left and
    runs from [targetWidth/2 + 6] to [tipWidth + targetWidth/2].  The table
    of a call is the one of the sizes [getDimensions] gives. *)
Theorem default_position_table (targetWidth targetHeight tipWidth tipHeight : Q) :
  let table :=
    getDefaultPosition (Num targetWidth) (Num targetHeight)
                       (Num tipWidth) (Num tipHeight) in
  (at_top table
   = {| e_l := Num (- (tipWidth / 2));
        e_r := Num (tipWidth / 2);
        e_t := Num (- (targetHeight / 2 + tipHeight + 6));
        e_b := Num (- (targetHeight / 2)) |}
   /\ at_bottom table
      = {| e_l := Num (- (tipWidth / 2));
           e_r := Num (tipWidth / 2);
           e_t := Num (targetHeight / 2 + 6);
           e_b := Num (targetHeight / 2 + tipHeight) |}
   /\ at_left table
      = {| e_l := Num (- (tipWidth + targetWidth / 2));
           e_r := Num (- (targetWidth / 2) + 6);
           e_t := Num (- (tipHeight / 2));
           e_b := Num (tipHeight / 2) |}
   /\ at_right table
      = {| e_l := Num (targetWidth / 2 + 6);
           e_r := Num (tipWidth + targetWidth / 2);
           e_t := Num (- (tipHeight / 2));
           e_b := Num (tipHeight / 2) |})
  /\ (forall target node : DOMRect,
        table_of target node
        = getDefaultPosition (Num (tw_of target)) (Num (th_of target))
                             (Num (tw_of node)) (Num (th_of node))).
Proof.
  intro table.
  pose proof (entry_closed_form targetWidth targetHeight tipWidth tipHeight) as H.
  fold table in H.
  split.
  - split; [exact (H Top) |]. split; [exact (H Bottom) |].
    split; [exact (H Left) | exact (H Right)].
  - intros target node. unfold table_of.
    rewrite (dimensions_numeral target), (dimensions_numeral node). reflexivity.
Qed.

(** For a target of 100 by 40 and a tooltip of 120 by 30 the entry of bottom
    starts at 26 while the mirror image of top starts at 20, and the entry of
    right starts at 56 while the mirror image of left starts at 44. *)
Lemma bottom_and_right_are_not_mirror_images :
  let table := table_of rect_100x40_centre rect_tip_120x30 in
  ~ mirrored_below (at_top table) (at_bottom table)
  /\ ~ mirrored_right (at_left table) (at_right table).
Proof.
  split.
  - intros [_ [_ [H _]]]. vm_compute in H. discriminate.
  - intros [_ [_ [H _]]]. vm_compute in H. discriminate.
Qed.

(** ** The extra offsets *)

(** Equalities of numbers up to [=n=], by cases on [NaN]. *)
Ltac num_cases :=
  repeat match goal with
         | a : number |- _ => destruct a
         end;
  simpl in *; try exact I; try contradiction; try lra.

Lemma add_compat (a a' b b' : number) : a =n= a' -> b =n= b' -> a + b =n= a' + b'.
Proof. intros; num_cases. Qed.

Lemma add_assoc_n (a b c : number) : a + b + c =n= a + (b + c).
Proof. num_cases. Qed.

Lemma add_zero_r (a : number) : a + Num 0 =n= a.
Proof. num_cases. Qed.

Lemma calculateOffset_object (m : list (jsstring * value)) :
  calculateOffset (VObj m) = Ok (extra_of m).
Proof. reflexivity. Qed.

Lemma jsstring_eqb_eq (a b : jsstring) : jsstring_eqb a b = true <-> a = b.
Proof.
  unfold jsstring_eqb. destruct (list_eq_dec N.eq_dec a b); split; intro H;
    try reflexivity; try assumption; try discriminate; contradiction.
Qed.

Lemma offset_step_unrecognized (acc : ExtraOffset) (kv : jsstring * value) :
  recognized kv = false -> offset_step acc kv = acc.
Proof.
  unfold recognized, offset_step. destruct kv as [k v]. simpl fst. intro H.
  apply orb_false_iff in H. destruct H as [H Hr].
  apply orb_false_iff in H. destruct H as [H Hl].
  apply orb_false_iff in H. destruct H as [Ht Hb].
  rewrite Ht, Hb, Hl, Hr. reflexivity.
Qed.

Lemma fold_offset_filter (l : list (jsstring * value)) (acc : ExtraOffset) :
  fold_left offset_step l acc = fold_left offset_step (filter recognized l) acc.
Proof.
  revert acc. induction l as [| kv l IH]; intro acc; simpl; [reflexivity |].
  destruct (recognized kv) eqn:E; simpl.
  - apply IH.
  - rewrite (offset_step_unrecognized acc kv E). apply IH.
Qed.

Lemma recognized_not_index (kv : jsstring * value) :
  recognized kv = true -> is_index kv = false.
Proof.
  unfold recognized, is_index. destruct kv as [k v]. simpl fst. intro H.
  repeat (apply orb_true_iff in H; destruct H as [H | H]);
    apply jsstring_eqb_eq in H; subst k; reflexivity.
Qed.

Lemma index_not_recognized (kv : jsstring * value) :
  is_index kv = true -> recognized kv = false.
Proof.
  intro H. destruct (recognized kv) eqn:E; [| reflexivity].
  rewrite (recognized_not_index kv E) in H. discriminate.
Qed.

Lemma insert_by_index_In kv x l : In x (insert_by_index kv l) -> x = kv \/ In x l.
Proof.
  induction l as [| y l IH]; simpl.
  - intros [H | []]. left. symmetry. exact H.
  - destruct (index_of kv <=? index_of y)%N; simpl.
    + intros [H | H]; [left; symmetry; exact H | right; exact H].
    + intros [H | H]; [right; left; exact H |].
      destruct (IH H) as [G | G]; [left; exact G | right; right; exact G].
Qed.

Lemma sort_by_index_In x l : In x (sort_by_index l) -> In x l.
Proof.
  induction l as [| y l IH]; simpl; [tauto |].
  intro H. apply insert_by_index_In in H. destruct H as [H | H].
  - left. symmetry. exact H.
  - right. apply IH. exact H.
Qed.

Lemma filter_none {A} (f : A -> bool) (l : list A) :
  (forall x, In x l -> f x = false) -> filter f l = [].
Proof.
  induction l as [| a l IH]; simpl; intro H; [reflexivity |].
  rewrite (H a (or_introl eq_refl)). apply IH. intros x Hx. apply H. right. exact Hx.
Qed.

Lemma filter_filter_sub {A} (f g : A -> bool) (l : list A) :
  (forall x, f x = true -> g x = true) -> filter f (filter g l) = filter f l.
Proof.
  intro H. induction l as [| a l IH]; simpl; [reflexivity |].
  destruct (g a) eqn:G; simpl.
  - rewrite IH. reflexivity.
  - destruct (f a) eqn:F; [| exact IH].
    rewrite (H a F) in G. discriminate.
Qed.

(** The order in which the host enumerates the keys of an object does not
    show: only the recognized keys count, and they keep their order. *)
Lemma recognized_for_in (m : list (jsstring * value)) :
  filter recognized (for_in (VObj m)) = filter recognized m.
Proof.
  simpl for_in. rewrite filter_app.
  rewrite (filter_none recognized (sort_by_index (filter is_index m))).
  - simpl. apply filter_filter_sub. intros x Hx.
    rewrite (recognized_not_index x Hx). reflexivity.
  - intros x Hx. apply sort_by_index_In in Hx. apply filter_In in Hx.
    apply index_not_recognized. apply Hx.
Qed.

Lemma extra_of_filter (m : list (jsstring * value)) :
  extra_of m = fold_left offset_step (filter recognized m) no_offset.
Proof. unfold extra_of. rewrite fold_offset_filter, recognized_for_in. reflexivity. Qed.

(** C10. Entries of an offset object under keys other than top, bottom, left
    and right are ignored: the extra offsets, and with them the placement,
    are those of the object with only the entries of these four keys; an
    object with none of them behaves as the empty object. *)
Theorem unrecognized_offset_keys_are_ignored (m : list (jsstring * value)) :
  calculateOffset (VObj m) = calculateOffset (VObj (filter recognized m))
  /\ (forall win target node desiredPlace,
        getTooltipPosition win target node desiredPlace (VObj m)
        = getTooltipPosition win target node desiredPlace (VObj (filter recognized m)))
  /\ calculateOffset (VObj (filter (fun kv => negb (recognized kv)) m))
     = calculateOffset (VObj [])
  /\ (forall win target node desiredPlace,
        getTooltipPosition win target node desiredPlace
                           (VObj (filter (fun kv => negb (recognized kv)) m))
        = getTooltipPosition win target node desiredPlace (VObj [])).
Proof.
  assert (H1 : calculateOffset (VObj m) = calculateOffset (VObj (filter recognized m))).
  { rewrite !calculateOffset_object. f_equal.
    rewrite (extra_of_filter m), (extra_of_filter (filter recognized m)).
    rewrite filter_filter_sub by auto. reflexivity. }
  assert (H2 : calculateOffset (VObj (filter (fun kv => negb (recognized kv)) m))
               = calculateOffset (VObj [])).
  { rewrite !calculateOffset_object. f_equal. rewrite extra_of_filter.
    rewrite filter_none; [reflexivity |].
    intros x Hx. apply filter_In in Hx. destruct Hx as [_ Hx].
    destruct (recognized x); [discriminate | reflexivity]. }
  split; [exact H1 |]. split; [| split; [exact H2 |]].
  - intros. unfold getTooltipPosition. rewrite H1. reflexivity.
  - intros. unfold getTooltipPosition. rewrite H2. reflexivity.
Qed.

Lemma offset_step_delta (acc : ExtraOffset) (kv : jsstring * value) :
  extraOffsetX (offset_step acc kv) =n= extraOffsetX acc + dx kv
  /\ extraOffsetY (offset_step acc kv) =n= extraOffsetY acc + dy kv.
Proof.
  destruct kv as [k v], acc as [x y]. unfold offset_step, dx, dy. simpl fst. simpl snd.
  generalize (parseInt v). intro n.
  destruct (jsstring_eqb k (str "top")); [simpl; split; num_cases |].
  destruct (jsstring_eqb k (str "bottom")); [simpl; split; num_cases |].
  destruct (jsstring_eqb k (str "left")); [simpl; split; num_cases |].
  destruct (jsstring_eqb k (str "right")); simpl; split; num_cases.
Qed.

Lemma fold_offset_total (l : list (jsstring * value)) (acc : ExtraOffset) :
  extraOffsetX (fold_left offset_step l acc) =n= extraOffsetX acc + total dx l
  /\ extraOffsetY (fold_left offset_step l acc) =n= extraOffsetY acc + total dy l.
Proof.
  revert acc. induction l as [| kv l IH]; intro acc; simpl.
  - split; apply num_eq_sym, add_zero_r.
  - destruct (IH (offset_step acc kv)) as [IHx IHy].
    destruct (offset_step_delta acc kv) as [Sx Sy].
    split.
    + eapply num_eq_trans; [exact IHx |].
      eapply num_eq_trans; [apply add_compat; [exact Sx | apply num_eq_refl] |].
      apply add_assoc_n.
    + eapply num_eq_trans; [exact IHy |].
      eapply num_eq_trans; [apply add_compat; [exact Sy | apply num_eq_refl] |].
      apply add_assoc_n.
Qed.

Lemma total_app f (l1 l2 : list (jsstring * value)) :
  total f (l1 ++ l2) =n= total f l1 + total f l2.
Proof.
  induction l1 as [| kv l1 IH]; simpl.
  - generalize (total f l2). intro a. num_cases.
  - eapply num_eq_trans; [apply add_compat; [apply num_eq_refl | exact IH] |].
    apply num_eq_sym, add_assoc_n.
Qed.

Lemma shift_algebra (a b t1 t0 s1 s2 d : number) :
  a =n= Num 0 + t1 -> b =n= Num 0 + t0 ->
  t1 =n= s1 + (d + s2) -> t0 =n= s1 + s2 ->
  a =n= b + d.
Proof. intros; num_cases. Qed.

(** Adding an entry of a recognized key anywhere in the object adds its
    contribution to the offsets of the object without it. *)
Lemma extra_of_insert (m1 m2 : list (jsstring * value)) (kv : jsstring * value) :
  recognized kv = true ->
  extraOffsetX (extra_of (m1 ++ kv :: m2)) =n= extraOffsetX (extra_of (m1 ++ m2)) + dx kv
  /\ extraOffsetY (extra_of (m1 ++ kv :: m2)) =n= extraOffsetY (extra_of (m1 ++ m2)) + dy kv.
Proof.
  intro H. rewrite !extra_of_filter, !filter_app. simpl filter. rewrite H.
  set (l1 := filter recognized m1). set (l2 := filter recognized m2).
  destruct (fold_offset_total (l1 ++ kv :: l2) no_offset) as [Ax Ay].
  destruct (fold_offset_total (l1 ++ l2) no_offset) as [Bx By].
  split.
  - exact (shift_algebra _ _ _ _ _ _ _ Ax Bx
             (total_app dx l1 (kv :: l2)) (total_app dx l1 l2)).
  - exact (shift_algebra _ _ _ _ _ _ _ Ay By
             (total_app dy l1 (kv :: l2)) (total_app dy l1 l2)).
Qed.

Ltac by_insert H ex ey :=
  destruct H as [Hx Hy];
  match type of Hx with
  | context [dx ?kv] => change (dx kv) with ex in Hx; change (dy kv) with ey in Hy
  end;
  revert Hx Hy;
  match goal with
  | |- context [extra_of (?a ++ ?kv :: ?b)] =>
    generalize (extra_of (a ++ kv :: b)); generalize (extra_of (a ++ b))
  end;
  match goal with
  | |- context [parseInt ?v] => generalize (parseInt v)
  end;
  intros n [x y] [x' y']; simpl extraOffsetX; simpl extraOffsetY;
  intros; split; num_cases.

Lemma insert_top (m1 m2 : list (jsstring * value)) (v : value) :
  extraOffsetY (extra_of (m1 ++ (str "top", v) :: m2))
  =n= extraOffsetY (extra_of (m1 ++ m2)) - parseInt v
  /\ extraOffsetX (extra_of (m1 ++ (str "top", v) :: m2))
     =n= extraOffsetX (extra_of (m1 ++ m2)).
Proof. by_insert (extra_of_insert m1 m2 (str "top", v) eq_refl) (Num 0) (- parseInt v). Qed.

Lemma insert_bottom (m1 m2 : list (jsstring * value)) (v : value) :
  extraOffsetY (extra_of (m1 ++ (str "bottom", v) :: m2))
  =n= extraOffsetY (extra_of (m1 ++ m2)) + parseInt v
  /\ extraOffsetX (extra_of (m1 ++ (str "bottom", v) :: m2))
     =n= extraOffsetX (extra_of (m1 ++ m2)).
Proof. by_insert (extra_of_insert m1 m2 (str "bottom", v) eq_refl) (Num 0) (parseInt v). Qed.

Lemma insert_left (m1 m2 : list (jsstring * value)) (v : value) :
  extraOffsetX (extra_of (m1 ++ (str "left", v) :: m2))
  =n= extraOffsetX (extra_of (m1 ++ m2)) - parseInt v
  /\ extraOffsetY (extra_of (m1 ++ (str "left", v) :: m2))
     =n= extraOffsetY (extra_of (m1 ++ m2)).
Proof. by_insert (extra_of_insert m1 m2 (str "left", v) eq_refl) (- parseInt v) (Num 0). Qed.

Lemma insert_right (m1 m2 : list (jsstring * value)) (v : value) :
  extraOffsetX (extra_of (m1 ++ (str "right", v) :: m2))
  =n= extraOffsetX (extra_of (m1 ++ m2)) + parseInt v
  /\ extraOffsetY (extra_of (m1 ++ (str "right", v) :: m2))
     =n= extraOffsetY (extra_of (m1 ++ m2)).
Proof. by_insert (extra_of_insert m1 m2 (str "right", v) eq_refl) (parseInt v) (Num 0). Qed.

Lemma edges_with_top_10 (mouse : MouseOffset) (table : OffsetTable) (p : place) :
  getTipOffsetTop mouse table (extra_of [(str "top", VNum (Num 10))]) p
  =n= getTipOffsetTop mouse table (extra_of []) p - Num 10
  /\ getTipOffsetBottom mouse table (extra_of [(str "top", VNum (Num 10))]) p
     =n= getTipOffsetBottom mouse table (extra_of []) p - Num 10.
Proof.
  unfold getTipOffsetTop, getTipOffsetBottom.
  generalize (entry table p). intros [el er et eb]. destruct mouse as [mx my].
  cbn [mouseX mouseY e_l e_r e_t e_b].
  change (extra_of [(str "top", VNum (Num 10))])
    with {| extraOffsetX := Num 0; extraOffsetY := Num 0 - Num 10 |}.
  change (extra_of []) with no_offset.
  cbn [extraOffsetX extraOffsetY no_offset].
  clear el er mx. split; num_cases.
Qed.

Lemma edges_with_right_5 (mouse : MouseOffset) (table : OffsetTable) (p : place) :
  getTipOffsetLeft mouse table (extra_of [(str "right", VNum (Num 5))]) p
  =n= getTipOffsetLeft mouse table (extra_of []) p + Num 5
  /\ getTipOffsetRight mouse table (extra_of [(str "right", VNum (Num 5))]) p
     =n= getTipOffsetRight mouse table (extra_of []) p + Num 5.
Proof.
  unfold getTipOffsetLeft, getTipOffsetRight.
  generalize (entry table p). intros [el er et eb]. destruct mouse as [mx my].
  cbn [mouseX mouseY e_l e_r e_t e_b].
  change (extra_of [(str "right", VNum (Num 5))])
    with {| extraOffsetX := Num 0 + Num 5; extraOffsetY := Num 0 |}.
  change (extra_of []) with no_offset.
  cbn [extraOffsetX extraOffsetY no_offset].
  clear et eb my. split; num_cases.
Qed.

(** ** The fuel of the parser *)

Lemma skip_ws_length (s : jsstring) : (List.length (skip_ws s) <= List.length s)%nat.
Proof.
  induction s as [| c s IH]; simpl; [lia |].
  destruct (is_json_ws c); simpl; lia.
Qed.

Lemma cons_fst_some {A B} (a : A) (o : option (list A * B)) (l : list A) (b : B) :
  cons_fst a o = Some (l, b) -> exists l', o = Some (l', b) /\ l = a :: l'.
Proof.
  destruct o as [[l' b'] |]; simpl; [| discriminate].
  intro H. injection H as <- <-. exists l'. split; reflexivity.
Qed.

Lemma parse_chars_length_aux (n : nat) :
  forall s k r, (List.length s <= n)%nat ->
    parse_chars s = Some (k, r) -> (List.length r < List.length s)%nat.
Proof.
  induction n as [| n IH]; intros s k r Hn H.
  - destruct s; [discriminate | simpl in Hn; lia].
  - destruct s as [| c s]; [discriminate |].
    simpl in Hn. cbn [parse_chars] in H.
    destruct (c =? dquote)%N.
    { injection H as _ <-. simpl. lia. }
    destruct (c =? chr "\")%N.
    + destruct s as [| e s]; [discriminate |].
      destruct (e =? chr "u")%N.
      * destruct s as [| h1 [| h2 [| h3 [| h4 s]]]]; try discriminate.
        destruct (hex_digit h1), (hex_digit h2), (hex_digit h3), (hex_digit h4);
          try discriminate.
        apply cons_fst_some in H. destruct H as [l' [H _]].
        apply IH in H; simpl in *; lia.
      * destruct (unescape e); [| discriminate].
        apply cons_fst_some in H. destruct H as [l' [H _]].
        apply IH in H; simpl in *; lia.
    + destruct (c <? 32)%N; [discriminate |].
      apply cons_fst_some in H. destruct H as [l' [H _]].
      apply IH in H; simpl in *; lia.
Qed.

Lemma parse_chars_length (s k r : jsstring) :
  parse_chars s = Some (k, r) -> (List.length r < List.length s)%nat.
Proof. apply (parse_chars_length_aux (List.length s)). lia. Qed.

Lemma span_digits_length (s ds r : jsstring) :
  span_digits s = (ds, r) -> (List.length ds + List.length r = List.length s)%nat.
Proof.
  revert ds r. induction s as [| c s IH]; intros ds r H; simpl in H.
  - injection H as <- <-. reflexivity.
  - destruct (is_digit c).
    + destruct (span_digits s) as [ds' r'] eqn:E. injection H as <- <-.
      specialize (IH ds' r' eq_refl). simpl. lia.
    + injection H as <- <-. reflexivity.
Qed.

Lemma read_minus_length (s : jsstring) :
  (List.length (snd (read_minus s)) <= List.length s)%nat.
Proof.
  destruct s as [| c s]; cbn [read_minus]; [simpl; lia |].
  destruct (c =? chr "-")%N; simpl; lia.
Qed.

Lemma read_int_length (s ints r : jsstring) :
  read_int s = (ints, r) -> (List.length ints + List.length r = List.length s)%nat.
Proof.
  destruct s as [| c s]; cbn [read_int]; intro H.
  - injection H as <- <-. reflexivity.
  - destruct (c =? chr "0")%N.
    + injection H as <- <-. reflexivity.
    + apply span_digits_length. exact H.
Qed.

Lemma read_frac_length (s fs r : jsstring) :
  read_frac s = Some (fs, r) -> (List.length r <= List.length s)%nat.
Proof.
  destruct s as [| c s]; cbn [read_frac]; intro H.
  - injection H as <- <-. lia.
  - destruct (c =? chr ".")%N.
    + destruct (span_digits s) as [ds r'] eqn:E.
      apply span_digits_length in E.
      destruct ds; [discriminate |]. injection H as <- <-. simpl in *. lia.
    + injection H as <- <-. lia.
Qed.

Lemma read_exp_length (s : jsstring) (e : Z) (r : jsstring) :
  read_exp s = Some (e, r) -> (List.length r <= List.length s)%nat.
Proof.
  destruct s as [| c s]; cbn [read_exp]; intro H.
  - injection H as <- <-. lia.
  - destruct ((c =? chr "e") || (c =? chr "E"))%N.
    + assert (G : forall sg r1, (List.length r1 <= List.length s)%nat ->
                match span_digits r1 with
                | ([], _) => None
                | ((_ :: _) as es, s') => Some ((sg * digits_value es)%Z, s')
                end = Some (e, r) -> (List.length r <= S (List.length s))%nat).
      { intros sg r1 Hr1 G. destruct (span_digits r1) as [ds r'] eqn:E.
        apply span_digits_length in E. destruct ds; [discriminate |].
        injection G as _ <-. lia. }
      destruct s as [| c1 s']; [exact (G 1%Z [] (Nat.le_refl _) H) |].
      destruct (c1 =? chr "-")%N; [eapply G; [| exact H]; simpl; lia |].
      destruct (c1 =? chr "+")%N; [eapply G; [| exact H]; simpl; lia |].
      eapply G; [| exact H]; simpl; lia.
    + injection H as <- <-. simpl. lia.
Qed.

Lemma parse_number_length (s : jsstring) (q : Q) (r : jsstring) :
  parse_number s = Some (q, r) -> (List.length r < List.length s)%nat.
Proof.
  unfold parse_number. pose proof (read_minus_length s) as Hm.
  destruct (read_minus s) as [sign s1]. simpl in Hm.
  destruct (read_int s1) as [ints s2] eqn:Ei. apply read_int_length in Ei.
  destruct ints as [| i ints]; [discriminate |].
  destruct (read_frac s2) as [[fs s3] |] eqn:Ef; [| discriminate].
  apply read_frac_length in Ef.
  destruct (read_exp s3) as [[e s4] |] eqn:Ee; [| discriminate].
  apply read_exp_length in Ee.
  intro H. injection H as _ <-. simpl in Ei. lia.
Qed.

Lemma expect_length (w s r : jsstring) :
  expect w s = Some r -> (List.length r <= List.length s)%nat.
Proof.
  revert s. induction w as [| a w IH]; intros s H; simpl in H.
  - injection H as <-. lia.
  - destruct s as [| c s]; [discriminate |].
    destruct (a =? c)%N; [| discriminate].
    apply IH in H. simpl. lia.
Qed.

Lemma value_step_consuming
    (members : list (jsstring * value) -> jsstring -> option (value * jsstring))
    (elements : list value -> jsstring -> option (value * jsstring)) :
  (forall acc, consuming (members acc)) ->
  (forall acc, consuming (elements acc)) ->
  consuming (value_step members elements).
Proof.
  intros Hm He s v r. unfold value_step.
  pose proof (skip_ws_length s) as Hs.
  destruct (skip_ws s) as [| c s1]; [discriminate |]. simpl in Hs.
  pose proof (skip_ws_length s1) as Hs1.
  destruct (c =? chr "{")%N.
  { destruct (skip_ws s1) as [| c1 r1]; [discriminate |]. simpl in Hs1.
    destruct (c1 =? chr "}")%N.
    - intro H. injection H as _ <-. lia.
    - intro H. apply Hm in H. lia. }
  destruct (c =? chr "[")%N.
  { destruct (skip_ws s1) as [| c1 r1]; [discriminate |]. simpl in Hs1.
    destruct (c1 =? chr "]")%N.
    - intro H. injection H as _ <-. lia.
    - intro H. apply He in H. lia. }
  destruct (c =? dquote)%N.
  { destruct (parse_chars s1) as [[k r1] |] eqn:E; [| discriminate].
    apply parse_chars_length in E. intro H. injection H as _ <-. lia. }
  destruct (c =? chr "t")%N.
  { destruct (expect (str "rue") s1) as [r1 |] eqn:E; [| discriminate].
    apply expect_length in E. intro H. injection H as _ <-. lia. }
  destruct (c =? chr "f")%N.
  { destruct (expect (str "alse") s1) as [r1 |] eqn:E; [| discriminate].
    apply expect_length in E. intro H. injection H as _ <-. lia. }
  destruct (c =? chr "n")%N.
  { destruct (expect (str "ull") s1) as [r1 |] eqn:E; [| discriminate].
    apply expect_length in E. intro H. injection H as _ <-. lia. }
  destruct (parse_number (c :: s1)) as [[q r1] |] eqn:E; [| discriminate].
  apply parse_number_length in E. simpl in E. intro H. injection H as _ <-. lia.
Qed.

(** The calls of [members_step] and [elements_step], with what they were
    given. *)
Lemma members_step_ext
    (v1 v2 : jsstring -> option (value * jsstring))
    (m1 m2 : list (jsstring * value) -> jsstring -> option (value * jsstring))
    (acc : list (jsstring * value)) (s : jsstring) :
  consuming v1 ->
  (forall r, (List.length r < List.length s)%nat -> v1 r = v2 r) ->
  (forall a r, (List.length r < List.length s)%nat -> m1 a r = m2 a r) ->
  members_step v1 m1 acc s = members_step v2 m2 acc s.
Proof.
  intros Hc Hv Hm. unfold members_step.
  pose proof (skip_ws_length s) as Hs.
  destruct (skip_ws s) as [| c s1]; [reflexivity |]. simpl in Hs.
  destruct (c =? dquote)%N; [| reflexivity].
  destruct (parse_chars s1) as [[k r1] |] eqn:E; [| reflexivity].
  apply parse_chars_length in E.
  pose proof (skip_ws_length r1) as Hr1.
  destruct (skip_ws r1) as [| c1 r2]; [reflexivity |]. simpl in Hr1.
  destruct (c1 =? chr ":")%N; [| reflexivity].
  rewrite <- (Hv r2) by lia.
  destruct (v1 r2) as [[v r3] |] eqn:E3; [| reflexivity].
  apply Hc in E3.
  pose proof (skip_ws_length r3) as Hr3.
  destruct (skip_ws r3) as [| c3 r4]; [reflexivity |]. simpl in Hr3.
  destruct (c3 =? chr ",")%N; [| reflexivity].
  apply Hm. lia.
Qed.

Lemma members_step_consuming
    (v1 : jsstring -> option (value * jsstring))
    (m1 : list (jsstring * value) -> jsstring -> option (value * jsstring)) :
  consuming v1 -> (forall acc, consuming (m1 acc)) ->
  forall acc, consuming (members_step v1 m1 acc).
Proof.
  intros Hc Hm acc s v r. unfold members_step.
  pose proof (skip_ws_length s) as Hs.
  destruct (skip_ws s) as [| c s1]; [discriminate |]. simpl in Hs.
  destruct (c =? dquote)%N; [| discriminate].
  destruct (parse_chars s1) as [[k r1] |] eqn:E; [| discriminate].
  apply parse_chars_length in E.
  pose proof (skip_ws_length r1) as Hr1.
  destruct (skip_ws r1) as [| c1 r2]; [discriminate |]. simpl in Hr1.
  destruct (c1 =? chr ":")%N; [| discriminate].
  destruct (v1 r2) as [[v' r3] |] eqn:E3; [| discriminate].
  apply Hc in E3.
  pose proof (skip_ws_length r3) as Hr3.
  destruct (skip_ws r3) as [| c3 r4]; [discriminate |]. simpl in Hr3.
  destruct (c3 =? chr ",")%N.
  - intro H. apply Hm in H. lia.
  - destruct (c3 =? chr "}")%N; [| discriminate].
    intro H. injection H as _ <-. lia.
Qed.

Lemma elements_step_ext
    (v1 v2 : jsstring -> option (value * jsstring))
    (e1 e2 : list value -> jsstring -> option (value * jsstring))
    (acc : list value) (s : jsstring) :
  consuming v1 ->
  (forall r, (List.length r <= List.length s)%nat -> v1 r = v2 r) ->
  (forall a r, (List.length r < List.length s)%nat -> e1 a r = e2 a r) ->
  elements_step v1 e1 acc s = elements_step v2 e2 acc s.
Proof.
  intros Hc Hv He. unfold elements_step.
  rewrite <- (Hv s) by lia.
  destruct (v1 s) as [[v r1] |] eqn:E; [| reflexivity].
  apply Hc in E.
  pose proof (skip_ws_length r1) as Hr1.
  destruct (skip_ws r1) as [| c r2]; [reflexivity |]. simpl in Hr1.
  destruct (c =? chr ",")%N; [| reflexivity].
  apply He. lia.
Qed.

Lemma elements_step_consuming
    (v1 : jsstring -> option (value * jsstring))
    (e1 : list value -> jsstring -> option (value * jsstring)) :
  consuming v1 -> (forall acc, consuming (e1 acc)) ->
  forall acc, consuming (elements_step v1 e1 acc).
Proof.
  intros Hc He acc s v r. unfold elements_step.
  destruct (v1 s) as [[v' r1] |] eqn:E; [| discriminate].
  apply Hc in E.
  pose proof (skip_ws_length r1) as Hr1.
  destruct (skip_ws r1) as [| c r2]; [discriminate |]. simpl in Hr1.
  destruct (c =? chr ",")%N.
  - intro H. apply He in H. lia.
  - destruct (c =? chr "]")%N; [| discriminate].
    intro H. injection H as _ <-. lia.
Qed.

Lemma value_step_ext
    (m1 m2 : list (jsstring * value) -> jsstring -> option (value * jsstring))
    (e1 e2 : list value -> jsstring -> option (value * jsstring))
    (s : jsstring) :
  (forall a r, (List.length r < List.length s)%nat -> m1 a r = m2 a r) ->
  (forall a r, (List.length r < List.length s)%nat -> e1 a r = e2 a r) ->
  value_step m1 e1 s = value_step m2 e2 s.
Proof.
  intros Hm He. unfold value_step.
  pose proof (skip_ws_length s) as Hs.
  destruct (skip_ws s) as [| c s1]; [reflexivity |]. simpl in Hs.
  destruct (c =? chr "{")%N.
  { destruct (skip_ws s1) as [| c1 r1]; [reflexivity |].
    destruct (c1 =? chr "}")%N; [reflexivity |]. apply Hm. lia. }
  destruct (c =? chr "[")%N; [| reflexivity].
  destruct (skip_ws s1) as [| c1 r1]; [reflexivity |].
  destruct (c1 =? chr "]")%N; [reflexivity |]. apply He. lia.
Qed.

(** Every reader consumes input, whatever the fuel. *)
Lemma parsers_consuming (f : nat) :
  consuming (parse_value f)
  /\ (forall acc, consuming (parse_members f acc))
  /\ (forall acc, consuming (parse_elements f acc)).
Proof.
  induction f as [| f [IHv [IHm IHe]]].
  - repeat split; intros; intros s v r H; discriminate.
  - split; [| split].
    + exact (value_step_consuming _ _ IHm IHe).
    + exact (members_step_consuming _ _ IHv IHm).
    + exact (elements_step_consuming _ _ IHv IHe).
Qed.

(** Fuel beyond twice the length of the text changes nothing. *)
Lemma one_more_fuel (f : nat) :
  (forall s, (2 * List.length s <= f)%nat -> parse_value (S f) s = parse_value f s)
  /\ (forall acc s, (2 * List.length s + 1 <= f)%nat ->
        parse_members (S f) acc s = parse_members f acc s)
  /\ (forall acc s, (2 * List.length s + 1 <= f)%nat ->
        parse_elements (S f) acc s = parse_elements f acc s).
Proof.
  induction f as [| f [IHv [IHm IHe]]].
  - split; [| split]; intros; try lia.
    destruct s; [reflexivity | simpl in *; lia].
  - destruct (parsers_consuming (S f)) as [Cv _].
    split; [| split].
    + intros s Hs. cbn [parse_value]. apply value_step_ext.
      * intros a r Hr. apply IHm. lia.
      * intros a r Hr. apply IHe. lia.
    + intros acc s Hs. cbn [parse_members]. apply members_step_ext.
      * exact Cv.
      * intros r Hr. apply IHv. lia.
      * intros a r Hr. apply IHm. lia.
    + intros acc s Hs. cbn [parse_elements]. apply elements_step_ext.
      * exact Cv.
      * intros r Hr. apply IHv. lia.
      * intros a r Hr. apply IHe. lia.
Qed.

(** [JSON_parse] does not run out of fuel: with any more fuel the reading
    of the text is the same. *)
Lemma parse_value_fuel (s : jsstring) (n : nat) :
  parse_value (2 * List.length s + 2 + n) s = parse_value (2 * List.length s + 2) s.
Proof.
  induction n as [| n IH]; [f_equal; lia |].
  rewrite <- IH. replace (2 * List.length s + 2 + S n)%nat
    with (S (2 * List.length s + 2 + n)) by lia.
  apply one_more_fuel. lia.
Qed.

(** ** Offsets given as strings *)




(** ** Offsets written with single quotes *)

(** *** Digits *)

Lemma chars_uint_uint_chars (u : Decimal.uint) : chars_uint (uint_chars u) = u.
Proof. induction u; simpl; congruence. Qed.

Lemma span_digits_no_digit (rest : jsstring) :
  no_digit_ahead rest -> span_digits rest = ([], rest).
Proof. destruct rest as [| c r]; simpl; intro H; [reflexivity | rewrite H; reflexivity]. Qed.

Lemma digits_value_uint (n : N) : digits_value (uint_chars (N.to_uint n)) = Z.of_N n.
Proof.
  unfold digits_value. rewrite chars_uint_uint_chars, DecimalN.Unsigned.of_to.
  reflexivity.
Qed.

Lemma nzhead_not_D0 (d u : Decimal.uint) : nzhead d <> D0 u.
Proof. induction d; simpl; try discriminate. exact IHd. Qed.

(** The decimal writing of a positive number starts with a digit other
    than 0. *)
Lemma pos_to_uint_head (p : positive) :
  exists c cs, uint_chars (Pos.to_uint p) = c :: cs /\ (49 <= c <= 57)%N.
Proof.
  pose proof (DecimalPos.Unsigned.to_of (Pos.to_uint p)) as H.
  rewrite DecimalPos.Unsigned.of_to in H. simpl in H.
  pose proof (DecimalPos.Unsigned.to_uint_nonzero p) as Hz.
  unfold unorm in H.
  pose proof (nzhead_not_D0 (Pos.to_uint p)) as Hd.
  destruct (nzhead (Pos.to_uint p)) eqn:E.
  - exfalso. apply Hz. exact H.
  - exfalso. apply (Hd u). reflexivity.
  - rewrite H. simpl. eexists; eexists; split; [reflexivity | lia].
  - rewrite H. simpl. eexists; eexists; split; [reflexivity | lia].
  - rewrite H. simpl. eexists; eexists; split; [reflexivity | lia].
  - rewrite H. simpl. eexists; eexists; split; [reflexivity | lia].
  - rewrite H. simpl. eexists; eexists; split; [reflexivity | lia].
  - rewrite H. simpl. eexists; eexists; split; [reflexivity | lia].
  - rewrite H. simpl. eexists; eexists; split; [reflexivity | lia].
  - rewrite H. simpl. eexists; eexists; split; [reflexivity | lia].
  - rewrite H. simpl. eexists; eexists; split; [reflexivity | lia].
Qed.

(** *** Number literals *)

Lemma number_ends_no_digit rest : number_ends rest -> no_digit_ahead rest.
Proof. destruct rest; simpl; tauto. Qed.

Lemma uint_chars_digits (u : Decimal.uint) : forallb is_digit (uint_chars u) = true.
Proof. induction u; simpl; auto. Qed.

Lemma span_digits_all (ds rest : jsstring) :
  forallb is_digit ds = true -> no_digit_ahead rest ->
  span_digits (ds ++ rest) = (ds, rest).
Proof.
  intros Hd Hr. induction ds as [| c ds IH]; simpl.
  - apply span_digits_no_digit. exact Hr.
  - simpl in Hd. apply andb_true_iff in Hd. destruct Hd as [Hc Hd].
    rewrite Hc, (IH Hd). reflexivity.
Qed.

Lemma is_digit_range (c : N) : is_digit c = true <-> (48 <= c <= 57)%N.
Proof. unfold is_digit. rewrite andb_true_iff, !N.leb_le. tauto. Qed.

Lemma eqb_false (c k : N) : c <> k -> (c =? k)%N = false.
Proof. apply N.eqb_neq. Qed.

Lemma read_frac_none (rest : jsstring) : number_ends rest -> read_frac rest = Some ([], rest).
Proof.
  destruct rest as [| c r]; simpl; [reflexivity |].
  intros [_ [H _]]. rewrite (eqb_false _ _ H). reflexivity.
Qed.

Lemma read_exp_none (rest : jsstring) : number_ends rest -> read_exp rest = Some (0%Z, rest).
Proof.
  destruct rest as [| c r]; simpl; [reflexivity |].
  intros [_ [_ [H1 H2]]]. rewrite (eqb_false _ _ H1), (eqb_false _ _ H2). reflexivity.
Qed.

(** A run of digits without leading zero, followed by something that ends
    the literal, reads as its value. *)
Lemma read_int_digits (c : N) (cs rest : jsstring) :
  forallb is_digit (c :: cs) = true ->
  (c <> 48%N \/ cs = []) ->
  number_ends rest ->
  read_int ((c :: cs) ++ rest) = (c :: cs, rest).
Proof.
  intros Hd Hz Hr. change ((c :: cs) ++ rest) with (c :: (cs ++ rest)).
  cbv beta iota delta [read_int].
  destruct (c =? chr "0")%N eqn:E.
  - apply N.eqb_eq in E. destruct Hz as [Hz | Hz]; [contradiction |].
    subst cs. reflexivity.
  - change (c :: cs ++ rest) with ((c :: cs) ++ rest).
    apply (span_digits_all _ _ Hd (number_ends_no_digit _ Hr)).
Qed.

Lemma parse_number_unsigned (c : N) (cs rest : jsstring) :
  forallb is_digit (c :: cs) = true ->
  (c <> 48%N \/ cs = []) ->
  number_ends rest ->
  parse_number ((c :: cs) ++ rest) = Some (inject_Z (digits_value (c :: cs)), rest).
Proof.
  intros Hd Hz Hr.
  assert (Hc : (48 <= c <= 57)%N).
  { apply is_digit_range. simpl in Hd. apply andb_true_iff in Hd. apply Hd. }
  unfold parse_number.
  assert (Hm : read_minus ((c :: cs) ++ rest) = (1%Z, (c :: cs) ++ rest)).
  { simpl. rewrite eqb_false; [reflexivity |]. change (chr "-") with 45%N. lia. }
  rewrite Hm. cbv beta iota.
  rewrite (read_int_digits c cs rest Hd Hz Hr). cbv beta iota.
  rewrite (read_frac_none _ Hr), (read_exp_none _ Hr).
  rewrite app_nil_r. unfold scale10. simpl.
  rewrite Z.mul_1_r. destruct (digits_value (c :: cs)); reflexivity.
Qed.

Lemma parse_number_negative (c : N) (cs rest : jsstring) :
  forallb is_digit (c :: cs) = true ->
  (c <> 48%N \/ cs = []) ->
  number_ends rest ->
  parse_number (chr "-" :: (c :: cs) ++ rest)
  = Some (inject_Z (- digits_value (c :: cs)), rest).
Proof.
  intros Hd Hz Hr.
  unfold parse_number.
  change (read_minus (chr "-" :: (c :: cs) ++ rest)) with ((-1)%Z, (c :: cs) ++ rest).
  cbv beta iota.
  rewrite (read_int_digits c cs rest Hd Hz Hr). cbv beta iota.
  rewrite (read_frac_none _ Hr), (read_exp_none _ Hr).
  rewrite app_nil_r. unfold scale10. simpl.
  rewrite Z.mul_1_r. destruct (digits_value (c :: cs)); reflexivity.
Qed.

(** The writing of an integer: a sign or a digit first. *)
Lemma encode_Z_shape (z : Z) :
  exists c cs,
    forallb is_digit (c :: cs) = true /\ (c <> 48%N \/ cs = [])
    /\ digits_value (c :: cs) = Z.abs z
    /\ encode_Z z = (if (z <? 0)%Z then [chr "-"] else []) ++ c :: cs.
Proof.
  unfold encode_Z.
  destruct (Z.abs_N z) as [| p] eqn:E.
  - exists 48%N, []. repeat split; auto.
    assert (Z.abs z = 0%Z) by lia. rewrite H. reflexivity.
  - destruct (pos_to_uint_head p) as [c [cs [Hp Hc]]].
    exists c, cs. simpl N.to_uint. rewrite Hp. repeat split.
    + rewrite <- Hp. apply uint_chars_digits.
    + left. lia.
    + rewrite <- Hp. change (Pos.to_uint p) with (N.to_uint (Npos p)).
      rewrite digits_value_uint. lia.
Qed.

Lemma parse_number_encode_Z (z : Z) (rest : jsstring) :
  number_ends rest ->
  parse_number (encode_Z z ++ rest) = Some (inject_Z z, rest).
Proof.
  intro Hr. destruct (encode_Z_shape z) as [c [cs [Hd [Hz [Hv He]]]]].
  rewrite He. destruct (z <? 0)%Z eqn:S.
  - change (([chr "-"] ++ c :: cs) ++ rest) with (chr "-" :: (c :: cs) ++ rest).
    rewrite (parse_number_negative _ _ _ Hd Hz Hr). rewrite Hv.
    apply Z.ltb_lt in S. do 3 f_equal. lia.
  - change (([] ++ c :: cs) ++ rest) with ((c :: cs) ++ rest).
    rewrite (parse_number_unsigned _ _ _ Hd Hz Hr). rewrite Hv.
    apply Z.ltb_ge in S. do 3 f_equal. lia.
Qed.

(** *** String literals *)

Lemma plain_char_facts (c : N) :
  plain_char c = true ->
  c <> squote /\ c <> dquote /\ c <> chr "\" /\ (32 <= c)%N.
Proof.
  unfold plain_char. rewrite !andb_true_iff, !negb_true_iff, !N.eqb_neq, N.leb_le.
  tauto.
Qed.

Lemma plain_cons (c : N) (s : jsstring) :
  plain (c :: s) -> plain_char c = true /\ plain s.
Proof. unfold plain. simpl. apply andb_true_iff. Qed.

Lemma parse_chars_plain (s rest : jsstring) :
  plain s -> parse_chars (s ++ dquote :: rest) = Some (s, rest).
Proof.
  induction s as [| c s IH]; intro H.
  - reflexivity.
  - apply plain_cons in H. destruct H as [Hc Hs].
    apply plain_char_facts in Hc. destruct Hc as [_ [Hq [Hb Hl]]].
    simpl app. cbn [parse_chars].
    rewrite (eqb_false _ _ Hq), (eqb_false _ _ Hb).
    replace (c <? 32)%N with false by (symmetry; apply N.ltb_ge; exact Hl).
    rewrite (IH Hs). reflexivity.
Qed.

Lemma replace_quotes_cons (c : N) (s : jsstring) :
  replace_quotes (c :: s) = (if (c =? squote)%N then dquote else c) :: replace_quotes s.
Proof. reflexivity. Qed.

Lemma replace_quotes_plain (s : jsstring) : plain s -> replace_quotes s = s.
Proof.
  induction s as [| c s IH]; intro H; [reflexivity |].
  apply plain_cons in H. destruct H as [Hc Hs].
  apply plain_char_facts in Hc. destruct Hc as [Hq _].
  rewrite replace_quotes_cons, (IH Hs), (eqb_false _ _ Hq). reflexivity.
Qed.

Lemma replace_quotes_app (a b : jsstring) :
  replace_quotes (a ++ b) = replace_quotes a ++ replace_quotes b.
Proof. apply map_app. Qed.

Lemma replace_quotes_digits (ds : jsstring) :
  forallb is_digit ds = true -> replace_quotes ds = ds.
Proof.
  induction ds as [| c ds IH]; intro H; [reflexivity |].
  simpl in H. apply andb_true_iff in H. destruct H as [Hc Hd].
  apply is_digit_range in Hc.
  rewrite replace_quotes_cons, (IH Hd).
  rewrite eqb_false; [reflexivity |]. change squote with 39%N. lia.
Qed.

Lemma replace_quotes_encode_Z (z : Z) : replace_quotes (encode_Z z) = encode_Z z.
Proof.
  unfold encode_Z. rewrite replace_quotes_app.
  rewrite (replace_quotes_digits _ (uint_chars_digits _)).
  destruct (z <? 0)%Z; reflexivity.
Qed.

Lemma replace_quotes_value (v : pixels) :
  plain_value v -> replace_quotes (encode_value squote v) = encode_value dquote v.
Proof.
  destruct v as [z | s]; simpl; intro H.
  - apply replace_quotes_encode_Z.
  - change (squote :: s ++ [squote]) with ([squote] ++ s ++ [squote]).
    rewrite !replace_quotes_app, (replace_quotes_plain s H). reflexivity.
Qed.

Lemma replace_quotes_members (m : offset_map) :
  Forall (fun kv => plain (fst kv) /\ plain_value (snd kv)) m ->
  replace_quotes (encode_members squote m) = encode_members dquote m.
Proof.
  induction m as [| [k v] m IH]; intro H; [reflexivity |].
  pose proof (Forall_inv H) as [Hk Hv]. simpl in Hk, Hv.
  apply Forall_inv_tail in H. specialize (IH H).
  cbn [encode_members].
  change (squote :: k ++ squote :: chr ":" :: chr " " :: encode_value squote v
            ++ match m with [] => [] | _ :: _ => chr "," :: chr " " :: encode_members squote m end)
    with ([squote] ++ k ++ [squote; chr ":"; chr " "] ++ encode_value squote v
            ++ match m with [] => [] | _ :: _ => chr "," :: chr " " :: encode_members squote m end).
  rewrite !replace_quotes_app.
  rewrite (replace_quotes_plain k Hk), (replace_quotes_value v Hv).
  destruct m as [| kv' m'].
  - reflexivity.
  - change (replace_quotes (chr "," :: chr " " :: encode_members squote (kv' :: m')))
      with (chr "," :: chr " " :: replace_quotes (encode_members squote (kv' :: m'))).
    rewrite IH. reflexivity.
Qed.

Lemma replace_quotes_encode (m : offset_map) :
  well_formed m -> replace_quotes (encode m) = encode_with dquote m.
Proof.
  intros [_ H]. unfold encode, encode_with.
  change (chr "{" :: encode_members squote m ++ [chr "}"])
    with ([chr "{"] ++ encode_members squote m ++ [chr "}"]).
  rewrite !replace_quotes_app, (replace_quotes_members m H). reflexivity.
Qed.

(** *** Members *)

Lemma obj_set_fresh (acc : list (jsstring * value)) (k : jsstring) (v : value) :
  ~ In k (List.map fst acc) -> obj_set acc k v = acc ++ [(k, v)].
Proof.
  induction acc as [| [k' v'] acc IH]; simpl; intro H; [reflexivity |].
  destruct (jsstring_eqb k' k) eqn:E.
  - apply jsstring_eqb_eq in E. exfalso. apply H. left. exact E.
  - rewrite IH; [reflexivity |]. intro G. apply H. right. exact G.
Qed.

Lemma parse_members_skip_space (f : nat) (acc : list (jsstring * value)) (s : jsstring) :
  parse_members f acc (chr " " :: s) = parse_members f acc s.
Proof. destruct f; reflexivity. Qed.

Lemma parse_value_skip_space (f : nat) (s : jsstring) :
  parse_value f (chr " " :: s) = parse_value f s.
Proof. destruct f; reflexivity. Qed.

Lemma member_ends_number (tail : jsstring) : member_ends tail -> number_ends tail.
Proof.
  intros [r [-> | ->]]; simpl; repeat split; discriminate.
Qed.

Lemma parse_value_string (f : nat) (s tail : jsstring) :
  plain s ->
  parse_value (S f) (dquote :: s ++ dquote :: tail) = Some (VStr s, tail).
Proof.
  intro H. cbn [parse_value]. unfold value_step. cbn [skip_ws]. simpl.
  rewrite (parse_chars_plain s tail H). reflexivity.
Qed.

Lemma parse_value_number (f : nat) (z : Z) (tail : jsstring) :
  number_ends tail ->
  parse_value (S f) (encode_Z z ++ tail) = Some (VNum (of_Z z), tail).
Proof.
  intro H. pose proof (parse_number_encode_Z z tail H) as P.
  destruct (encode_Z_shape z) as [c [cs [Hd [_ [_ He]]]]].
  assert (Hc : (48 <= c <= 57)%N).
  { apply is_digit_range. simpl in Hd. apply andb_true_iff in Hd. apply Hd. }
  rewrite He in *. clear He.
  destruct (z <? 0)%Z.
  - change (([chr "-"] ++ c :: cs) ++ tail) with (chr "-" :: (c :: cs) ++ tail) in *.
    cbn [parse_value]. unfold value_step. cbn [skip_ws]. simpl.
    change (45%N :: c :: cs ++ tail) with (chr "-" :: (c :: cs) ++ tail).
    rewrite P. reflexivity.
  - change (([] ++ c :: cs) ++ tail) with (c :: (cs ++ tail)) in *.
    cbn [parse_value]. unfold value_step. cbn [skip_ws]. unfold is_json_ws.
    repeat match goal with
           | |- context [(c =? ?k)%N] =>
             rewrite (eqb_false c k) by (vm_compute; lia)
           end.
    cbn [orb]. cbv beta iota.
    repeat match goal with
           | |- context [(c =? ?k)%N] =>
             rewrite (eqb_false c k) by (vm_compute; lia)
           end.
    rewrite P. reflexivity.
Qed.

Lemma parse_value_encoded (f : nat) (v : pixels) (tail : jsstring) :
  plain_value v -> member_ends tail ->
  parse_value (S f) (chr " " :: encode_value dquote v ++ tail)
  = Some (structured_value v, tail).
Proof.
  intros Hv Ht. rewrite parse_value_skip_space.
  destruct v as [z | s]; simpl encode_value; simpl structured_value.
  - apply parse_value_number, member_ends_number, Ht.
  - change ((dquote :: s ++ [dquote]) ++ tail) with (dquote :: (s ++ [dquote]) ++ tail).
    rewrite <- app_assoc. apply parse_value_string. exact Hv.
Qed.

(** One member read: the key, the colon, the value, then a comma and the
    other members or the closing brace. *)
Lemma parse_members_unfold (f : nat) (acc : list (jsstring * value))
    (r : jsstring) (k r1 r2 : jsstring) (v : value) (r3 : jsstring) (c3 : N) (r4 : jsstring) :
  parse_chars r = Some (k, r1) ->
  skip_ws r1 = chr ":" :: r2 ->
  parse_value f r2 = Some (v, r3) ->
  skip_ws r3 = c3 :: r4 ->
  parse_members (S f) acc (dquote :: r)
  = if (c3 =? chr ",")%N then parse_members f (obj_set acc k v) r4
    else if (c3 =? chr "}")%N then Some (VObj (obj_set acc k v), r4)
    else None.
Proof.
  intros H1 H2 H3 H4. cbn [parse_members]. unfold members_step. cbn [skip_ws].
  change (is_json_ws dquote) with false. cbv beta iota.
  change (dquote =? dquote)%N with true. cbv beta iota.
  rewrite H1, H2. change (chr ":" =? chr ":")%N with true. cbv beta iota.
  rewrite H3, H4. reflexivity.
Qed.

Lemma parse_members_step (f : nat) (acc : list (jsstring * value))
    (k : jsstring) (v : pixels) (tail : jsstring) :
  plain k -> plain_value v -> member_ends tail ->
  parse_members (S (S f)) acc
    (dquote :: k ++ dquote :: chr ":" :: chr " " :: encode_value dquote v ++ tail)
  = match tail with
    | c :: r =>
      if (c =? chr ",")%N
      then parse_members (S f) (obj_set acc k (structured_value v)) r
      else Some (VObj (obj_set acc k (structured_value v)), r)
    | [] => None
    end.
Proof.
  intros Hk Hv Ht.
  destruct Ht as [r Ht].
  assert (Hs : exists c, tail = c :: r /\ skip_ws tail = c :: r
                         /\ (c = chr "," \/ c = chr "}")).
  { destruct Ht as [-> | ->]; eexists; repeat split; auto. }
  destruct Hs as [c [Et [Hs Hc]]].
  rewrite (parse_members_unfold (S f) acc _ k
             (chr ":" :: chr " " :: encode_value dquote v ++ tail)
             (chr " " :: encode_value dquote v ++ tail)
             (structured_value v) tail c r
             (parse_chars_plain k _ Hk) eq_refl
             (parse_value_encoded f v tail Hv (ex_intro _ r Ht)) Hs).
  rewrite Et. destruct Hc as [-> | ->]; reflexivity.
Qed.

Lemma parse_members_encoded (m : offset_map) :
  forall (f : nat) (acc : list (jsstring * value)) (rest : jsstring),
    m <> [] ->
    Forall (fun kv => plain (fst kv) /\ plain_value (snd kv)) m ->
    NoDup (List.map fst m) ->
    (forall k, In k (List.map fst m) -> ~ In k (List.map fst acc)) ->
    (List.length m <= f)%nat ->
    parse_members (S f) acc (encode_members dquote m ++ chr "}" :: rest)
    = Some (VObj (acc ++ structured_entries m), rest).
Proof.
  induction m as [| [k v] m IH]; intros f acc rest Hne Hp Hn Hfresh Hlen;
    [contradiction |].
  pose proof (Forall_inv Hp) as [Hk Hv]. simpl in Hk, Hv.
  apply Forall_inv_tail in Hp.
  simpl in Hn. apply NoDup_cons_iff in Hn. destruct Hn as [Hnotin Hn].
  destruct f as [| f]; [simpl in Hlen; lia |].
  assert (Hset : obj_set acc k (structured_value v) = acc ++ [(k, structured_value v)]).
  { apply obj_set_fresh. apply Hfresh. left. reflexivity. }
  cbn [encode_members].
  destruct m as [| kv' m'].
  - rewrite app_nil_r.
    change ((dquote :: k ++ dquote :: chr ":" :: chr " " :: encode_value dquote v)
              ++ chr "}" :: rest)
      with (dquote :: (k ++ dquote :: chr ":" :: chr " " :: encode_value dquote v)
              ++ chr "}" :: rest).
    rewrite <- app_assoc.
    change ((dquote :: chr ":" :: chr " " :: encode_value dquote v) ++ chr "}" :: rest)
      with (dquote :: chr ":" :: chr " " :: encode_value dquote v ++ chr "}" :: rest).
    rewrite (parse_members_step f acc k v (chr "}" :: rest) Hk Hv);
      [| exists rest; right; reflexivity].
    simpl. rewrite Hset. reflexivity.
  - set (tl := encode_members dquote (kv' :: m')) in *.
    change ((dquote :: k ++ dquote :: chr ":" :: chr " " :: encode_value dquote v
               ++ chr "," :: chr " " :: tl) ++ chr "}" :: rest)
      with (dquote :: (k ++ dquote :: chr ":" :: chr " " :: encode_value dquote v
               ++ chr "," :: chr " " :: tl) ++ chr "}" :: rest).
    rewrite <- app_assoc.
    change ((dquote :: chr ":" :: chr " " :: encode_value dquote v
               ++ chr "," :: chr " " :: tl) ++ chr "}" :: rest)
      with (dquote :: chr ":" :: chr " " :: (encode_value dquote v
               ++ chr "," :: chr " " :: tl) ++ chr "}" :: rest).
    rewrite <- app_assoc.
    change ((chr "," :: chr " " :: tl) ++ chr "}" :: rest)
      with (chr "," :: chr " " :: tl ++ chr "}" :: rest).
    rewrite (parse_members_step f acc k v _ Hk Hv);
      [| eexists; left; reflexivity].
    simpl N.eqb. cbv beta iota.
    rewrite parse_members_skip_space, Hset.
    subst tl. rewrite (IH f (acc ++ [(k, structured_value v)]) rest).
    + rewrite <- app_assoc. reflexivity.
    + discriminate.
    + exact Hp.
    + exact Hn.
    + intros k' Hin Hacc. rewrite map_app in Hacc. apply in_app_or in Hacc.
      destruct Hacc as [Hacc | Hacc].
      * apply (Hfresh k'); [right; exact Hin | exact Hacc].
      * simpl in Hacc. destruct Hacc as [Hacc | []]. subst k'. apply Hnotin. exact Hin.
    + simpl in Hlen. simpl. lia.
Qed.

Lemma parse_value_object (f : nat) (r : jsstring) :
  parse_value (S f) (chr "{" :: dquote :: r) = parse_members f [] (dquote :: r).
Proof. reflexivity. Qed.

Lemma encode_members_length (q : N) (m : offset_map) :
  (List.length m <= List.length (encode_members q m))%nat.
Proof.
  induction m as [| [k v] m IH]; [simpl; lia |].
  cbn [encode_members].
  set (more := match m with
               | [] => []
               | _ :: _ => chr "," :: chr " " :: encode_members q m
               end).
  assert (Hm : (List.length m <= List.length more)%nat).
  { subst more. destruct m; cbn [List.length] in *; lia. }
  cbn [List.length]. rewrite length_app. cbn [List.length]. rewrite length_app. lia.
Qed.

(** The text written with double quotes reads back as the object. *)
Lemma JSON_parse_encoded (m : offset_map) :
  well_formed m -> JSON_parse (encode_with dquote m) = Ok (structured m).
Proof.
  intros [Hn Hp]. destruct m as [| [k v] m]; [reflexivity |].
  unfold JSON_parse, encode_with.
  pose proof (encode_members_length dquote ((k, v) :: m)) as Hl.
  assert (Hhead : exists r, encode_members dquote ((k, v) :: m) = dquote :: r)
    by (eexists; reflexivity).
  destruct Hhead as [r Hr].
  pose proof (parse_members_encoded ((k, v) :: m)) as Hparse.
  remember (encode_members dquote ((k, v) :: m)) as text eqn:Et.
  assert (Hfuel : exists f,
             (2 * List.length (chr "{" :: text ++ [chr "}"]) + 2 = S (S f))%nat
             /\ (List.length ((k, v) :: m) <= f)%nat).
  { exists (2 * List.length (chr "{" :: text ++ [chr "}"]))%nat. split; [lia |].
    cbn [List.length]. rewrite length_app. cbn [List.length] in Hl. lia. }
  destruct Hfuel as [f [-> Hf]].
  rewrite Hr at 1. change ((dquote :: r) ++ [chr "}"]) with (dquote :: r ++ [chr "}"]).
  rewrite parse_value_object.
  change (dquote :: r ++ [chr "}"]) with ((dquote :: r) ++ [chr "}"]). rewrite <- Hr.
  rewrite (Hparse f [] []);
    [reflexivity | discriminate | exact Hp | exact Hn | intros ? _ [] | exact Hf].
Qed.

(** The offset maps of the component are well formed. *)
Lemma pixel_char_plain (c : N) : pixel_char c = true -> plain_char c = true.
Proof.
  unfold pixel_char, plain_char. rewrite !orb_true_iff, is_digit_range, !N.eqb_eq.
  intro H. rewrite !andb_true_iff, !negb_true_iff, !N.eqb_neq, N.leb_le.
  change squote with 39%N. change dquote with 34%N. change (chr "\") with 92%N.
  change (chr "-") with 45%N in H. change (chr "+") with 43%N in H.
  change (chr ".") with 46%N in H. change (chr " ") with 32%N in H.
  lia.
Qed.

Lemma side_offsets_well_formed (m : offset_map) : side_offsets m -> well_formed m.
Proof.
  intros [Hn Hf]. split; [exact Hn |].
  apply (Forall_impl _ (P := fun kv => side_key (fst kv) /\ pixel_value (snd kv)));
    [| exact Hf].
  intros [k v] [Hk Hv]. simpl in *. split.
  - destruct Hk as [<- | [<- | [<- | [<- | []]]]]; reflexivity.
  - destruct v as [z | s]; simpl in *; [exact I |].
    unfold plain. rewrite forallb_forall in *. intros c Hc.
    apply pixel_char_plain, Hv, Hc.
Qed.

(** C8. An offset given as the text of its object literal, written with
    single quotes in place of double quotes, reads as the offset object
    itself: the calculator computes the same extra offsets and the same
    result for the string and for the object. *)
Theorem single_quoted_offset_reads_as_object
    (m : offset_map)
    (win : Window) (target node : DOMRect) (desiredPlace : place) :
  well_formed m ->
  JSON_parse (replace_quotes (encode m)) = Ok (structured m)
  /\ calculateOffset (VStr (encode m)) = calculateOffset (structured m)
  /\ getTooltipPosition win target node desiredPlace (VStr (encode m))
     = getTooltipPosition win target node desiredPlace (structured m).
Proof.
  intro H.
  assert (P : JSON_parse (replace_quotes (encode m)) = Ok (structured m))
    by (rewrite (replace_quotes_encode m H); apply JSON_parse_encoded; exact H).
  assert (C : calculateOffset (VStr (encode m)) = calculateOffset (structured m))
    by (unfold calculateOffset; rewrite P; reflexivity).
  split; [exact P |]. split; [exact C |].
  unfold getTooltipPosition. rewrite C. reflexivity.
Qed.

Lemma well_formed_top10_left5 : well_formed offset_top10_left5.
Proof.
  split.
  - repeat constructor; simpl; intuition discriminate.
  - repeat constructor.
Qed.

(** An offset string with a number, a numeric string and a key the
    calculator does not know. *)
Lemma single_quoted_offset_reads_as_object_witness :
  encode offset_top10_left5 = str "{'top': 10, 'left': '-5', 'gap': -3}"
  /\ getTooltipPosition win_1000x600 rect_100x40_centre rect_tip_120x30 Top
                        (VStr (str "{'top': 10, 'left': '-5', 'gap': -3}"))
     = getTooltipPosition win_1000x600 rect_100x40_centre rect_tip_120x30 Top
                          (structured offset_top10_left5).
Proof.
  split; [reflexivity |].
  exact (proj2 (proj2 (single_quoted_offset_reads_as_object
                         offset_top10_left5
                         win_1000x600 rect_100x40_centre rect_tip_120x30 Top
                         well_formed_top10_left5))).
Defined.

(** * Further properties of the calculator *)

(** ** What the call answers *)

Lemma choose_some_inside win mouse table extra desiredPlace p :
  choose win mouse table extra desiredPlace = Some p ->
  inside win mouse table extra p = true.
Proof.
  destruct (inside win mouse table extra desiredPlace) eqn:Hd.
  - rewrite (choose_desired _ _ _ _ _ Hd). intro H. injection H as <-. exact Hd.
  - rewrite (choose_fallback _ _ _ _ _ Hd). intro H.
    apply find_some in H. apply H.
Qed.

Lemma choose_some_iff win mouse table extra desiredPlace :
  (exists p, choose win mouse table extra desiredPlace = Some p)
  <-> (exists p, inside win mouse table extra p = true).
Proof.
  split.
  - intros [p H]. exists p. exact (choose_some_inside _ _ _ _ _ _ H).
  - intros [p Hp].
    destruct (choose win mouse table extra desiredPlace) as [q |] eqn:E;
      [exists q; reflexivity |].
    exfalso.
    destruct (inside win mouse table extra desiredPlace) eqn:Hd.
    + rewrite (choose_desired _ _ _ _ _ Hd) in E. discriminate.
    + rewrite (choose_fallback _ _ _ _ _ Hd) in E.
      rewrite (find_none_all_false _ _ E p (all_places p)) in Hp. discriminate.
Qed.

Lemma calculateOffset_cases (offset : value) :
  (exists extra, calculateOffset offset = Ok extra)
  \/ (calculateOffset offset = Throw SyntaxError
      /\ exists s, offset = VStr s /\ JSON_parse (replace_quotes s) = Throw SyntaxError).
Proof.
  unfold calculateOffset.
  destruct offset as [| | b | n | s | l | m]; try (left; eexists; reflexivity).
  destruct (JSON_parse (replace_quotes s)) as [v | e] eqn:E.
  - left. eexists. reflexivity.
  - right. assert (e = SyntaxError).
    { unfold JSON_parse in E.
      destruct (parse_value _ _) as [[v r] |]; [destruct (skip_ws r) |]; congruence. }
    subst e. split; [reflexivity |]. exists s. split; [reflexivity | exact E].
Qed.

Lemma result_side_inside
    (win : Window) (target node : DOMRect) (desiredPlace : place)
    (offset : value) (extra : ExtraOffset) (res : Placement) :
  calculateOffset offset = Ok extra ->
  getTooltipPosition win target node desiredPlace offset = Ok res ->
  inside win (getCurrentMouseOffset target) (table_of target node) extra (res_place res) = true.
Proof.
  intros Hoff Hres.
  rewrite (getTooltipPosition_unfold win target node desiredPlace offset extra Hoff) in Hres.
  destruct (choose win (getCurrentMouseOffset target) (table_of target node) extra desiredPlace)
    as [p |] eqn:E; [| discriminate].
  injection Hres as <-. exact (choose_some_inside _ _ _ _ _ _ E).
Qed.

(** X1. The side a call returns is inside the viewport: none of the four tests
    of [outside] holds for it. *)
Theorem returned_side_is_inside
    (win : Window) (target node : DOMRect) (desiredPlace : place)
    (offset : value) (extra : ExtraOffset) (res : Placement) :
  calculateOffset offset = Ok extra ->
  getTooltipPosition win target node desiredPlace offset = Ok res ->
  inside win (getCurrentMouseOffset target) (table_of target node) extra (res_place res) = true
  /\ outside win (getCurrentMouseOffset target) (table_of target node) extra (res_place res)
     = false.
Proof.
  intros Hoff Hres.
  pose proof (result_side_inside win target node desiredPlace offset extra res Hoff Hres) as H.
  split; [exact H |]. rewrite inside_outside, H. reflexivity.
Qed.

Lemma returned_side_is_inside_witness :
  inside win_1000x600 (getCurrentMouseOffset rect_100x40_pinned)
         (table_of rect_100x40_pinned rect_tip_120x30) no_offset Bottom = true
  /\ outside win_1000x600 (getCurrentMouseOffset rect_100x40_pinned)
             (table_of rect_100x40_pinned rect_tip_120x30) no_offset Bottom = false.
Proof.
  exact (returned_side_is_inside
           win_1000x600 rect_100x40_pinned rect_tip_120x30 Top (VObj []) no_offset
           {| res_place := Bottom;
              res_position := {| pos_left := of_Z (-10); pos_top := of_Z 46 |} |}
           eq_refl eq_refl).
Defined.

(** X2. The three outcomes of a call.  It returns exactly when the offset is
    read and some side is inside; it throws a [TypeError] exactly when the
    offset is read and no side is inside; it throws a [SyntaxError] exactly
    when the offset is a string that [JSON.parse] rejects. *)
Theorem getTooltipPosition_outcomes
    (win : Window) (target node : DOMRect) (desiredPlace : place) (offset : value) :
  let inside_with extra :=
    inside win (getCurrentMouseOffset target) (table_of target node) extra in
  ((exists res, getTooltipPosition win target node desiredPlace offset = Ok res)
   <-> (exists extra, calculateOffset offset = Ok extra
                      /\ exists p, inside_with extra p = true))
  /\ (getTooltipPosition win target node desiredPlace offset = Throw TypeError
      <-> (exists extra, calculateOffset offset = Ok extra
                         /\ forall p, inside_with extra p = false))
  /\ (getTooltipPosition win target node desiredPlace offset = Throw SyntaxError
      <-> (exists s, offset = VStr s
                     /\ JSON_parse (replace_quotes s) = Throw SyntaxError)).
Proof.
  intro inside_with. subst inside_with.
  destruct (calculateOffset_cases offset) as [[extra Hoff] | [Hoff [s [Hs Hp]]]].
  - rewrite (getTooltipPosition_unfold win target node desiredPlace offset extra Hoff).
    pose proof (choose_some_iff win (getCurrentMouseOffset target) (table_of target node)
                                extra desiredPlace) as Hc.
    destruct (choose win (getCurrentMouseOffset target) (table_of target node) extra desiredPlace)
      as [p |] eqn:E.
    + assert (Hin : exists p, inside win (getCurrentMouseOffset target)
                                     (table_of target node) extra p = true)
        by (apply Hc; exists p; reflexivity).
      split; [| split].
      * split; [intros _; exists extra; split; [exact Hoff | exact Hin]
               | intros _; eexists; reflexivity].
      * split; [discriminate |].
        intros [extra' [Hoff' Hnone]]. rewrite Hoff in Hoff'. injection Hoff' as <-.
        destruct Hin as [q Hq]. rewrite Hnone in Hq. discriminate.
      * split; [discriminate |].
        intros [s [-> Hp]]. unfold calculateOffset in Hoff. rewrite Hp in Hoff.
        discriminate.
    + assert (Hnone : forall p, inside win (getCurrentMouseOffset target)
                                       (table_of target node) extra p = false).
      { intro p. destruct (inside _ _ _ _ p) eqn:Hp; [| reflexivity].
        assert (exists q : place, @None place = Some q) as [q Hq]
            by (apply Hc; exists p; exact Hp).
        discriminate. }
      split; [| split].
      * split; [intros [res H]; discriminate |].
        intros [extra' [Hoff' [p Hp]]]. rewrite Hoff in Hoff'. injection Hoff' as <-.
        rewrite Hnone in Hp. discriminate.
      * split; [intros _; exists extra; split; [exact Hoff | exact Hnone]
               | reflexivity].
      * split; [discriminate |].
        intros [s [-> Hp]]. unfold calculateOffset in Hoff. rewrite Hp in Hoff.
        discriminate.
  - rewrite (getTooltipPosition_offset_error win target node desiredPlace offset _ Hoff).
    split; [| split].
    + split; [intros [res H]; discriminate |].
      intros [extra [Hoff' _]]. rewrite Hoff in Hoff'. discriminate.
    + split; [discriminate |].
      intros [extra [Hoff' _]]. rewrite Hoff in Hoff'. discriminate.
    + split; [intros _; exists s; split; assumption | reflexivity].
Qed.

(** The position of a result, from its side. *)
Lemma result_position
    (win : Window) (target node : DOMRect) (desiredPlace : place)
    (offset : value) (extra : ExtraOffset) (res : Placement) :
  calculateOffset offset = Ok extra ->
  getTooltipPosition win target node desiredPlace offset = Ok res ->
  res_position res
  = {| pos_left :=
         parseInt_number
           (getTipOffsetLeft (getCurrentMouseOffset target) (table_of target node) extra
                             (res_place res) - Num (rect_left target));
       pos_top :=
         parseInt_number
           (getTipOffsetTop (getCurrentMouseOffset target) (table_of target node) extra
                            (res_place res) - Num (rect_top target)) |}.
Proof.
  intros Hoff Hres.
  rewrite (getTooltipPosition_unfold win target node desiredPlace offset extra Hoff) in Hres.
  destruct (choose win (getCurrentMouseOffset target) (table_of target node) extra desiredPlace)
    as [q |]; [| discriminate].
  injection Hres as <-. reflexivity.
Qed.

(** X3. When the desired side is outside, the answer does not depend on which
    side was desired. *)
Theorem fallback_ignores_desired_side
    (win : Window) (target node : DOMRect) (d1 d2 : place)
    (offset : value) (extra : ExtraOffset) :
  let inside_p := inside win (getCurrentMouseOffset target) (table_of target node) extra in
  calculateOffset offset = Ok extra ->
  inside_p d1 = false -> inside_p d2 = false ->
  getTooltipPosition win target node d1 offset
  = getTooltipPosition win target node d2 offset.
Proof.
  intros inside_p Hoff H1 H2. subst inside_p.
  rewrite !(getTooltipPosition_unfold win target node _ offset extra Hoff).
  rewrite (choose_fallback _ _ _ _ _ H1), (choose_fallback _ _ _ _ _ H2). reflexivity.
Qed.

Lemma fallback_ignores_desired_side_witness :
  getTooltipPosition win_1000x600 rect_100x40_corner rect_tip_120x30 Top (VObj [])
  = getTooltipPosition win_1000x600 rect_100x40_corner rect_tip_120x30 Left (VObj []).
Proof.
  exact (fallback_ignores_desired_side
           win_1000x600 rect_100x40_corner rect_tip_120x30 Top Left (VObj []) no_offset
           eq_refl eq_refl eq_refl).
Defined.

(** ** A larger window *)

Lemma gt_window_mono (a : number) (w w' : Z) :
  (w <= w')%Z -> (a >? of_Z w') = true -> (a >? of_Z w) = true.
Proof.
  intros Hw. destruct a as [| x]; [discriminate |].
  unfold of_Z. rewrite !gt_Num. intro H.
  apply (Qle_lt_trans _ (inject_Z w')); [| exact H].
  rewrite <- Zle_Qle. exact Hw.
Qed.

Lemma inside_window_mono (win win' : Window) mouse table extra p :
  (innerWidth win <= innerWidth win')%Z ->
  (innerHeight win <= innerHeight win')%Z ->
  inside win mouse table extra p = true ->
  inside win' mouse table extra p = true.
Proof.
  intros Hw Hh. unfold inside, outside. rewrite !negb_true_iff, !orb_false_iff.
  intros [[[H1 H2] H3] H4]. repeat split; try assumption.
  - destruct (getTipOffsetRight mouse table extra p >? of_Z (innerWidth win')) eqn:E;
      [| reflexivity].
    rewrite (gt_window_mono _ _ _ Hw E) in H2. discriminate.
  - destruct (getTipOffsetBottom mouse table extra p >? of_Z (innerHeight win')) eqn:E;
      [| reflexivity].
    rewrite (gt_window_mono _ _ _ Hh E) in H4. discriminate.
Qed.

(** X4. A side that is inside stays inside in every window at least as wide and
    as high; a call that returns the desired side returns the same result
    there. *)
Theorem larger_window_keeps_desired_side
    (win win' : Window) (target node : DOMRect) (desiredPlace : place)
    (offset : value) (res : Placement) :
  (innerWidth win <= innerWidth win')%Z ->
  (innerHeight win <= innerHeight win')%Z ->
  getTooltipPosition win target node desiredPlace offset = Ok res ->
  res_place res = desiredPlace ->
  getTooltipPosition win' target node desiredPlace offset = Ok res.
Proof.
  intros Hw Hh Hres Hp.
  destruct (calculateOffset_cases offset) as [[extra Hoff] | [Hoff _]];
    [| rewrite (getTooltipPosition_offset_error _ _ _ _ _ _ Hoff) in Hres; discriminate].
  pose proof (result_side_inside win target node desiredPlace offset extra res Hoff Hres)
    as Hin.
  rewrite Hp in Hin.
  pose proof (inside_window_mono win win' _ _ _ _ Hw Hh Hin) as Hin'.
  rewrite (getTooltipPosition_unfold win target node desiredPlace offset extra Hoff) in Hres.
  rewrite (getTooltipPosition_unfold win' target node desiredPlace offset extra Hoff).
  rewrite (choose_desired _ _ _ _ _ Hin) in Hres.
  rewrite (choose_desired _ _ _ _ _ Hin'). exact Hres.
Qed.

Lemma larger_window_keeps_desired_side_witness :
  getTooltipPosition win_2000x1200 rect_100x40_centre rect_tip_120x30 Top (VObj [])
  = Ok {| res_place := Top;
          res_position := {| pos_left := of_Z (-10); pos_top := of_Z (-36) |} |}.
Proof.
  apply (larger_window_keeps_desired_side
           win_1000x600 win_2000x1200 rect_100x40_centre rect_tip_120x30 Top (VObj [])).
  - discriminate.
  - discriminate.
  - reflexivity.
  - reflexivity.
Defined.

(** ** Offsets that are not numbers *)

Lemma num_eq_NaN (a : number) : a =n= NaN -> a = NaN.
Proof. destruct a; simpl; [reflexivity | contradiction]. Qed.

Lemma add_NaN_r (a : number) : a + NaN = NaN.
Proof. destruct a; reflexivity. Qed.

(** X5. In an offset object one value under top or bottom that [parseInt] does
    not read makes the vertical offset [NaN], whatever the other entries;
    likewise under left or right for the horizontal offset. *)
Theorem unreadable_offset_value_gives_NaN
    (m : list (jsstring * value)) (k : jsstring) (v : value) :
  In (k, v) m -> parseInt v = NaN ->
  ((k = str "top" \/ k = str "bottom") -> extraOffsetY (extra_of m) = NaN)
  /\ ((k = str "left" \/ k = str "right") -> extraOffsetX (extra_of m) = NaN).
Proof.
  intros Hin Hv. apply in_split in Hin. destruct Hin as [m1 [m2 ->]].
  split; intro Hk.
  - assert (Hr : recognized (k, v) = true) by (destruct Hk as [-> | ->]; reflexivity).
    destruct (extra_of_insert m1 m2 (k, v) Hr) as [_ Hy].
    assert (Hd : dy (k, v) = NaN)
      by (destruct Hk as [-> | ->]; unfold dy; simpl; rewrite Hv; reflexivity).
    rewrite Hd, add_NaN_r in Hy. apply num_eq_NaN. exact Hy.
  - assert (Hr : recognized (k, v) = true) by (destruct Hk as [-> | ->]; reflexivity).
    destruct (extra_of_insert m1 m2 (k, v) Hr) as [Hx _].
    assert (Hd : dx (k, v) = NaN)
      by (destruct Hk as [-> | ->]; unfold dx; simpl; rewrite Hv; reflexivity).
    rewrite Hd, add_NaN_r in Hx. apply num_eq_NaN. exact Hx.
Qed.

Lemma unreadable_offset_value_gives_NaN_witness :
  extraOffsetY (extra_of [(str "bottom", VNum (Num 4)); (str "top", VStr (str "auto"))]) = NaN.
Proof.
  apply (unreadable_offset_value_gives_NaN
           [(str "bottom", VNum (Num 4)); (str "top", VStr (str "auto"))]
           (str "top") (VStr (str "auto"))).
  - right. left. reflexivity.
  - reflexivity.
  - left. reflexivity.
Defined.

Lemma lt_add_NaN (a b c : number) : (a + b + NaN <? c) = false.
Proof. rewrite add_NaN_r. reflexivity. Qed.

Lemma gt_add_NaN (a b c : number) : (a + b + NaN >? c) = false.
Proof. rewrite add_NaN_r. unfold gt. apply lt_NaN_r. Qed.

(** X6. With both extra offsets [NaN] no overflow is seen: every call returns
    the desired side, at a position that is [NaN] on both axes. *)
Theorem NaN_offsets_return_desired_side
    (win : Window) (target node : DOMRect) (desiredPlace : place)
    (offset : value) (extra : ExtraOffset) :
  calculateOffset offset = Ok extra ->
  extraOffsetX extra = NaN -> extraOffsetY extra = NaN ->
  getTooltipPosition win target node desiredPlace offset
  = Ok {| res_place := desiredPlace;
          res_position := {| pos_left := NaN; pos_top := NaN |} |}.
Proof.
  intros Hoff Hx Hy.
  rewrite (getTooltipPosition_unfold win target node desiredPlace offset extra Hoff).
  assert (Hin : inside win (getCurrentMouseOffset target) (table_of target node) extra
                       desiredPlace = true).
  { unfold inside, outside, getTipOffsetLeft, getTipOffsetRight, getTipOffsetTop,
      getTipOffsetBottom.
    rewrite Hx, Hy, !lt_add_NaN, !gt_add_NaN. reflexivity. }
  rewrite (choose_desired _ _ _ _ _ Hin).
  unfold getTipOffsetLeft, getTipOffsetTop. rewrite Hx, Hy, !add_NaN_r. reflexivity.
Qed.

Lemma NaN_offsets_return_desired_side_witness :
  getTooltipPosition win_320x200 rect_100x40_small_window rect_tip_300x180 Left
    (VObj [(str "top", VStr (str "auto")); (str "left", VNull)])
  = Ok {| res_place := Left;
          res_position := {| pos_left := NaN; pos_top := NaN |} |}.
Proof.
  apply (NaN_offsets_return_desired_side
           win_320x200 rect_100x40_small_window rect_tip_300x180 Left
           (VObj [(str "top", VStr (str "auto")); (str "left", VNull)])
           (extra_of [(str "top", VStr (str "auto")); (str "left", VNull)]));
    reflexivity.
Defined.

(** X7. With the vertical extra offset [NaN] alone, a side is outside exactly
    when it overflows horizontally, and the returned top is [NaN]. *)
Theorem NaN_vertical_offset_hides_vertical_overflow
    (win : Window) (target node : DOMRect) (desiredPlace : place)
    (offset : value) (extra : ExtraOffset) :
  let mouse := getCurrentMouseOffset target in
  let table := table_of target node in
  calculateOffset offset = Ok extra ->
  extraOffsetY extra = NaN ->
  (forall p, outside win mouse table extra p
             = (getTipOffsetLeft mouse table extra p <? Num 0)
               || (getTipOffsetRight mouse table extra p >? of_Z (innerWidth win)))
  /\ (forall res, getTooltipPosition win target node desiredPlace offset = Ok res ->
                  pos_top (res_position res) = NaN).
Proof.
  intros mouse table Hoff Hy. split.
  - intro p. unfold outside, getTipOffsetTop, getTipOffsetBottom.
    rewrite Hy, lt_add_NaN, gt_add_NaN, !orb_false_r. reflexivity.
  - intros res Hres.
    rewrite (result_position win target node desiredPlace offset extra res Hoff Hres).
    unfold getTipOffsetTop. rewrite Hy, add_NaN_r. reflexivity.
Qed.

Lemma NaN_vertical_offset_hides_vertical_overflow_witness :
  getTooltipPosition win_1000x600 rect_100x40_pinned rect_tip_120x30 Top
                     (VObj [(str "top", VStr (str "auto"))])
  = Ok {| res_place := Top;
          res_position := {| pos_left := of_Z (-10); pos_top := NaN |} |}
  /\ pos_top {| pos_left := of_Z (-10); pos_top := NaN |} = NaN.
Proof.
  split; [reflexivity |].
  exact (proj2 (NaN_vertical_offset_hides_vertical_overflow
                  win_1000x600 rect_100x40_pinned rect_tip_120x30 Top
                  (VObj [(str "top", VStr (str "auto"))])
                  (extra_of [(str "top", VStr (str "auto"))]) eq_refl eq_refl)
               {| res_place := Top;
                  res_position := {| pos_left := of_Z (-10); pos_top := NaN |} |}
               eq_refl).
Defined.

(** ** Truncation of equal rationals *)

Lemma Qtrunc_comp (q q' : Q) : (q == q')%Q -> Qtrunc q = Qtrunc q'.
Proof.
  intro H. destruct (Qlt_le_dec q 0) as [Hn | Hp].
  - rewrite (Qtrunc_nonpos q), (Qtrunc_nonpos q'); try lra.
    rewrite H. reflexivity.
  - rewrite (Qtrunc_nonneg q), (Qtrunc_nonneg q'); try lra.
    rewrite H. reflexivity.
Qed.

Lemma Qtrunc_whole (q : Q) (z : Z) : (q == inject_Z z)%Q -> Qtrunc q = z.
Proof. intro H. rewrite (Qtrunc_comp _ _ H). apply Qtrunc_inject_Z. Qed.

(** * Further properties of the offsets *)

(** ** Offsets that are no objects *)

Lemma forallb_digit_not_recognized (k : jsstring) (v : value) :
  forallb is_digit k = true -> recognized (k, v) = false.
Proof.
  intro H. destruct (recognized (k, v)) eqn:E; [| reflexivity].
  unfold recognized in E. simpl fst in E.
  repeat (apply orb_true_iff in E; destruct E as [E | E]);
    apply jsstring_eqb_eq in E; subst k; discriminate.
Qed.

Lemma indexed_not_recognized (l : list value) (i : nat) :
  forall kv, In kv (indexed i l) -> recognized kv = false.
Proof.
  revert i. induction l as [| x l IH]; intros i kv H; simpl in H; [contradiction |].
  destruct H as [<- | H].
  - apply forallb_digit_not_recognized. apply uint_chars_digits.
  - exact (IH _ _ H).
Qed.

Lemma fold_offset_nothing (l : list (jsstring * value)) (acc : ExtraOffset) :
  (forall kv, In kv l -> recognized kv = false) ->
  fold_left offset_step l acc = acc.
Proof.
  intro H. rewrite fold_offset_filter, (filter_none recognized l H). reflexivity.
Qed.

Lemma offsets_of_non_object (v : value) :
  is_object v = false -> fold_left offset_step (for_in v) no_offset = no_offset.
Proof.
  destruct v as [| | b | n | s | l | m]; intro H; try reflexivity; try discriminate.
  - apply fold_offset_nothing. apply indexed_not_recognized.
  - apply fold_offset_nothing. apply indexed_not_recognized.
Qed.

(** X13. An offset that is no object gives no offset and no error: so a number,
    a boolean, [null], [undefined] or an array given as the offset, and so
    an offset string whose text is JSON for anything but an object. *)
Theorem non_object_offset_is_no_offset (offset : value) :
  (is_object offset = false -> is_string offset = false ->
   calculateOffset offset = Ok no_offset)
  /\ (forall s v, offset = VStr s ->
                  JSON_parse (replace_quotes s) = Ok v -> is_object v = false ->
                  calculateOffset offset = Ok no_offset).
Proof.
  split.
  - intros Ho Hs. unfold calculateOffset.
    destruct offset as [| | b | n | s | l | m]; try discriminate; cbn [bind];
      f_equal; apply offsets_of_non_object; reflexivity.
  - intros s v -> Hp Hv. unfold calculateOffset. rewrite Hp. cbn [bind].
    f_equal. apply offsets_of_non_object. exact Hv.
Qed.

Lemma non_object_offset_is_no_offset_witness :
  calculateOffset (VArr [VNum (Num 10); VNum (Num 20)]) = Ok no_offset
  /\ calculateOffset (VStr (str "['top', 10]")) = Ok no_offset.
Proof.
  split.
  - apply (proj1 (non_object_offset_is_no_offset (VArr [VNum (Num 10); VNum (Num 20)])));
      reflexivity.
  - apply (proj2 (non_object_offset_is_no_offset (VStr (str "['top', 10]")))
                 (str "['top', 10]") (VArr [VStr (str "top"); VNum (Num 10)]));
      reflexivity.
Defined.

(** ** The order of the keys *)

Lemma add_comm_n (a b : number) : a + b =n= b + a.
Proof. num_cases. Qed.

Lemma total_perm f (l l' : list (jsstring * value)) :
  Permutation l l' -> total f l =n= total f l'.
Proof.
  induction 1 as [| x l l' _ IH | x y l | l l' l'' _ IH1 _ IH2]; simpl.
  - apply (num_eq_refl (Num 0)).
  - apply add_compat; [apply num_eq_refl | exact IH].
  - generalize (f x), (f y), (total f l). intros a b c. num_cases.
  - exact (num_eq_trans _ _ _ IH1 IH2).
Qed.

Lemma filter_perm {A} (f : A -> bool) (l l' : list A) :
  Permutation l l' -> Permutation (filter f l) (filter f l').
Proof.
  induction 1 as [| x l l' _ IH | x y l | l l' l'' _ IH1 _ IH2]; simpl.
  - constructor.
  - destruct (f x); [constructor |]; exact IH.
  - destruct (f x), (f y); try apply Permutation_refl. constructor.
  - exact (Permutation_trans IH1 IH2).
Qed.

Lemma extra_of_total (m : list (jsstring * value)) :
  extraOffsetX (extra_of m) =n= total dx (filter recognized m)
  /\ extraOffsetY (extra_of m) =n= total dy (filter recognized m).
Proof.
  rewrite extra_of_filter.
  destruct (fold_offset_total (filter recognized m) no_offset) as [Hx Hy].
  simpl extraOffsetX in Hx. simpl extraOffsetY in Hy.
  split.
  - apply (num_eq_trans _ _ _ Hx).
    generalize (total dx (filter recognized m)). intro a. num_cases.
  - apply (num_eq_trans _ _ _ Hy).
    generalize (total dy (filter recognized m)). intro a. num_cases.
Qed.

(** X14. The extra offsets do not depend on the order in which the entries of
    the offset object are given. *)
Theorem offsets_ignore_the_order_of_the_keys (m m' : list (jsstring * value)) :
  Permutation m m' ->
  extraOffsetX (extra_of m) =n= extraOffsetX (extra_of m')
  /\ extraOffsetY (extra_of m) =n= extraOffsetY (extra_of m').
Proof.
  intro H. apply (filter_perm recognized) in H.
  destruct (extra_of_total m) as [Hx Hy]. destruct (extra_of_total m') as [Hx' Hy'].
  split.
  - apply (num_eq_trans _ _ _ Hx). apply (num_eq_trans _ (total dx (filter recognized m'))).
    + apply total_perm. exact H.
    + apply num_eq_sym. exact Hx'.
  - apply (num_eq_trans _ _ _ Hy). apply (num_eq_trans _ (total dy (filter recognized m'))).
    + apply total_perm. exact H.
    + apply num_eq_sym. exact Hy'.
Qed.

Lemma offsets_ignore_the_order_of_the_keys_witness :
  extraOffsetX (extra_of [(str "top", VNum (Num 3)); (str "left", VNum (Num 4))])
  =n= extraOffsetX (extra_of [(str "left", VNum (Num 4)); (str "top", VNum (Num 3))])
  /\ extraOffsetY (extra_of [(str "top", VNum (Num 3)); (str "left", VNum (Num 4))])
     =n= extraOffsetY (extra_of [(str "left", VNum (Num 4)); (str "top", VNum (Num 3))]).
Proof.
  apply (offsets_ignore_the_order_of_the_keys
           [(str "top", VNum (Num 3)); (str "left", VNum (Num 4))]
           [(str "left", VNum (Num 4)); (str "top", VNum (Num 3))]).
  apply perm_swap.
Defined.

(** ** The offsets in closed form *)

Lemma offset_at_absent (m : list (jsstring * value)) (k : jsstring) :
  ~ In k (List.map fst m) -> offset_at m k = Num 0.
Proof.
  intro H. unfold offset_at.
  destruct (find (fun kv => jsstring_eqb (fst kv) k) m) as [kv |] eqn:E; [| reflexivity].
  exfalso. apply find_some in E. destruct E as [Hin He].
  apply jsstring_eqb_eq in He. apply H. rewrite <- He. apply in_map. exact Hin.
Qed.

Lemma offset_at_cons (k' : jsstring) (v : value) (m : list (jsstring * value))
    (k : jsstring) :
  offset_at ((k', v) :: m) k
  = if jsstring_eqb k' k then parseInt v else offset_at m k.
Proof. unfold offset_at. simpl. destruct (jsstring_eqb k' k); reflexivity. Qed.

Lemma jsstring_eqb_neq (a b : jsstring) : a <> b -> jsstring_eqb a b = false.
Proof.
  intro H. destruct (jsstring_eqb a b) eqn:E; [| reflexivity].
  apply jsstring_eqb_eq in E. contradiction.
Qed.

Lemma total_closed_form (m : list (jsstring * value)) :
  NoDup (List.map fst m) ->
  total dx m =n= offset_at m (str "right") - offset_at m (str "left")
  /\ total dy m =n= offset_at m (str "bottom") - offset_at m (str "top").
Proof.
  induction m as [| [k v] m IH]; intro Hn.
  - split; simpl; reflexivity.
  - simpl in Hn. apply NoDup_cons_iff in Hn. destruct Hn as [Hk Hn].
    destruct (IH Hn) as [IHx IHy]. clear IH.
    rewrite !offset_at_cons. cbn [total fold_right]. fold (total dx m) (total dy m).
    revert IHx IHy. generalize (total dx m), (total dy m). intros tx ty IHx IHy.
    unfold dx, dy. cbn [fst snd]. generalize (parseInt v). intro n.
    destruct (jsstring_eqb k (str "top")) eqn:Et.
    { apply jsstring_eqb_eq in Et. subst k.
      rewrite (offset_at_absent m _ Hk) in *.
      change (jsstring_eqb (str "top") (str "right")) with false.
      change (jsstring_eqb (str "top") (str "left")) with false.
      change (jsstring_eqb (str "top") (str "bottom")) with false.
      cbv iota. revert IHx IHy.
      generalize (offset_at m (str "right")), (offset_at m (str "left")),
        (offset_at m (str "bottom")). intros. split; num_cases. }
    destruct (jsstring_eqb k (str "bottom")) eqn:Eb.
    { apply jsstring_eqb_eq in Eb. subst k.
      rewrite (offset_at_absent m _ Hk) in *.
      change (jsstring_eqb (str "bottom") (str "right")) with false.
      change (jsstring_eqb (str "bottom") (str "left")) with false.
      cbv iota. revert IHx IHy.
      generalize (offset_at m (str "right")), (offset_at m (str "left")),
        (offset_at m (str "top")). intros. split; num_cases. }
    destruct (jsstring_eqb k (str "left")) eqn:El.
    { apply jsstring_eqb_eq in El. subst k.
      rewrite (offset_at_absent m _ Hk) in *.
      change (jsstring_eqb (str "left") (str "right")) with false.
      cbv iota. revert IHx IHy.
      generalize (offset_at m (str "right")), (offset_at m (str "bottom")),
        (offset_at m (str "top")). intros. split; num_cases. }
    destruct (jsstring_eqb k (str "right")) eqn:Er.
    { apply jsstring_eqb_eq in Er. subst k.
      rewrite (offset_at_absent m _ Hk) in *.
      revert IHx IHy.
      generalize (offset_at m (str "left")), (offset_at m (str "bottom")),
        (offset_at m (str "top")). intros. split; num_cases. }
    revert IHx IHy.
    generalize (offset_at m (str "right")), (offset_at m (str "left")),
      (offset_at m (str "bottom")), (offset_at m (str "top")).
    intros. split; num_cases.
Qed.

Lemma offset_at_filter (m : list (jsstring * value)) (k : jsstring) :
  recognized (k, VNull) = true ->
  offset_at (filter recognized m) k = offset_at m k.
Proof.
  intro Hk. induction m as [| [k' v] m IH]; [reflexivity |].
  simpl filter. destruct (recognized (k', v)) eqn:E.
  - rewrite !offset_at_cons, IH. reflexivity.
  - rewrite offset_at_cons, IH.
    rewrite jsstring_eqb_neq; [reflexivity |].
    intros ->. unfold recognized in *. simpl fst in *. congruence.
Qed.

Lemma NoDup_map_filter {A B} (g : A -> B) (f : A -> bool) (l : list A) :
  NoDup (List.map g l) -> NoDup (List.map g (filter f l)).
Proof.
  induction l as [| a l IH]; simpl; intro H; [constructor |].
  apply NoDup_cons_iff in H. destruct H as [Ha Hl].
  destruct (f a); simpl; [| exact (IH Hl)].
  constructor; [| exact (IH Hl)].
  intro G. apply Ha. apply in_map_iff in G. destruct G as [x [Hx Hin]].
  apply in_map_iff. exists x. split; [exact Hx |]. apply filter_In in Hin. apply Hin.
Qed.

(** X15. For an offset object (its keys are distinct) the horizontal extra offset
    is the value under right minus the value under left and the vertical
    one the value under bottom minus the value under top, each value read by
    [parseInt] and 0 where the key is missing. *)
Theorem offsets_in_closed_form (m : list (jsstring * value)) :
  NoDup (List.map fst m) ->
  extraOffsetX (extra_of m) =n= offset_at m (str "right") - offset_at m (str "left")
  /\ extraOffsetY (extra_of m) =n= offset_at m (str "bottom") - offset_at m (str "top").
Proof.
  intro Hn. destruct (extra_of_total m) as [Hx Hy].
  destruct (total_closed_form (filter recognized m) (NoDup_map_filter fst recognized m Hn))
    as [Cx Cy].
  rewrite !offset_at_filter in Cx, Cy by reflexivity.
  split; [exact (num_eq_trans _ _ _ Hx Cx) | exact (num_eq_trans _ _ _ Hy Cy)].
Qed.

Lemma offsets_in_closed_form_witness :
  extraOffsetX (extra_of [(str "top", VNum (Num 3)); (str "gap", VNull);
                          (str "right", VStr (str "8px"))])
  =n= of_Z 8 - Num 0
  /\ extraOffsetY (extra_of [(str "top", VNum (Num 3)); (str "gap", VNull);
                             (str "right", VStr (str "8px"))])
     =n= Num 0 - of_Z 3.
Proof.
  apply (offsets_in_closed_form
           [(str "top", VNum (Num 3)); (str "gap", VNull); (str "right", VStr (str "8px"))]).
  repeat constructor; simpl; intuition discriminate.
Defined.

(** ** Values with a unit *)

Lemma digit_not_white_space (c : N) :
  is_digit c = true -> is_StrWhiteSpaceChar c = false.
Proof.
  intro H. apply is_digit_range in H. unfold is_StrWhiteSpaceChar.
  replace (c <=? 13)%N with false by (symmetry; apply N.leb_gt; lia).
  replace (8192 <=? c)%N with false by (symmetry; apply N.leb_gt; lia).
  repeat match goal with
         | |- context [(c =? ?k)%N] => rewrite (eqb_false c k) by lia
         end.
  rewrite !andb_false_r. reflexivity.
Qed.

Lemma parseInt_string_digits (sign : Z) (c : N) (cs suffix : jsstring) :
  forallb is_digit (c :: cs) = true ->
  no_digit_ahead suffix ->
  parseInt_string ((c :: cs) ++ suffix) = of_Z (1 * digits_value (c :: cs))
  /\ parseInt_string (chr "-" :: (c :: cs) ++ suffix) = of_Z (-1 * digits_value (c :: cs)).
Proof.
  intros Hd Hs.
  assert (Hc : is_digit c = true) by (simpl in Hd; apply andb_true_iff in Hd; apply Hd).
  pose proof (digit_not_white_space c Hc) as Hw.
  pose proof (span_digits_all _ _ Hd Hs) as Hsp.
  apply is_digit_range in Hc.
  split.
  - unfold parseInt_string. change ((c :: cs) ++ suffix) with (c :: (cs ++ suffix)).
    cbn [trim_start]. rewrite Hw.
    rewrite (eqb_false c (chr "-")) by (change (chr "-") with 45%N; lia).
    rewrite (eqb_false c (chr "+")) by (change (chr "+") with 43%N; lia).
    change (c :: (cs ++ suffix)) with ((c :: cs) ++ suffix). rewrite Hsp. reflexivity.
  - unfold parseInt_string. cbn [trim_start].
    change (is_StrWhiteSpaceChar (chr "-")) with false. cbv iota.
    change (chr "-" =? chr "-")%N with true. cbv iota.
    rewrite Hsp. reflexivity.
Qed.

Lemma parseInt_unit_string (z : Z) (suffix : jsstring) :
  no_digit_ahead suffix ->
  parseInt (VStr (encode_Z z ++ suffix)) = of_Z z.
Proof.
  intro Hs. destruct (encode_Z_shape z) as [c [cs [Hd [_ [Hv He]]]]].
  destruct (parseInt_string_digits 1 c cs suffix Hd Hs) as [Hp Hm].
  rewrite He. cbn [parseInt]. destruct (z <? 0)%Z eqn:S.
  - change (([chr "-"] ++ c :: cs) ++ suffix) with (chr "-" :: (c :: cs) ++ suffix).
    rewrite Hm, Hv. apply Z.ltb_lt in S. f_equal. lia.
  - change (([] ++ c :: cs) ++ suffix) with ((c :: cs) ++ suffix).
    rewrite Hp, Hv. apply Z.ltb_ge in S. f_equal. lia.
Qed.

Lemma offset_step_same_parseInt (acc : ExtraOffset) (k : jsstring) (v v' : value) :
  parseInt v = parseInt v' -> offset_step acc (k, v) = offset_step acc (k, v').
Proof. intro H. unfold offset_step. rewrite H. reflexivity. Qed.

Lemma extra_of_same_parseInt (m1 m2 : list (jsstring * value)) (k : jsstring)
    (v v' : value) :
  parseInt v = parseInt v' ->
  extra_of (m1 ++ (k, v) :: m2) = extra_of (m1 ++ (k, v') :: m2).
Proof.
  intro H. rewrite !extra_of_filter, !filter_app. cbn [filter].
  change (recognized (k, v')) with (recognized (k, v)).
  destruct (recognized (k, v)); [| reflexivity].
  rewrite !fold_left_app. cbn [fold_left].
  rewrite (offset_step_same_parseInt _ k v v' H). reflexivity.
Qed.

(** X16. In an offset object the text of a whole number of at most 2^53 in
    size followed by a unit, or by anything that does not start with a
    digit, counts as that number: [parseInt] stops at the first character
    that is no digit.  (Beyond 2^53 not every whole number is a double.) *)
Theorem offset_value_with_unit
    (m1 m2 : list (jsstring * value)) (k : jsstring) (z : Z) (suffix : jsstring) :
  (Z.abs z <= 2 ^ 53)%Z ->
  no_digit_ahead suffix ->
  parseInt (VStr (encode_Z z ++ suffix)) = of_Z z
  /\ parseInt (VNum (of_Z z)) = of_Z z
  /\ calculateOffset (VObj (m1 ++ (k, VStr (encode_Z z ++ suffix)) :: m2))
     = calculateOffset (VObj (m1 ++ (k, VNum (of_Z z)) :: m2)).
Proof.
  intros Hz Hs. pose proof (parseInt_unit_string z suffix Hs) as H.
  assert (N : parseInt (VNum (of_Z z)) = of_Z z)
    by (cbn [parseInt]; apply parseInt_number_of_Z; lia).
  split; [exact H |]. split; [exact N |].
  rewrite !calculateOffset_object. f_equal. apply extra_of_same_parseInt.
  rewrite H, N. reflexivity.
Qed.

Lemma offset_value_with_unit_witness :
  parseInt (VStr (str "-12px")) = of_Z (-12)
  /\ parseInt (VNum (of_Z (-12))) = of_Z (-12)
  /\ calculateOffset (VObj [(str "left", VStr (str "-12px"))])
     = calculateOffset (VObj [(str "left", VNum (of_Z (-12)))]).
Proof.
  apply (offset_value_with_unit [] [] (str "left") (-12) (str "px")).
  - discriminate.
  - reflexivity.
Defined.

(** ** Offset strings *)

Lemma skip_ws_replace_quotes (s : jsstring) :
  skip_ws (replace_quotes s) = replace_quotes (skip_ws s).
Proof.
  induction s as [| c s IH]; [reflexivity |].
  rewrite replace_quotes_cons. cbn [skip_ws].
  destruct (c =? squote)%N eqn:E.
  - apply N.eqb_eq in E. subst c. reflexivity.
  - destruct (is_json_ws c); [exact IH |].
    rewrite replace_quotes_cons, E. reflexivity.
Qed.

(** X17. An offset string that opens an object and goes on with anything but a
    quote or the closing brace is rejected: the keys of an offset string
    must be between quotes. *)
Theorem unquoted_key_is_rejected
    (s r : jsstring) (c : N) (r' : jsstring)
    (win : Window) (target node : DOMRect) (desiredPlace : place) :
  skip_ws s = chr "{" :: r ->
  skip_ws r = c :: r' ->
  c <> squote -> c <> dquote -> c <> chr "}" ->
  calculateOffset (VStr s) = Throw SyntaxError
  /\ getTooltipPosition win target node desiredPlace (VStr s) = Throw SyntaxError.
Proof.
  intros H1 H2 Hs Hd Hb.
  assert (P : JSON_parse (replace_quotes s) = Throw SyntaxError).
  { unfold JSON_parse.
    replace (2 * List.length (replace_quotes s) + 2)%nat
      with (S (S (2 * List.length (replace_quotes s)))) by lia.
    cbn [parse_value]. unfold value_step.
    rewrite skip_ws_replace_quotes, H1, replace_quotes_cons.
    change (chr "{" =? squote)%N with false. cbv iota.
    change (chr "{" =? chr "{")%N with true. cbv iota.
    rewrite skip_ws_replace_quotes, H2, replace_quotes_cons.
    rewrite (eqb_false c squote Hs). rewrite (eqb_false c (chr "}") Hb).
    cbn [parse_members]. unfold members_step.
    rewrite skip_ws_replace_quotes, H2, replace_quotes_cons.
    rewrite (eqb_false c squote Hs). rewrite (eqb_false c dquote Hd). reflexivity. }
  assert (C : calculateOffset (VStr s) = Throw SyntaxError)
    by (unfold calculateOffset; rewrite P; reflexivity).
  split; [exact C |]. apply getTooltipPosition_offset_error. exact C.
Qed.

Lemma unquoted_key_is_rejected_witness :
  calculateOffset (VStr (str " { top: 10, left: 5 }")) = Throw SyntaxError
  /\ getTooltipPosition win_1000x600 rect_100x40_centre rect_tip_120x30 Top
                        (VStr (str " { top: 10, left: 5 }"))
     = Throw SyntaxError.
Proof.
  apply (unquoted_key_is_rejected
           (str " { top: 10, left: 5 }") (str " top: 10, left: 5 }") (chr "t")
           (str "op: 10, left: 5 }"));
    try reflexivity; discriminate.
Defined.

Lemma replace_quotes_value_dquote (v : pixels) :
  plain_value v -> replace_quotes (encode_value dquote v) = encode_value dquote v.
Proof.
  destruct v as [z | s]; simpl; intro H.
  - apply replace_quotes_encode_Z.
  - change (dquote :: s ++ [dquote]) with ([dquote] ++ s ++ [dquote]).
    rewrite !replace_quotes_app, (replace_quotes_plain s H). reflexivity.
Qed.

Lemma replace_quotes_members_dquote (m : offset_map) :
  Forall (fun kv => plain (fst kv) /\ plain_value (snd kv)) m ->
  replace_quotes (encode_members dquote m) = encode_members dquote m.
Proof.
  induction m as [| [k v] m IH]; intro H; [reflexivity |].
  pose proof (Forall_inv H) as [Hk Hv]. simpl in Hk, Hv.
  apply Forall_inv_tail in H. specialize (IH H).
  cbn [encode_members].
  change (dquote :: k ++ dquote :: chr ":" :: chr " " :: encode_value dquote v
            ++ match m with [] => [] | _ :: _ => chr "," :: chr " " :: encode_members dquote m end)
    with ([dquote] ++ k ++ [dquote; chr ":"; chr " "] ++ encode_value dquote v
            ++ match m with [] => [] | _ :: _ => chr "," :: chr " " :: encode_members dquote m end).
  rewrite !replace_quotes_app.
  rewrite (replace_quotes_plain k Hk), (replace_quotes_value_dquote v Hv).
  destruct m as [| kv' m'].
  - reflexivity.
  - change (replace_quotes (chr "," :: chr " " :: encode_members dquote (kv' :: m')))
      with (chr "," :: chr " " :: replace_quotes (encode_members dquote (kv' :: m'))).
    rewrite IH. reflexivity.
Qed.

(** X18. An offset given as the text of its object literal written with double
    quotes, that is as JSON, is read as the offset object too: the
    replacement of the single quotes leaves the text as it is. *)
Theorem double_quoted_offset_reads_as_object
    (m : offset_map)
    (win : Window) (target node : DOMRect) (desiredPlace : place) :
  well_formed m ->
  replace_quotes (encode_with dquote m) = encode_with dquote m
  /\ calculateOffset (VStr (encode_with dquote m)) = calculateOffset (structured m)
  /\ getTooltipPosition win target node desiredPlace (VStr (encode_with dquote m))
     = getTooltipPosition win target node desiredPlace (structured m).
Proof.
  intro H.
  assert (R : replace_quotes (encode_with dquote m) = encode_with dquote m).
  { destruct H as [_ H]. unfold encode_with.
    change (chr "{" :: encode_members dquote m ++ [chr "}"])
      with ([chr "{"] ++ encode_members dquote m ++ [chr "}"]).
    rewrite !replace_quotes_app, (replace_quotes_members_dquote m H). reflexivity. }
  assert (C : calculateOffset (VStr (encode_with dquote m)) = calculateOffset (structured m)).
  { unfold calculateOffset. rewrite R, (JSON_parse_encoded m H). reflexivity. }
  split; [exact R |]. split; [exact C |].
  unfold getTooltipPosition. rewrite C. reflexivity.
Qed.

Lemma double_quoted_offset_reads_as_object_witness :
  calculateOffset (VStr (encode_with dquote offset_top10_left5))
  = calculateOffset (structured offset_top10_left5).
Proof.
  exact (proj1 (proj2 (double_quoted_offset_reads_as_object
                         offset_top10_left5
                         win_1000x600 rect_100x40_centre rect_tip_120x30 Top
                         well_formed_top10_left5))).
Defined.

(** * The component *)

Lemma getTooltipPosition_SyntaxError
    (win : Window) (target node : DOMRect) (desiredPlace : place) (offset : value) :
  getTooltipPosition win target node desiredPlace offset = Throw SyntaxError
  <-> exists s, offset = VStr s /\ JSON_parse (replace_quotes s) = Throw SyntaxError.
Proof.
  destruct (calculateOffset_cases offset) as [[extra Hoff] | [Hoff [s [Hs Hp]]]].
  - rewrite (getTooltipPosition_unfold win target node desiredPlace offset extra Hoff).
    split.
    + destruct (choose _ _ _ _ _); discriminate.
    + intros [s [-> Hp]]. unfold calculateOffset in Hoff. rewrite Hp in Hoff.
      discriminate.
  - rewrite (getTooltipPosition_offset_error win target node desiredPlace offset _ Hoff).
    split; [intros _; exists s; split; assumption | reflexivity].
Qed.

Lemma or_else_string (v : value) (s : jsstring) :
  or_else v (VObj []) = VStr s <-> v = VStr s /\ s <> [].
Proof.
  unfold or_else. split.
  - destruct (truthy v) eqn:T; [| discriminate].
    intros ->. split; [reflexivity |]. intros ->. discriminate.
  - intros [-> Hs]. destruct s; [contradiction | reflexivity].
Qed.

(** X19. Entering the trigger fails with a [SyntaxError] exactly when the tooltip
    is mounted and hidden and the [offset] prop is a string that is not
    empty and that [JSON.parse] rejects.  The empty string, which
    [calculateOffset] rejects, is replaced by the empty object before the
    call and raises nothing. *)
Theorem mouse_enter_SyntaxError
    (props : Props) (st : State) (win : Window) (target node : DOMRect) :
  (onMouseEnter props st win target node = Throw SyntaxError
   <-> unmounted st = false /\ visible st = false
       /\ exists s, prop_offset props = VStr s /\ s <> []
                    /\ JSON_parse (replace_quotes s) = Throw SyntaxError)
  /\ calculateOffset (VStr []) = Throw SyntaxError.
Proof.
  split; [| reflexivity].
  unfold onMouseEnter.
  pose proof (getTooltipPosition_SyntaxError win target node (desiredPlace_of props)
                (or_else (prop_offset props) (VObj []))) as G.
  destruct (unmounted st); [split; [discriminate | intros [? _]; discriminate] |].
  destruct (visible st); [split; [discriminate | intros [_ [? _]]; discriminate] |].
  cbn [orb].
  destruct (getTooltipPosition win target node (desiredPlace_of props)
              (or_else (prop_offset props) (VObj []))) as [res | e] eqn:E; cbn [bind].
  - split; [discriminate |].
    intros [_ [_ [s [Hs [Hne Hp]]]]].
    assert (Ok res = Throw SyntaxError) as H; [| discriminate H].
    apply G. exists s. split; [apply or_else_string; split; assumption | exact Hp].
  - split.
    + intro H. injection H as ->. split; [reflexivity |]. split; [reflexivity |].
      destruct (proj1 G eq_refl) as [s [Hs Hp]].
      apply or_else_string in Hs. destruct Hs as [Hs Hne].
      exists s. split; [exact Hs |]. split; assumption.
    + intros [_ [_ [s [Hs [Hne Hp]]]]]. f_equal.
      assert (Throw e = Throw SyntaxError :> result Placement) as H; [| congruence].
      apply G. exists s. split; [apply or_else_string; split; assumption | exact Hp].
Qed.

Lemma onMouseEnter_placed
    (props : Props) (st st1 : State) (win : Window) (target node : DOMRect) :
  unmounted st = false -> visible st = false ->
  onMouseEnter props st win target node = Ok st1 ->
  unmounted st1 = false /\ visible st1 = true
  /\ getTooltipPosition win target node (desiredPlace_of props)
                        (or_else (prop_offset props) (VObj []))
     = Ok {| res_place := st_place st1; res_position := position st1 |}.
Proof.
  intros Hu Hv H. unfold onMouseEnter in H. rewrite Hu, Hv in H. cbn [orb] in H.
  destruct (getTooltipPosition win target node (desiredPlace_of props)
              (or_else (prop_offset props) (VObj []))) as [[p pos] | e];
    cbn [bind] in H; [| discriminate].
  injection H as <-. repeat split.
Qed.

Lemma placed_inside
    (win : Window) (target node : DOMRect) (desiredPlace : place)
    (offset : value) (res : Placement) :
  getTooltipPosition win target node desiredPlace offset = Ok res ->
  exists extra, calculateOffset offset = Ok extra
    /\ inside win (getCurrentMouseOffset target) (table_of target node) extra
              (res_place res) = true.
Proof.
  intro H.
  destruct (calculateOffset_cases offset) as [[extra Hoff] | [Hoff _]].
  - exists extra. split; [exact Hoff |].
    rewrite (getTooltipPosition_unfold win target node desiredPlace offset extra Hoff) in H.
    destruct (choose win (getCurrentMouseOffset target) (table_of target node) extra desiredPlace)
      as [p |] eqn:E; [| discriminate].
    injection H as <-. exact (choose_some_inside _ _ _ _ _ _ E).
  - rewrite (getTooltipPosition_offset_error win target node desiredPlace offset _ Hoff) in H.
    discriminate.
Qed.

(** X20. One hover.  When entering the trigger of a mounted, hidden tooltip
    succeeds, the tooltip is visible on a side that is inside the viewport;
    entering again, whatever the geometry then, changes nothing; leaving
    hides the tooltip and keeps its side and position; leaving again
    changes nothing. *)
Theorem hover_cycle
    (props : Props) (st st1 : State) (win : Window) (target node : DOMRect) :
  unmounted st = false -> visible st = false ->
  onMouseEnter props st win target node = Ok st1 ->
  visible st1 = true
  /\ (exists extra,
        calculateOffset (or_else (prop_offset props) (VObj [])) = Ok extra
        /\ inside win (getCurrentMouseOffset target) (table_of target node) extra
                  (st_place st1) = true)
  /\ (forall win' target' node', onMouseEnter props st1 win' target' node' = Ok st1)
  /\ visible (onMouseLeave st1) = false
  /\ st_place (onMouseLeave st1) = st_place st1
  /\ position (onMouseLeave st1) = position st1
  /\ onMouseLeave (onMouseLeave st1) = onMouseLeave st1.
Proof.
  intros Hu Hv H.
  destruct (onMouseEnter_placed props st st1 win target node Hu Hv H) as [Hu1 [Hv1 Hg]].
  split; [exact Hv1 |].
  split; [exact (placed_inside _ _ _ _ _ _ Hg) |].
  split; [intros; unfold onMouseEnter; rewrite Hu1, Hv1; reflexivity |].
  unfold onMouseLeave. rewrite Hu1, Hv1. cbn. rewrite ?Hu1. cbn. repeat split.
Qed.

Lemma hover_cycle_witness :
  let st1 := {| unmounted := false; visible := true;
                position := {| pos_left := of_Z (-10); pos_top := of_Z 46 |};
                st_place := Bottom |} in
  visible st1 = true
  /\ (exists extra,
        calculateOffset (or_else VUndefined (VObj [])) = Ok extra
        /\ inside win_1000x600 (getCurrentMouseOffset rect_100x40_pinned)
                  (table_of rect_100x40_pinned rect_tip_120x30) extra
                  (st_place st1) = true)
  /\ (forall win' target' node',
        onMouseEnter {| prop_desiredPlace := None; prop_offset := VUndefined |}
                     st1 win' target' node' = Ok st1)
  /\ visible (onMouseLeave st1) = false
  /\ st_place (onMouseLeave st1) = st_place st1
  /\ position (onMouseLeave st1) = position st1
  /\ onMouseLeave (onMouseLeave st1) = onMouseLeave st1.
Proof.
  exact (hover_cycle
           {| prop_desiredPlace := None; prop_offset := VUndefined |}
           (initial_state {| prop_desiredPlace := None; prop_offset := VUndefined |})
           _ win_1000x600 rect_100x40_pinned rect_tip_120x30
           eq_refl eq_refl eq_refl).
Defined.

Lemma handle_keeps
    (props : Props) (all : list event) (st : State) (ev : event) :
  In ev all ->
  unmounted st = false ->
  never_placed props st \/ placed_at props all st ->
  unmounted (handle props st ev) = false
  /\ (never_placed props (handle props st ev) \/ placed_at props all (handle props st ev)).
Proof.
  intros Hin Hu Hinv. destruct ev as [win target node |]; cbn [handle].
  - destruct (visible st) eqn:Hv.
    + unfold onMouseEnter. rewrite Hu, Hv. cbn [orb]. split; assumption.
    + destruct (onMouseEnter props st win target node) as [st1 | e] eqn:E;
        [| split; assumption].
      destruct (onMouseEnter_placed props st st1 win target node Hu Hv E) as [Hu1 [_ Hg]].
      split; [exact Hu1 |]. right. exists win, target, node. split; assumption.
  - unfold onMouseLeave. rewrite Hu. cbn [orb].
    destruct (visible st) eqn:Hv; cbn [negb]; [| split; assumption].
    split; [reflexivity |].
    destruct Hinv as [[Hn _] | Hp]; [congruence |]. right. exact Hp.
Qed.

Lemma fold_handle_keeps (props : Props) (all evs : list event) (st : State) :
  (forall ev, In ev evs -> In ev all) ->
  unmounted st = false ->
  never_placed props st \/ placed_at props all st ->
  let st' := fold_left (handle props) evs st in
  unmounted st' = false /\ (never_placed props st' \/ placed_at props all st').
Proof.
  revert st. induction evs as [| ev evs IH]; intros st Hsub Hu Hinv.
  - split; assumption.
  - cbn [fold_left].
    destruct (handle_keeps props all st ev (Hsub ev (or_introl eq_refl)) Hu Hinv)
      as [Hu1 Hinv1].
    apply IH; [intros ev' H'; apply Hsub; right; exact H' | exact Hu1 | exact Hinv1].
Qed.

(** X21. After any sequence of events on the trigger of a tooltip that stays
    mounted: either the tooltip is hidden with the side and position it
    started with, or its side and position are the answer of
    [getTooltipPosition] at one of the enter events, a side inside the
    viewport of that event.  A visible tooltip is in the second case. *)
Theorem shown_placement_was_computed (props : Props) (evs : list event) :
  let st := run props evs in
  (never_placed props st \/ placed_at props evs st)
  /\ (visible st = true ->
      exists win target node extra,
        In (MouseEnter win target node) evs
        /\ calculateOffset (or_else (prop_offset props) (VObj [])) = Ok extra
        /\ getTooltipPosition win target node (desiredPlace_of props)
                              (or_else (prop_offset props) (VObj []))
           = Ok {| res_place := st_place st; res_position := position st |}
        /\ inside win (getCurrentMouseOffset target) (table_of target node) extra
                  (st_place st) = true).
Proof.
  intro st. subst st. unfold run.
  destruct (fold_handle_keeps props evs evs (initial_state props)
              (fun ev H => H) eq_refl
              (or_introl (conj eq_refl (conj eq_refl eq_refl)))) as [_ Hinv].
  split; [exact Hinv |]. intro Hv.
  destruct Hinv as [[Hn _] | [win [target [node [Hin Hg]]]]]; [congruence |].
  destruct (placed_inside _ _ _ _ _ _ Hg) as [extra [Hoff Hi]].
  exists win, target, node, extra. repeat split; assumption.
Qed.

(** * The inside test over the rationals *)

Lemma lt_Num_false (x y : Q) : (Num x <? Num y) = false <-> (y <= x)%Q.
Proof.
  pose proof (lt_Num x y) as H. destruct (Num x <? Num y).
  - split; [discriminate |]. intro G. exfalso.
    apply (Qle_not_lt _ _ G). apply H. reflexivity.
  - split; [| reflexivity]. intros _. apply Qnot_lt_le. intro G.
    apply H in G. discriminate.
Qed.

Lemma inside_finite (win : Window) (target node : DOMRect) (ex ey : Q) (p : place) :
  inside win (getCurrentMouseOffset target) (table_of target node) (finite ex ey) p = true
  <-> (0 <= Formula.anchorX target
             + Formula.l p (tw_of target) (th_of target) (tw_of node) (th_of node) + ex
       /\ Formula.anchorX target
          + Formula.r p (tw_of target) (th_of target) (tw_of node) (th_of node) + ex
          <= inject_Z (innerWidth win)
       /\ 0 <= Formula.anchorY target
                + Formula.t p (tw_of target) (th_of target) (tw_of node) (th_of node) + ey
       /\ Formula.anchorY target
          + Formula.b p (tw_of target) (th_of target) (tw_of node) (th_of node) + ey
          <= inject_Z (innerHeight win))%Q.
Proof.
  unfold inside, outside, getTipOffsetLeft, getTipOffsetRight, getTipOffsetTop,
    getTipOffsetBottom.
  rewrite table_closed_form, mouse_closed_form.
  cbn [mouseX mouseY e_l e_r e_t e_b finite extraOffsetX extraOffsetY add of_Z].
  unfold gt, of_Z. rewrite negb_true_iff, !orb_false_iff, !lt_Num_false. tauto.
Qed.

(** * Sides that share an axis *)

Lemma horizontal_edges_shared (target node : DOMRect) (extra : ExtraOffset) :
  let mouse := getCurrentMouseOffset target in
  let table := table_of target node in
  getTipOffsetLeft mouse table extra Bottom = getTipOffsetLeft mouse table extra Top
  /\ getTipOffsetRight mouse table extra Bottom = getTipOffsetRight mouse table extra Top.
Proof. split; reflexivity. Qed.

Lemma vertical_edges_shared (target node : DOMRect) (extra : ExtraOffset) :
  let mouse := getCurrentMouseOffset target in
  let table := table_of target node in
  getTipOffsetTop mouse table extra Right = getTipOffsetTop mouse table extra Left
  /\ getTipOffsetBottom mouse table extra Right = getTipOffsetBottom mouse table extra Left.
Proof. split; reflexivity. Qed.

(** X23. Top and bottom are tested with the same left and right edges, left and
    right with the same top and bottom edges.  So a tooltip that leaves the
    viewport sideways above the target is never placed above or below it,
    and one that leaves it upwards or downwards beside the target is never
    placed beside it. *)
Theorem overflow_along_the_shared_axis
    (win : Window) (target node : DOMRect) (desiredPlace : place)
    (offset : value) (extra : ExtraOffset) (res : Placement) :
  let mouse := getCurrentMouseOffset target in
  let table := table_of target node in
  calculateOffset offset = Ok extra ->
  getTooltipPosition win target node desiredPlace offset = Ok res ->
  ((getTipOffsetLeft mouse table extra Top <? Num 0)
   || (getTipOffsetRight mouse table extra Top >? of_Z (innerWidth win)) = true ->
   res_place res = Left \/ res_place res = Right)
  /\ ((getTipOffsetTop mouse table extra Left <? Num 0)
      || (getTipOffsetBottom mouse table extra Left >? of_Z (innerHeight win)) = true ->
      res_place res = Top \/ res_place res = Bottom).
Proof.
  intros mouse table Hoff Hres.
  rewrite (getTooltipPosition_unfold win target node desiredPlace offset extra Hoff) in Hres.
  fold mouse table in Hres.
  destruct (choose win mouse table extra desiredPlace) as [p |] eqn:E; [| discriminate].
  injection Hres as <-. cbn [res_place].
  pose proof (choose_some_inside _ _ _ _ _ _ E) as Hin.
  unfold inside in Hin. apply negb_true_iff in Hin. unfold outside in Hin.
  destruct (horizontal_edges_shared target node extra) as [Hl Hr].
  destruct (vertical_edges_shared target node extra) as [Ht Hb].
  fold mouse table in Hl, Hr, Ht, Hb.
  split; intro H; apply orb_true_iff in H.
  - destruct p; [exfalso | exfalso | left; reflexivity | right; reflexivity];
      rewrite ?Hl, ?Hr in Hin;
      apply orb_false_iff in Hin; destruct Hin as [Hin _];
      apply orb_false_iff in Hin; destruct Hin as [Hin _];
      apply orb_false_iff in Hin; destruct Hin as [H1 H2];
      destruct H as [H | H]; congruence.
  - destruct p; [left; reflexivity | right; reflexivity | exfalso | exfalso];
      rewrite ?Ht, ?Hb in Hin;
      apply orb_false_iff in Hin; destruct Hin as [Hin H2];
      apply orb_false_iff in Hin; destruct Hin as [_ H1];
      destruct H as [H | H]; congruence.
Qed.

Lemma overflow_along_the_shared_axis_witness :
  let mouse := getCurrentMouseOffset rect_100x40_corner in
  let table := table_of rect_100x40_corner rect_tip_120x30 in
  let res := {| res_place := Right;
                res_position := {| pos_left := of_Z 106; pos_top := of_Z 5 |} |} in
  ((getTipOffsetLeft mouse table no_offset Top <? Num 0)
   || (getTipOffsetRight mouse table no_offset Top >? of_Z (innerWidth win_1000x600)) = true ->
   res_place res = Left \/ res_place res = Right)
  /\ ((getTipOffsetTop mouse table no_offset Left <? Num 0)
      || (getTipOffsetBottom mouse table no_offset Left >? of_Z (innerHeight win_1000x600)) = true ->
      res_place res = Top \/ res_place res = Bottom).
Proof.
  exact (overflow_along_the_shared_axis
           win_1000x600 rect_100x40_corner rect_tip_120x30 Top (VObj []) no_offset
           {| res_place := Right;
              res_position := {| pos_left := of_Z 106; pos_top := of_Z 5 |} |}
           eq_refl eq_refl).
Defined.

(** * Exact pixels

    Boxes on the grid and small offsets: the values the calculator returns. *)

(** ** The grid *)

Lemma whole_of_reduced (q : Q) (bound : Z) :
  (Zpos (Qden (Qred q)) =? 1)%Z && (Z.abs (Qnum (Qred q)) <=? bound)%Z = true ->
  exists z : Z, (q == inject_Z z)%Q /\ (Z.abs z <= bound)%Z.
Proof.
  intro H. apply andb_true_iff in H. destruct H as [Hd Hn].
  apply Z.eqb_eq in Hd. apply Z.leb_le in Hn.
  pose proof (Qred_correct q) as R. destruct (Qred q) as [n d].
  cbn [Qnum Qden] in *. injection Hd as ->.
  exists n. split; [symmetry; exact R | exact Hn].
Qed.

Lemma abs_bound (z b : Z) : (Z.abs z <= b)%Z -> (- inject_Z b <= inject_Z z <= inject_Z b)%Q.
Proof.
  intro H. rewrite <- inject_Z_opp, <- !Zle_Qle. lia.
Qed.

Lemma on_grid_spec (q : Q) :
  on_grid q = true -> grid16 q /\ (- (2147483648) <= q <= 2147483648)%Q.
Proof.
  intro H. destruct (whole_of_reduced _ _ H) as [z [Hz Hb]].
  split; [exists z; exact Hz |].
  apply abs_bound in Hb. rewrite <- Hz in Hb.
  change (inject_Z (2 ^ 47)) with 140737488355328%Q in Hb. lra.
Qed.

Lemma small_spec (q : Q) :
  small (Num q) = true ->
  exists z : Z, (q == inject_Z z)%Q /\ (Z.abs z <= 2 ^ 31)%Z.
Proof. exact (whole_of_reduced q (2 ^ 31)). Qed.

Lemma grid16_comp (q q' : Q) : (q == q')%Q -> grid16 q -> grid16 q'.
Proof. intros E [z H]. exists z. rewrite <- E. exact H. Qed.

Lemma grid16_inject_Z (z : Z) : grid16 (inject_Z z).
Proof.
  exists (z * 65536)%Z. rewrite inject_Z_mult. reflexivity.
Qed.

Lemma grid16_half (z : Z) : grid16 (inject_Z z / 2).
Proof.
  exists (z * 32768)%Z. rewrite inject_Z_mult.
  change (inject_Z 32768) with 32768%Q. field.
Qed.

Lemma grid16_plus (a b : Q) : grid16 a -> grid16 b -> grid16 (a + b).
Proof.
  intros [x Hx] [y Hy]. exists (x + y)%Z.
  rewrite inject_Z_plus, <- Hx, <- Hy. ring.
Qed.

Lemma grid16_opp (a : Q) : grid16 a -> grid16 (- a).
Proof.
  intros [x Hx]. exists (- x)%Z. rewrite inject_Z_opp, <- Hx. ring.
Qed.

Lemma grid16_minus (a b : Q) : grid16 a -> grid16 b -> grid16 (a - b).
Proof. intros Ha Hb. apply grid16_plus; [exact Ha | apply grid16_opp; exact Hb]. Qed.

Ltac on_the_grid :=
  repeat first [ assumption
               | apply grid16_half
               | apply grid16_inject_Z
               | apply (grid16_inject_Z 6)
               | apply (grid16_inject_Z 0)
               | apply grid16_minus
               | apply grid16_plus
               | apply grid16_opp ].

(** A rational on the grid is 0 or at least 1/65536 in size. *)
Lemma grid16_legible (q : Q) :
  grid16 q -> (- (1099511627776) <= q <= 1099511627776)%Q -> legible q.
Proof.
  intros [z Hz] [Hl Hu].
  destruct (Z.eq_dec z 0) as [-> | Hne].
  - left. change (inject_Z 0) with 0%Q in Hz. lra.
  - right. change (inject_Z (10 ^ 20)) with 100000000000000000000%Q.
    assert (Hz1 : (inject_Z z <= -1 \/ 1 <= inject_Z z)%Q).
    { destruct (Z_lt_le_dec z 0) as [N | P].
      - left. change (-1)%Q with (inject_Z (-1)). rewrite <- Zle_Qle. lia.
      - right. change 1%Q with (inject_Z 1). rewrite <- Zle_Qle. lia. }
    apply Qabs_case; intro S; destruct Hz1 as [Hz1 | Hz1]; split; lra.
Qed.

(** ** The dimensions of a box on the grid *)

Lemma Qtrunc_between (q : Q) (b : Z) :
  (- inject_Z b <= q <= inject_Z b)%Q -> (- b <= Qtrunc q <= b)%Z.
Proof.
  intros [Hl Hu]. destruct (Qlt_le_dec q 0) as [N | P].
  - rewrite (Qtrunc_nonpos q) by lra. unfold Qceiling.
    assert (A : (Qfloor (- q) <= b)%Z).
    { rewrite <- (Qfloor_Z b). apply Qfloor_resp_le. lra. }
    assert (B : (0 <= Qfloor (- q))%Z).
    { rewrite <- (Qfloor_Z 0). apply Qfloor_resp_le. change (inject_Z 0) with 0%Q. lra. }
    lia.
  - rewrite (Qtrunc_nonneg q) by exact P.
    assert (A : (Qfloor q <= b)%Z).
    { rewrite <- (Qfloor_Z b). apply Qfloor_resp_le. lra. }
    assert (B : (0 <= Qfloor q)%Z).
    { rewrite <- (Qfloor_Z 0). apply Qfloor_resp_le. exact P. }
    lia.
Qed.

Lemma abs_bound_between (z b : Z) :
  (- b <= z <= b)%Z -> (- inject_Z b <= inject_Z z <= inject_Z b)%Q.
Proof. intro H. apply abs_bound. lia. Qed.

Lemma parseInt_on_grid (q : Q) :
  on_grid q = true ->
  parseInt_number (Num q) = of_Z (Qtrunc q)
  /\ (- 2147483648 <= Qtrunc q <= 2147483648)%Z.
Proof.
  intro H. destruct (on_grid_spec q H) as [G B]. split.
  - apply parseInt_number_legible, grid16_legible; [exact G | lra].
  - apply (Qtrunc_between q 2147483648). exact B.
Qed.

Lemma dimensions_on_grid (b : DOMRect) :
  on_grid (rect_width b) = true -> on_grid (rect_height b) = true ->
  tw_of b = inject_Z (Qtrunc (rect_width b))
  /\ th_of b = inject_Z (Qtrunc (rect_height b)).
Proof.
  intros Hw Hh. unfold tw_of, th_of, getDimensions. cbn [dim_width dim_height].
  rewrite (proj1 (parseInt_on_grid _ Hw)), (proj1 (parseInt_on_grid _ Hh)).
  split; reflexivity.
Qed.

Lemma anchor_on_grid (target : DOMRect) :
  grid_box target ->
  Formula.anchorX target
  = (inject_Z (Qtrunc (rect_left target)) + inject_Z (Qtrunc (rect_width target)) / 2)%Q
  /\ Formula.anchorY target
     = (inject_Z (Qtrunc (rect_top target)) + inject_Z (Qtrunc (rect_height target)) / 2)%Q.
Proof.
  intros [Hw [Hh [Ht Hl]]]. unfold Formula.anchorX, Formula.anchorY.
  destruct (dimensions_on_grid target Hw Hh) as [-> ->].
  unfold getDimensions. cbn [dim_top dim_left].
  rewrite (proj1 (parseInt_on_grid _ Ht)), (proj1 (parseInt_on_grid _ Hl)).
  split; reflexivity.
Qed.

(** ** The outside test *)

(** C3. A side [p] is outside exactly when its left edge is below 0, or its
    right edge above the viewport width, or its top edge below 0, or its
    bottom edge above the viewport height, the edges being the anchor
    coordinate plus the table entry of [p] plus the extra offset; inside is
    the negation of outside.  For boxes on the grid and whole extra offsets
    of at most 2^32 the edges are the closed forms over the truncated
    coordinates of the boxes, compared as rationals. *)
Theorem outside_iff_edge_beyond_viewport
    (win : Window) (target node : DOMRect) (extra : ExtraOffset) (p : place) :
  let mouse := getCurrentMouseOffset target in
  let table := table_of target node in
  let edge_l := mouseX mouse + e_l (entry table p) + extraOffsetX extra in
  let edge_r := mouseX mouse + e_r (entry table p) + extraOffsetX extra in
  let edge_t := mouseY mouse + e_t (entry table p) + extraOffsetY extra in
  let edge_b := mouseY mouse + e_b (entry table p) + extraOffsetY extra in
  (outside win mouse table extra p = true <->
     (edge_l <? Num 0) = true \/ (edge_r >? of_Z (innerWidth win)) = true \/
     (edge_t <? Num 0) = true \/ (edge_b >? of_Z (innerHeight win)) = true)
  /\ inside win mouse table extra p = negb (outside win mouse table extra p)
  /\ (grid_box target -> grid_size node ->
      forall a b : Z, (Z.abs a <= 2 ^ 32)%Z -> (Z.abs b <= 2 ^ 32)%Z ->
        let anchorX :=
          (inject_Z (Qtrunc (rect_left target))
           + inject_Z (Qtrunc (rect_width target)) / 2)%Q in
        let anchorY :=
          (inject_Z (Qtrunc (rect_top target))
           + inject_Z (Qtrunc (rect_height target)) / 2)%Q in
        let tw := inject_Z (Qtrunc (rect_width target)) in
        let th := inject_Z (Qtrunc (rect_height target)) in
        let pw := inject_Z (Qtrunc (rect_width node)) in
        let ph := inject_Z (Qtrunc (rect_height node)) in
        outside win mouse table (finite (inject_Z a) (inject_Z b)) p = true <->
          (anchorX + Formula.l p tw th pw ph + inject_Z a < 0 \/
           inject_Z (innerWidth win) < anchorX + Formula.r p tw th pw ph + inject_Z a \/
           anchorY + Formula.t p tw th pw ph + inject_Z b < 0 \/
           inject_Z (innerHeight win) < anchorY + Formula.b p tw th pw ph + inject_Z b)%Q).
Proof.
  intros mouse table edge_l edge_r edge_t edge_b.
  split; [| split].
  - unfold outside, getTipOffsetLeft, getTipOffsetRight, getTipOffsetTop, getTipOffsetBottom.
    fold edge_l edge_r edge_t edge_b.
    rewrite !orb_true_iff. tauto.
  - reflexivity.
  - intros Hg Hn a b _ _ anchorX anchorY tw th pw ph.
    unfold outside, getTipOffsetLeft, getTipOffsetRight, getTipOffsetTop, getTipOffsetBottom.
    subst mouse table. rewrite table_closed_form, mouse_closed_form.
    destruct (anchor_on_grid target Hg) as [-> ->].
    destruct Hg as [Hw [Hh _]]. destruct Hn as [Hpw Hph].
    destruct (dimensions_on_grid target Hw Hh) as [-> ->].
    destruct (dimensions_on_grid node Hpw Hph) as [-> ->].
    cbn [mouseX mouseY e_l e_r e_t e_b finite extraOffsetX extraOffsetY add of_Z].
    unfold gt, of_Z. subst anchorX anchorY tw th pw ph.
    rewrite !orb_true_iff, !lt_Num. tauto.
Qed.

(** The trigger of 100 by 40 at the top of a window of 1000 by 600 and a
    tooltip of 120 by 30: side top is outside, its top edge being -36. *)
Lemma outside_iff_edge_beyond_viewport_witness :
  outside win_1000x600 (getCurrentMouseOffset rect_100x40_pinned)
          (table_of rect_100x40_pinned rect_tip_120x30) (finite (inject_Z 0) (inject_Z 0)) Top
  = true.
Proof.
  apply (proj2 (proj2 (outside_iff_edge_beyond_viewport
                         win_1000x600 rect_100x40_pinned rect_tip_120x30 no_offset Top))
               (conj eq_refl (conj eq_refl (conj eq_refl eq_refl)))
               (conj eq_refl eq_refl) 0%Z 0%Z).
  - discriminate.
  - discriminate.
  - right. right. left. reflexivity.
Defined.

(** ** The offsets of a small offset *)

Lemma offset_at_small (l : list (jsstring * value)) (k : jsstring) :
  forallb (fun kv => small (parseInt (snd kv))) l = true ->
  small (offset_at l k) = true.
Proof.
  intro H. unfold offset_at.
  destruct (find (fun kv => jsstring_eqb (fst kv) k) l) as [kv |] eqn:F; [| reflexivity].
  apply find_some in F. destruct F as [F _].
  exact (proj1 (forallb_forall _ l) H kv F).
Qed.

Lemma whole_within_num_eq (bound : Z) (a b : number) :
  a =n= b -> whole_within bound b -> whole_within bound a.
Proof.
  intros E [-> | [q [z [-> [Hq Hz]]]]].
  - left. apply num_eq_NaN. exact E.
  - right. destruct a as [| q']; [contradiction |]. simpl in E.
    exists q', z. split; [reflexivity |]. split; [rewrite E; exact Hq | exact Hz].
Qed.

Lemma sub_small (a b : number) :
  small a = true -> small b = true -> whole_within (2 ^ 32) (a - b).
Proof.
  intros Ha Hb. destruct a as [| x]; [left; reflexivity |].
  destruct b as [| y]; [left; reflexivity |].
  destruct (small_spec x Ha) as [zx [Ex Bx]].
  destruct (small_spec y Hb) as [zy [Ey By]].
  right. exists (x - y)%Q, (zx - zy)%Z. split; [reflexivity |]. split.
  - unfold Z.sub. rewrite inject_Z_plus, inject_Z_opp, Ex, Ey. reflexivity.
  - change (2 ^ 32)%Z with (2 ^ 31 + 2 ^ 31)%Z. lia.
Qed.

Lemma small_offset_extras (offset : value) (extra : ExtraOffset) :
  small_offset offset ->
  calculateOffset offset = Ok extra ->
  whole_within (2 ^ 32) (extraOffsetX extra)
  /\ whole_within (2 ^ 32) (extraOffsetY extra).
Proof.
  intros Hs Hoff.
  assert (Z0 : whole_within (2 ^ 32) (Num 0)).
  { right. exists 0%Q, 0%Z. split; [reflexivity |]. split; [reflexivity | discriminate]. }
  destruct offset as [| | b | n | s | l | m]; try contradiction;
    try (injection Hoff as <-; split; exact Z0).
  - change (calculateOffset (VArr l))
      with (Ok (fold_left offset_step (for_in (VArr l)) no_offset)) in Hoff.
    rewrite (offsets_of_non_object (VArr l) eq_refl) in Hoff.
    injection Hoff as <-. split; exact Z0.
  - rewrite calculateOffset_object in Hoff. injection Hoff as <-.
    destruct Hs as [Hn Hv].
    destruct (extra_of_total m) as [Hx Hy].
    destruct (total_closed_form (filter recognized m)
                (NoDup_map_filter fst recognized m Hn)) as [Cx Cy].
    split.
    + apply (whole_within_num_eq _ _ _ (num_eq_trans _ _ _ Hx Cx)).
      apply sub_small; apply offset_at_small; exact Hv.
    + apply (whole_within_num_eq _ _ _ (num_eq_trans _ _ _ Hy Cy)).
      apply sub_small; apply offset_at_small; exact Hv.
Qed.

(** ** The returned position *)

Lemma whole_within_bounds (bound : Z) (q : Q) :
  whole_within bound (Num q) ->
  grid16 q /\ (- inject_Z bound <= q <= inject_Z bound)%Q.
Proof.
  intros [H | [q' [z [E [Hq Hz]]]]]; [discriminate |].
  injection E as <-. split.
  - apply (grid16_comp (inject_Z z)); [symmetry; exact Hq | apply grid16_inject_Z].
  - rewrite Hq. apply abs_bound. exact Hz.
Qed.

(** What [parseInt] is given for the position is 0 or is written in decimal
    notation: [parseInt] truncates it. *)
Lemma relative_edge_truncated
    (target node : DOMRect) (extra : ExtraOffset) (p : place) :
  let mouse := getCurrentMouseOffset target in
  let table := table_of target node in
  grid_box target -> grid_size node ->
  whole_within (2 ^ 32) (extraOffsetX extra) ->
  whole_within (2 ^ 32) (extraOffsetY extra) ->
  parseInt_number (getTipOffsetLeft mouse table extra p - Num (rect_left target))
  = truncated (getTipOffsetLeft mouse table extra p - Num (rect_left target))
  /\ parseInt_number (getTipOffsetTop mouse table extra p - Num (rect_top target))
     = truncated (getTipOffsetTop mouse table extra p - Num (rect_top target)).
Proof.
  intros mouse table Ht Hn Wx Wy. subst mouse table.
  unfold getTipOffsetLeft, getTipOffsetTop.
  rewrite table_closed_form, mouse_closed_form. cbn [mouseX mouseY e_l e_t].
  destruct (anchor_on_grid target Ht) as [-> ->].
  destruct Ht as [Hw [Hh [Htop Hleft]]]. destruct Hn as [Hpw Hph].
  destruct (dimensions_on_grid target Hw Hh) as [-> ->].
  destruct (dimensions_on_grid node Hpw Hph) as [-> ->].
  pose proof (proj2 (parseInt_on_grid _ Hw)) as Bw.
  pose proof (proj2 (parseInt_on_grid _ Hh)) as Bh.
  pose proof (proj2 (parseInt_on_grid _ Htop)) as Bt.
  pose proof (proj2 (parseInt_on_grid _ Hleft)) as Bl.
  pose proof (proj2 (parseInt_on_grid _ Hpw)) as Bpw.
  pose proof (proj2 (parseInt_on_grid _ Hph)) as Bph.
  destruct (on_grid_spec _ Htop) as [Gt Rt]. destruct (on_grid_spec _ Hleft) as [Gl Rl].
  apply (abs_bound_between _ 2147483648) in Bw, Bh, Bt, Bl, Bpw, Bph.
  revert Bw Bh Bt Bl Bpw Bph.
  generalize (Qtrunc (rect_width target)), (Qtrunc (rect_height target)),
    (Qtrunc (rect_top target)), (Qtrunc (rect_left target)),
    (Qtrunc (rect_width node)), (Qtrunc (rect_height node)).
  intros W H T L w h Bw Bh Bt Bl Bpw Bph.
  change (inject_Z 2147483648) with 2147483648%Q in *.
  split.
  - destruct (extraOffsetX extra) as [| ex]; [reflexivity |].
    destruct (whole_within_bounds _ _ Wx) as [Gx Rx].
    change (inject_Z (2 ^ 32)) with 4294967296%Q in Rx.
    cbn [add sub]. apply parseInt_number_legible, grid16_legible.
    + destruct p; cbn [Formula.l]; on_the_grid.
    + destruct p; cbn [Formula.l]; unfold Qdiv; change (/ 2)%Q with (1 # 2);
        split; lra.
  - destruct (extraOffsetY extra) as [| ey]; [reflexivity |].
    destruct (whole_within_bounds _ _ Wy) as [Gy Ry].
    change (inject_Z (2 ^ 32)) with 4294967296%Q in Ry.
    cbn [add sub]. apply parseInt_number_legible, grid16_legible.
    + destruct p; cbn [Formula.t]; on_the_grid.
    + destruct p; cbn [Formula.t]; unfold Qdiv; change (/ 2)%Q with (1 # 2);
        split; lra.
Qed.

Lemma position_truncated
    (win : Window) (target node : DOMRect) (desiredPlace : place)
    (offset : value) (extra : ExtraOffset) (res : Placement) :
  grid_box target -> grid_size node -> small_offset offset ->
  calculateOffset offset = Ok extra ->
  getTooltipPosition win target node desiredPlace offset = Ok res ->
  res_position res
  = {| pos_left :=
         truncated
           (getTipOffsetLeft (getCurrentMouseOffset target) (table_of target node) extra
                             (res_place res) - Num (rect_left target));
       pos_top :=
         truncated
           (getTipOffsetTop (getCurrentMouseOffset target) (table_of target node) extra
                            (res_place res) - Num (rect_top target)) |}.
Proof.
  intros Ht Hn Hs Hoff Hres.
  rewrite (result_position win target node desiredPlace offset extra res Hoff Hres).
  destruct (small_offset_extras offset extra Hs Hoff) as [Wx Wy].
  destruct (relative_edge_truncated target node extra (res_place res) Ht Hn Wx Wy)
    as [-> ->].
  reflexivity.
Qed.




(** ** A target pinned at the top of the viewport *)

(** C4. For a target whose top is 0 and the desired side top, the top side
    is outside because its top edge is negative, and with the bottom side
    inside the returned side is bottom, the next candidate of the order top,
    bottom, left, right.  The boxes are on the grid, the offset is small
    and the extra vertical offset is smaller than the height of the
    tooltip plus 6, as is the offset of the empty map. *)
Theorem pinned_at_top_falls_back_to_bottom
    (win : Window) (target node : DOMRect) (offset : value)
    (extra : ExtraOffset) (ey : Q) :
  let mouse := getCurrentMouseOffset target in
  let table := table_of target node in
  grid_box target -> grid_size node -> small_offset offset ->
  (rect_top target == 0)%Q ->
  calculateOffset offset = Ok extra ->
  extraOffsetY extra = Num ey ->
  (ey < th_of node + 6)%Q ->
  inside win mouse table extra Bottom = true ->
  (getTipOffsetTop mouse table extra Top <? Num 0) = true
  /\ outside win mouse table extra Top = true
  /\ exists res,
       getTooltipPosition win target node Top offset = Ok res
       /\ res_place res = Bottom.
Proof.
  intros mouse table Hg Hn Hs Htop Hoff Hey Hlt Hbottom.
  assert (Hedge : (getTipOffsetTop mouse table extra Top <? Num 0) = true).
  { unfold getTipOffsetTop. subst mouse table.
    rewrite table_closed_form, mouse_closed_form, Hey.
    cbn [mouseY e_t add]. apply lt_Num.
    destruct (anchor_on_grid target Hg) as [_ ->].
    destruct Hg as [Hw [Hh _]].
    destruct (dimensions_on_grid target Hw Hh) as [_ ->].
    unfold Formula.t. rewrite (Qtrunc_zero _ Htop).
    change (inject_Z 0) with 0%Q.
    generalize dependent (th_of node). intros.
    generalize dependent (inject_Z (Qtrunc (rect_height target))). intros.
    unfold Qdiv. change (/ 2)%Q with (1 # 2). lra. }
  assert (Hout : outside win mouse table extra Top = true).
  { unfold outside. rewrite Hedge. rewrite orb_true_r. reflexivity. }
  split; [exact Hedge |]. split; [exact Hout |].
  assert (Hin : inside win mouse table extra Top = false)
    by (unfold inside; rewrite Hout; reflexivity).
  rewrite (getTooltipPosition_unfold win target node Top offset extra Hoff).
  fold mouse table. rewrite (choose_fallback _ _ _ _ _ Hin).
  simpl find. rewrite Hin, Hbottom.
  eexists. split; reflexivity.
Qed.

(** The trigger of 100 by 40 at the top of a window of 1000 by 600, a
    tooltip of 120 by 30 and the empty offset. *)
Lemma pinned_at_top_falls_back_to_bottom_witness :
  exists res,
    getTooltipPosition win_1000x600 rect_100x40_pinned rect_tip_120x30 Top (VObj []) = Ok res
    /\ res_place res = Bottom.
Proof.
  refine (proj2 (proj2 (pinned_at_top_falls_back_to_bottom
            win_1000x600 rect_100x40_pinned rect_tip_120x30 (VObj []) no_offset 0
            _ _ _ _ eq_refl eq_refl _ eq_refl))).
  - repeat split.
  - repeat split.
  - split; [constructor | reflexivity].
  - reflexivity.
  - reflexivity.
Defined.

(** ** The position under an offset *)

Lemma Qfloor_unique (x : Q) (f : Z) :
  (inject_Z f <= x)%Q -> (x < inject_Z (f + 1))%Q -> Qfloor x = f.
Proof.
  intros Hl Hu.
  pose proof (Qfloor_le x) as A. pose proof (Qlt_floor x) as B.
  assert (f < Qfloor x + 1)%Z by (rewrite Zlt_Qlt; lra).
  assert (Qfloor x < f + 1)%Z by (rewrite Zlt_Qlt; lra).
  lia.
Qed.

Lemma Qfloor_plus_Z (x : Q) (z : Z) : Qfloor (x + inject_Z z) = (Qfloor x + z)%Z.
Proof.
  pose proof (Qfloor_le x) as A. pose proof (Qlt_floor x) as B.
  apply Qfloor_unique.
  - rewrite inject_Z_plus. lra.
  - rewrite !inject_Z_plus in *. lra.
Qed.

Lemma Qtrunc_opp (q : Q) : Qtrunc (- q) = (- Qtrunc q)%Z.
Proof. destruct q as [n d]. unfold Qtrunc. simpl. apply Z.quot_opp_l. discriminate. Qed.

Lemma Qceiling_floor (x : Q) :
  Qceiling x = Qfloor x \/ Qceiling x = (Qfloor x + 1)%Z.
Proof.
  pose proof (Qfloor_le x) as A. pose proof (Qlt_floor x) as B.
  pose proof (Qle_ceiling x) as C. pose proof (Qceiling_lt x) as D.
  assert (Qfloor x <= Qceiling x)%Z by (rewrite Zle_Qle; lra).
  assert (Qceiling x - 1 < Qfloor x + 1)%Z by (rewrite Zlt_Qlt; lra).
  lia.
Qed.

(** Truncation toward zero of a rational moved down by a whole number: the
    truncation moves by as much, or by one less where the two lie on
    either side of 0. *)
Lemma Qtrunc_minus_Z (d : Q) (c : Z) :
  (0 <= c)%Z ->
  Qtrunc (d - inject_Z c) = (Qtrunc d - c)%Z
  \/ Qtrunc (d - inject_Z c) = (Qtrunc d - c + 1)%Z.
Proof.
  intro Hc. assert (Hq : (0 <= inject_Z c)%Q) by (rewrite Zle_Qle in Hc; exact Hc).
  assert (F : Qfloor (d - inject_Z c) = (Qfloor d - c)%Z).
  { unfold Qminus. rewrite <- inject_Z_opp, Qfloor_plus_Z. lia. }
  assert (C : Qceiling (d - inject_Z c) = (Qceiling d - c)%Z).
  { unfold Qceiling.
    assert (E : (- (d - inject_Z c) == - d + inject_Z c)%Q) by ring.
    rewrite (Qfloor_comp _ _ E), Qfloor_plus_Z. lia. }
  destruct (Qlt_le_dec d 0) as [N | P].
  - left. rewrite (Qtrunc_nonpos d), (Qtrunc_nonpos (d - inject_Z c)) by lra. exact C.
  - rewrite (Qtrunc_nonneg d) by exact P.
    destruct (Qlt_le_dec (d - inject_Z c) 0) as [N' | P'].
    + rewrite (Qtrunc_nonpos (d - inject_Z c)) by lra. rewrite C.
      destruct (Qceiling_floor d) as [-> | ->]; [left | right]; lia.
    + left. rewrite (Qtrunc_nonneg (d - inject_Z c)) by exact P'. exact F.
Qed.

Lemma Qtrunc_plus_Z (d : Q) (c : Z) :
  (0 <= c)%Z ->
  Qtrunc (d + inject_Z c) = (Qtrunc d + c)%Z
  \/ Qtrunc (d + inject_Z c) = (Qtrunc d + c - 1)%Z.
Proof.
  intro Hc.
  assert (E : (d + inject_Z c == - (- d - inject_Z c))%Q) by ring.
  rewrite (Qtrunc_comp _ _ E), Qtrunc_opp.
  destruct (Qtrunc_minus_Z (- d) c Hc) as [-> | ->]; rewrite Qtrunc_opp;
    [left | right]; lia.
Qed.

Lemma small_offset_top_10 : small_offset (VObj [(str "top", VNum (Num 10))]).
Proof.
  split; [| reflexivity].
  constructor; [intros [] | constructor].
Qed.

Lemma small_offset_right_5 : small_offset (VObj [(str "right", VNum (Num 5))]).
Proof.
  split; [| reflexivity].
  constructor; [intros [] | constructor].
Qed.

Lemma small_offset_empty : small_offset (VObj []).
Proof. split; [constructor | reflexivity]. Qed.

Lemma position_with_top_10
    (win : Window) (target node : DOMRect) (d d' : place) (res res' : Placement) :
  grid_box target -> grid_size node ->
  getTooltipPosition win target node d (VObj []) = Ok res ->
  getTooltipPosition win target node d' (VObj [(str "top", VNum (Num 10))]) = Ok res' ->
  res_place res' = res_place res ->
  pos_left (res_position res') = pos_left (res_position res)
  /\ exists y : Z,
       pos_top (res_position res) = of_Z y
       /\ (pos_top (res_position res') = of_Z (y - 10)
           \/ pos_top (res_position res') = of_Z (y - 9)).
Proof.
  intros Ht Hn Hres Hres' Hp.
  rewrite (position_truncated win target node d (VObj []) no_offset res
             Ht Hn small_offset_empty eq_refl Hres).
  rewrite (position_truncated win target node d' (VObj [(str "top", VNum (Num 10))])
             {| extraOffsetX := Num 0; extraOffsetY := Num 0 - Num 10 |} res'
             Ht Hn small_offset_top_10 eq_refl Hres').
  rewrite Hp. cbn [pos_left pos_top]. split; [reflexivity |].
  unfold getTipOffsetTop. rewrite table_closed_form, mouse_closed_form.
  cbn [mouseY e_t extraOffsetY no_offset add sub truncated].
  set (a := Formula.anchorY target).
  set (t := Formula.t (res_place res) (tw_of target) (th_of target) (tw_of node) (th_of node)).
  exists (Qtrunc (a + t + 0 - rect_top target)). split; [reflexivity |].
  assert (E : (a + t + (0 - 10) - rect_top target
               == a + t + 0 - rect_top target - inject_Z 10)%Q)
    by (change (inject_Z 10) with 10%Q; ring).
  rewrite (Qtrunc_comp _ _ E).
  destruct (Qtrunc_minus_Z (a + t + 0 - rect_top target) 10) as [-> | ->];
    [discriminate | left | right]; f_equal; lia.
Qed.

Lemma position_with_right_5
    (win : Window) (target node : DOMRect) (d d' : place) (res res' : Placement) :
  grid_box target -> grid_size node ->
  getTooltipPosition win target node d (VObj []) = Ok res ->
  getTooltipPosition win target node d' (VObj [(str "right", VNum (Num 5))]) = Ok res' ->
  res_place res' = res_place res ->
  pos_top (res_position res') = pos_top (res_position res)
  /\ exists x : Z,
       pos_left (res_position res) = of_Z x
       /\ (pos_left (res_position res') = of_Z (x + 5)
           \/ pos_left (res_position res') = of_Z (x + 4)).
Proof.
  intros Ht Hn Hres Hres' Hp.
  rewrite (position_truncated win target node d (VObj []) no_offset res
             Ht Hn small_offset_empty eq_refl Hres).
  rewrite (position_truncated win target node d' (VObj [(str "right", VNum (Num 5))])
             {| extraOffsetX := Num 0 + Num 5; extraOffsetY := Num 0 |} res'
             Ht Hn small_offset_right_5 eq_refl Hres').
  rewrite Hp. cbn [pos_left pos_top]. split; [reflexivity |].
  unfold getTipOffsetLeft. rewrite table_closed_form, mouse_closed_form.
  cbn [mouseX e_l extraOffsetX no_offset add sub truncated].
  set (a := Formula.anchorX target).
  set (l := Formula.l (res_place res) (tw_of target) (th_of target) (tw_of node) (th_of node)).
  exists (Qtrunc (a + l + 0 - rect_left target)). split; [reflexivity |].
  assert (E : (a + l + (0 + 5) - rect_left target
               == a + l + 0 - rect_left target + inject_Z 5)%Q)
    by (change (inject_Z 5) with 5%Q; ring).
  rewrite (Qtrunc_comp _ _ E).
  destruct (Qtrunc_plus_Z (a + l + 0 - rect_left target) 5) as [-> | ->];
    [discriminate | left | right]; f_equal; lia.
Qed.

(** C7, as amended.  In an offset object a value under top or left is
    subtracted from, and a value under bottom or right added to, the extra
    offset of its axis, the other axis being unchanged.  So with the offset
    holding top 10 the top and bottom edge of every side are those without
    offset minus 10, and with the offset holding right 5 the left and right
    edge of every side are those without offset plus 5.  The coordinate
    returned is the truncation of the edge relative to the target: for
    boxes on the grid and the same side returned, top 10 moves the top by
    -10, or by -9 where truncation toward zero turns from down to up, and
    leaves the left as it is; right 5 moves the left by 5, or by 4, and
    leaves the top as it is. *)
Theorem offset_keys_shift_their_axis
    (m1 m2 : list (jsstring * value)) (v : value)
    (mouse : MouseOffset) (table : OffsetTable) (p : place) :
  let base := extra_of (m1 ++ m2) in
  let having k := extra_of (m1 ++ (str k, v) :: m2) in
  (extraOffsetY (having "top"%string) =n= extraOffsetY base - parseInt v
   /\ extraOffsetX (having "top"%string) =n= extraOffsetX base)
  /\ (extraOffsetY (having "bottom"%string) =n= extraOffsetY base + parseInt v
      /\ extraOffsetX (having "bottom"%string) =n= extraOffsetX base)
  /\ (extraOffsetX (having "left"%string) =n= extraOffsetX base - parseInt v
      /\ extraOffsetY (having "left"%string) =n= extraOffsetY base)
  /\ (extraOffsetX (having "right"%string) =n= extraOffsetX base + parseInt v
      /\ extraOffsetY (having "right"%string) =n= extraOffsetY base)
  /\ (calculateOffset (VObj [(str "top", VNum (Num 10))])
      = Ok {| extraOffsetX := Num 0; extraOffsetY := Num 0 - Num 10 |}
      /\ getTipOffsetTop mouse table (extra_of [(str "top", VNum (Num 10))]) p
         =n= getTipOffsetTop mouse table (extra_of []) p - Num 10
      /\ getTipOffsetBottom mouse table (extra_of [(str "top", VNum (Num 10))]) p
         =n= getTipOffsetBottom mouse table (extra_of []) p - Num 10)
  /\ (calculateOffset (VObj [(str "right", VNum (Num 5))])
      = Ok {| extraOffsetX := Num 0 + Num 5; extraOffsetY := Num 0 |}
      /\ getTipOffsetLeft mouse table (extra_of [(str "right", VNum (Num 5))]) p
         =n= getTipOffsetLeft mouse table (extra_of []) p + Num 5
      /\ getTipOffsetRight mouse table (extra_of [(str "right", VNum (Num 5))]) p
         =n= getTipOffsetRight mouse table (extra_of []) p + Num 5)
  /\ (forall win target node desiredPlace res res',
        grid_box target -> grid_size node ->
        getTooltipPosition win target node desiredPlace (VObj []) = Ok res ->
        getTooltipPosition win target node desiredPlace
                           (VObj [(str "top", VNum (Num 10))]) = Ok res' ->
        res_place res' = res_place res ->
        pos_left (res_position res') = pos_left (res_position res)
        /\ exists y : Z,
             pos_top (res_position res) = of_Z y
             /\ (pos_top (res_position res') = of_Z (y - 10)
                 \/ pos_top (res_position res') = of_Z (y - 9)))
  /\ (forall win target node desiredPlace res res',
        grid_box target -> grid_size node ->
        getTooltipPosition win target node desiredPlace (VObj []) = Ok res ->
        getTooltipPosition win target node desiredPlace
                           (VObj [(str "right", VNum (Num 5))]) = Ok res' ->
        res_place res' = res_place res ->
        pos_top (res_position res') = pos_top (res_position res)
        /\ exists x : Z,
             pos_left (res_position res) = of_Z x
             /\ (pos_left (res_position res') = of_Z (x + 5)
                 \/ pos_left (res_position res') = of_Z (x + 4))).
Proof.
  intros base having. subst base having.
  pose proof (insert_top m1 m2 v) as T.
  pose proof (insert_bottom m1 m2 v) as B.
  pose proof (insert_left m1 m2 v) as L.
  pose proof (insert_right m1 m2 v) as R.
  pose proof (edges_with_top_10 mouse table p) as E10.
  pose proof (edges_with_right_5 mouse table p) as E5.
  split; [exact T |]. split; [exact B |]. split; [exact L |]. split; [exact R |].
  split; [split; [reflexivity | exact E10] |].
  split; [split; [reflexivity | exact E5] |].
  split.
  - intros win target node d res res'. apply position_with_top_10.
  - intros win target node d res res'. apply position_with_right_5.
Qed.

(** A trigger of 100 by 40 in the middle of a window of 1000 by 600 and a
    tooltip of 120 by 30 on side top: top 10 moves the top from -36 to -46,
    right 5 moves the left from -10 to -5. *)
Lemma offset_keys_shift_their_axis_witness :
  (exists y : Z,
     of_Z (-36) = of_Z y /\ (of_Z (-46) = of_Z (y - 10) \/ of_Z (-46) = of_Z (y - 9)))
  /\ (exists x : Z,
        of_Z (-10) = of_Z x /\ (of_Z (-5) = of_Z (x + 5) \/ of_Z (-5) = of_Z (x + 4))).
Proof.
  pose proof (offset_keys_shift_their_axis [] [] VNull
                (getCurrentMouseOffset rect_100x40_centre)
                (table_of rect_100x40_centre rect_tip_120x30) Top) as H.
  destruct H as [_ [_ [_ [_ [_ [_ [H10 H5]]]]]]].
  split.
  - exact (proj2 (H10 win_1000x600 rect_100x40_centre rect_tip_120x30 Top
                      {| res_place := Top;
                         res_position := {| pos_left := of_Z (-10); pos_top := of_Z (-36) |} |}
                      {| res_place := Top;
                         res_position := {| pos_left := of_Z (-10); pos_top := of_Z (-46) |} |}
                      (conj eq_refl (conj eq_refl (conj eq_refl eq_refl)))
                      (conj eq_refl eq_refl) eq_refl eq_refl eq_refl)).
  - exact (proj2 (H5 win_1000x600 rect_100x40_centre rect_tip_120x30 Top
                     {| res_place := Top;
                        res_position := {| pos_left := of_Z (-10); pos_top := of_Z (-36) |} |}
                     {| res_place := Top;
                        res_position := {| pos_left := of_Z (-5); pos_top := of_Z (-36) |} |}
                     (conj eq_refl (conj eq_refl (conj eq_refl eq_refl)))
                     (conj eq_refl eq_refl) eq_refl eq_refl eq_refl)).
Defined.

(** C7, as claimed, fails where truncation toward zero changes direction.
    A trigger of 100 by 41 at (450, 280) and a tooltip of 120 by 30 on side
    left: the top edge relative to the trigger is 5.5 without offset and
    -4.5 with top 10, so the top goes from 5 to -4, by -9. *)
Lemma top_10_can_move_the_position_by_9 :
  let res := {| res_place := Left;
                res_position := {| pos_left := of_Z (-120); pos_top := of_Z 5 |} |} in
  let res' := {| res_place := Left;
                 res_position := {| pos_left := of_Z (-120); pos_top := of_Z (-4) |} |} in
  getTooltipPosition win_1000x600 rect_100x41_centre rect_tip_120x30 Left (VObj []) = Ok res
  /\ getTooltipPosition win_1000x600 rect_100x41_centre rect_tip_120x30 Left
                        (VObj [(str "top", VNum (Num 10))]) = Ok res'
  /\ ~ (pos_top (res_position res') =n= pos_top (res_position res) - Num 10).
Proof.
  split; [reflexivity |]. split; [reflexivity |].
  intro H. vm_compute in H. discriminate.
Qed.

(** ** Boxes at whole pixels *)

Lemma position_whole_box
    (win : Window) (target node : DOMRect) (desiredPlace : place)
    (offset : value) (ex ey : Q) (res : Placement) (n k : Z) :
  let tw := tw_of target in let th := th_of target in
  let pw := tw_of node in let ph := th_of node in
  grid_box target -> grid_size node -> small_offset offset ->
  (rect_left target == inject_Z n)%Q ->
  (rect_top target == inject_Z k)%Q ->
  calculateOffset offset = Ok (finite ex ey) ->
  getTooltipPosition win target node desiredPlace offset = Ok res ->
  pos_left (res_position res)
  = of_Z (Qtrunc (tw / 2 + Formula.l (res_place res) tw th pw ph + ex))
  /\ pos_top (res_position res)
     = of_Z (Qtrunc (th / 2 + Formula.t (res_place res) tw th pw ph + ey)).
Proof.
  intros tw th pw ph Hg Hn Hs Hl Ht Hoff Hres.
  rewrite (position_truncated win target node desiredPlace offset _ res Hg Hn Hs Hoff Hres).
  unfold getTipOffsetLeft, getTipOffsetTop.
  rewrite table_closed_form, mouse_closed_form.
  cbn [mouseX mouseY e_l e_t finite extraOffsetX extraOffsetY add sub truncated
       pos_left pos_top].
  destruct (anchor_on_grid target Hg) as [-> ->].
  destruct Hg as [Hw [Hh _]]. destruct (dimensions_on_grid target Hw Hh) as [Etw Eth].
  rewrite (Qtrunc_whole _ _ Hl), (Qtrunc_whole _ _ Ht).
  fold tw th pw ph. rewrite <- Etw, <- Eth. fold tw th.
  split; f_equal; apply Qtrunc_comp; lra.
Qed.

(** X9. For a target on the grid whose box starts at whole pixels, a tooltip
    on the grid and a small offset that gives finite extra offsets, the
    returned position does not depend on where the box is: it is the
    truncation of half the target size plus the entry of the chosen side
    plus the extra offset. *)
Theorem position_for_box_at_whole_pixels
    (win : Window) (target node : DOMRect) (desiredPlace : place)
    (offset : value) (ex ey : Q) (res : Placement) (n k : Z) :
  let tw := tw_of target in let th := th_of target in
  let pw := tw_of node in let ph := th_of node in
  grid_box target -> grid_size node -> small_offset offset ->
  (rect_left target == inject_Z n)%Q ->
  (rect_top target == inject_Z k)%Q ->
  calculateOffset offset = Ok (finite ex ey) ->
  getTooltipPosition win target node desiredPlace offset = Ok res ->
  pos_left (res_position res)
  = of_Z (Qtrunc (tw / 2 + Formula.l (res_place res) tw th pw ph + ex))
  /\ pos_top (res_position res)
     = of_Z (Qtrunc (th / 2 + Formula.t (res_place res) tw th pw ph + ey)).
Proof. exact (position_whole_box win target node desiredPlace offset ex ey res n k). Qed.

Lemma position_for_box_at_whole_pixels_witness :
  getTooltipPosition win_1000x600 rect_100x40_elsewhere rect_tip_120x30 Left (VObj [])
  = Ok {| res_place := Top;
          res_position := {| pos_left := of_Z (-10); pos_top := of_Z (-36) |} |}
  /\ pos_left {| pos_left := of_Z (-10); pos_top := of_Z (-36) |}
     = of_Z (Qtrunc (100 / 2 + - (120 / 2) + 0))
  /\ pos_top {| pos_left := of_Z (-10); pos_top := of_Z (-36) |}
     = of_Z (Qtrunc (40 / 2 + - (40 / 2 + 30 + 6) + 0)).
Proof.
  split; [reflexivity |].
  refine (position_for_box_at_whole_pixels
            win_1000x600 rect_100x40_elsewhere rect_tip_120x30 Left (VObj []) 0 0
            {| res_place := Top;
               res_position := {| pos_left := of_Z (-10); pos_top := of_Z (-36) |} |}
            17 500 _ _ _ (Qeq_refl _) (Qeq_refl _) eq_refl eq_refl).
  - repeat split.
  - repeat split.
  - split; [constructor | reflexivity].
Defined.

(** X10. For a target on the grid whose box starts at whole pixels, a tooltip
    on the grid and a small offset that gives finite extra offsets [ex] and
    [ey] (whole numbers [a] and [b]), the tooltip is put, along the axis of
    its side, at a fixed distance from the corner of the target:
    [tipHeight + 6] above it for top, [targetHeight + 6] below it for
    bottom, [tipWidth] to its left for left, [targetWidth + 6] to its right
    for right, each moved by the offset. *)
Theorem position_along_the_axis_of_the_side
    (win : Window) (target node : DOMRect) (desiredPlace : place)
    (offset : value) (ex ey : Q) (res : Placement) (n k : Z) :
  let targetWidth := Qtrunc (rect_width target) in
  let targetHeight := Qtrunc (rect_height target) in
  let tipWidth := Qtrunc (rect_width node) in
  let tipHeight := Qtrunc (rect_height node) in
  grid_box target -> grid_size node -> small_offset offset ->
  (rect_left target == inject_Z n)%Q ->
  (rect_top target == inject_Z k)%Q ->
  calculateOffset offset = Ok (finite ex ey) ->
  getTooltipPosition win target node desiredPlace offset = Ok res ->
  exists a b : Z,
    (ex == inject_Z a)%Q /\ (ey == inject_Z b)%Q
    /\ (res_place res = Top ->
        pos_top (res_position res) = of_Z (b - (tipHeight + 6)))
    /\ (res_place res = Bottom ->
        pos_top (res_position res) = of_Z (targetHeight + 6 + b))
    /\ (res_place res = Left ->
        pos_left (res_position res) = of_Z (a - tipWidth))
    /\ (res_place res = Right ->
        pos_left (res_position res) = of_Z (targetWidth + 6 + a)).
Proof.
  intros targetWidth targetHeight tipWidth tipHeight Hg Hn Hs Hl Ht Hoff Hres.
  destruct (small_offset_extras offset _ Hs Hoff) as [Wx Wy].
  cbn [finite extraOffsetX extraOffsetY] in Wx, Wy.
  destruct Wx as [Wx | [qx [a [Ex [Ha _]]]]]; [discriminate |].
  destruct Wy as [Wy | [qy [b [Ey [Hb _]]]]]; [discriminate |].
  injection Ex as <-. injection Ey as <-.
  destruct (position_whole_box win target node desiredPlace offset ex ey res n k
              Hg Hn Hs Hl Ht Hoff Hres) as [Pl Pt].
  exists a, b. split; [exact Ha |]. split; [exact Hb |].
  destruct Hg as [Hw [Hh _]]. destruct Hn as [Hpw Hph].
  destruct (dimensions_on_grid target Hw Hh) as [Etw Eth].
  destruct (dimensions_on_grid node Hpw Hph) as [Epw Eph].
  rewrite Etw, Eth, Epw, Eph in Pl, Pt.
  fold targetWidth targetHeight tipWidth tipHeight in Pl, Pt.
  clearbody targetWidth targetHeight tipWidth tipHeight.
  repeat split; intro Hp; rewrite Hp in *; simpl Formula.l in Pl; simpl Formula.t in Pt.
  - rewrite Pt. f_equal. apply Qtrunc_whole. rewrite Hb.
    unfold Z.sub. rewrite !inject_Z_plus, inject_Z_opp, inject_Z_plus.
    change (inject_Z 6) with 6%Q. field.
  - rewrite Pt. f_equal. apply Qtrunc_whole. rewrite Hb.
    rewrite !inject_Z_plus. change (inject_Z 6) with 6%Q. field.
  - rewrite Pl. f_equal. apply Qtrunc_whole. rewrite Ha.
    unfold Z.sub. rewrite !inject_Z_plus, inject_Z_opp. field.
  - rewrite Pl. f_equal. apply Qtrunc_whole. rewrite Ha.
    rewrite !inject_Z_plus. change (inject_Z 6) with 6%Q. field.
Qed.

Lemma position_along_the_axis_of_the_side_witness :
  exists a b : Z,
    (0 + 7 == inject_Z a)%Q /\ (0 - 10 == inject_Z b)%Q
    /\ (Top = Top -> of_Z (-46) = of_Z (b - (30 + 6)))
    /\ (Top = Bottom -> of_Z (-46) = of_Z (40 + 6 + b))
    /\ (Top = Left -> of_Z (-3) = of_Z (a - 120))
    /\ (Top = Right -> of_Z (-3) = of_Z (100 + 6 + a)).
Proof.
  refine (position_along_the_axis_of_the_side
            win_1000x600 rect_100x40_centre rect_tip_120x30 Top
            (VObj [(str "top", VStr (str "10.9px")); (str "right", VNum (Num (15 # 2)))])
            (0 + 7) (0 - 10)
            {| res_place := Top;
               res_position := {| pos_left := of_Z (-3); pos_top := of_Z (-46) |} |}
            450 280 _ _ _ (Qeq_refl _) (Qeq_refl _) eq_refl eq_refl).
  - repeat split.
  - repeat split.
  - split; [| reflexivity].
    constructor; [intros [H | []]; discriminate H |].
    constructor; [intros [] | constructor].
Defined.

(** ** The boxes that are tested *)

(** X11. For whole sizes of at most 2^31 given to [getDefaultPosition], the
    box tested for a side has the size of the tooltip across the side, and
    along it 6 more than the tooltip for top and left, 6 less for bottom
    and right. *)
Theorem tested_box_sizes (targetWidth targetHeight tipWidth tipHeight : Z) :
  let table :=
    getDefaultPosition (of_Z targetWidth) (of_Z targetHeight)
                       (of_Z tipWidth) (of_Z tipHeight) in
  (Z.abs targetWidth <= 2 ^ 31)%Z -> (Z.abs targetHeight <= 2 ^ 31)%Z ->
  (Z.abs tipWidth <= 2 ^ 31)%Z -> (Z.abs tipHeight <= 2 ^ 31)%Z ->
  (e_r (at_top table) - e_l (at_top table) =n= of_Z tipWidth
   /\ e_b (at_top table) - e_t (at_top table) =n= of_Z (tipHeight + 6))
  /\ (e_r (at_bottom table) - e_l (at_bottom table) =n= of_Z tipWidth
      /\ e_b (at_bottom table) - e_t (at_bottom table) =n= of_Z (tipHeight - 6))
  /\ (e_r (at_left table) - e_l (at_left table) =n= of_Z (tipWidth + 6)
      /\ e_b (at_left table) - e_t (at_left table) =n= of_Z tipHeight)
  /\ (e_r (at_right table) - e_l (at_right table) =n= of_Z (tipWidth - 6)
      /\ e_b (at_right table) - e_t (at_right table) =n= of_Z tipHeight).
Proof.
  intros table _ _ _ _.
  pose proof (entry_closed_form (inject_Z targetWidth) (inject_Z targetHeight)
                                (inject_Z tipWidth) (inject_Z tipHeight)) as H.
  change (Num (inject_Z targetWidth)) with (of_Z targetWidth) in H.
  change (Num (inject_Z targetHeight)) with (of_Z targetHeight) in H.
  change (Num (inject_Z tipWidth)) with (of_Z tipWidth) in H.
  change (Num (inject_Z tipHeight)) with (of_Z tipHeight) in H.
  fold table in H.
  change (at_top table) with (entry table Top).
  change (at_bottom table) with (entry table Bottom).
  change (at_left table) with (entry table Left).
  change (at_right table) with (entry table Right).
  rewrite !H.
  cbn [e_l e_r e_t e_b sub num_eq of_Z Formula.l Formula.r Formula.t Formula.b].
  unfold Z.sub. rewrite !inject_Z_plus, !inject_Z_opp. change (inject_Z 6) with 6%Q.
  clear H. repeat split; field.
Qed.

Lemma tested_box_sizes_witness :
  let table := getDefaultPosition (of_Z 100) (of_Z 40) (of_Z 120) (of_Z 30) in
  e_b (at_bottom table) - e_t (at_bottom table) =n= of_Z (30 - 6).
Proof.
  exact (proj2 (proj1 (proj2 (tested_box_sizes 100 40 120 30
           ltac:(discriminate) ltac:(discriminate) ltac:(discriminate)
           ltac:(discriminate))))).
Defined.

(** ** The anchor *)

(** X12. For a box on the grid with non-negative coordinates and size the
    anchor is the centre of the truncated box: not right of or below the
    centre of the box itself, and less than 1.5 away from it on each
    axis. *)
Theorem anchor_near_the_centre (target : DOMRect) :
  grid_box target ->
  (0 <= rect_left target)%Q -> (0 <= rect_width target)%Q ->
  (0 <= rect_top target)%Q -> (0 <= rect_height target)%Q ->
  exists ax ay : Q,
    getCurrentMouseOffset target = {| mouseX := Num ax; mouseY := Num ay |}
    /\ (ax <= rect_left target + rect_width target / 2 < ax + 3 / 2)%Q
    /\ (ay <= rect_top target + rect_height target / 2 < ay + 3 / 2)%Q.
Proof.
  intros Hg Hl Hw Ht Hh.
  exists (Formula.anchorX target), (Formula.anchorY target).
  split; [apply mouse_closed_form |].
  destruct (anchor_on_grid target Hg) as [-> ->].
  rewrite !Qtrunc_nonneg by assumption.
  pose proof (Qfloor_le (rect_left target)). pose proof (Qlt_floor (rect_left target)).
  pose proof (Qfloor_le (rect_width target)). pose proof (Qlt_floor (rect_width target)).
  pose proof (Qfloor_le (rect_top target)). pose proof (Qlt_floor (rect_top target)).
  pose proof (Qfloor_le (rect_height target)). pose proof (Qlt_floor (rect_height target)).
  rewrite inject_Z_plus in *. change (inject_Z 1) with 1%Q in *.
  clear Hg.
  generalize dependent (inject_Z (Qfloor (rect_left target))).
  generalize dependent (inject_Z (Qfloor (rect_width target))).
  generalize dependent (inject_Z (Qfloor (rect_top target))).
  generalize dependent (inject_Z (Qfloor (rect_height target))).
  intros. unfold Qdiv. change (/ 2)%Q with (1 # 2). repeat split; lra.
Qed.

Lemma anchor_near_the_centre_witness :
  exists ax ay : Q,
    getCurrentMouseOffset rect_fractional = {| mouseX := Num ax; mouseY := Num ay |}
    /\ (ax <= (901 # 2) + 100 / 2 < ax + 3 / 2)%Q
    /\ (ay <= 0 + 40 / 2 < ay + 3 / 2)%Q.
Proof.
  apply (anchor_near_the_centre rect_fractional); [repeat split | | | |]; discriminate.
Defined.

(** * Room on every side *)

Lemma inside_no_offset (win : Window) (target node : DOMRect) (p : place) :
  let L := inject_Z (Qtrunc (rect_left target)) in
  let T := inject_Z (Qtrunc (rect_top target)) in
  let W := inject_Z (Qtrunc (rect_width target)) in
  let H := inject_Z (Qtrunc (rect_height target)) in
  let w := inject_Z (Qtrunc (rect_width node)) in
  let h := inject_Z (Qtrunc (rect_height node)) in
  grid_box target -> grid_size node ->
  (inside win (getCurrentMouseOffset target) (table_of target node) no_offset p = true
   <-> match p with
       | Top => 0 <= L + W / 2 - w / 2 /\ L + W / 2 + w / 2 <= inject_Z (innerWidth win)
                /\ 0 <= T - h - 6 /\ T <= inject_Z (innerHeight win)
       | Bottom => 0 <= L + W / 2 - w / 2 /\ L + W / 2 + w / 2 <= inject_Z (innerWidth win)
                   /\ 0 <= T + H + 6 /\ T + H + h <= inject_Z (innerHeight win)
       | Left => 0 <= L - w /\ L + 6 <= inject_Z (innerWidth win)
                 /\ 0 <= T + H / 2 - h / 2 /\ T + H / 2 + h / 2 <= inject_Z (innerHeight win)
       | Right => 0 <= L + W + 6 /\ L + W + w <= inject_Z (innerWidth win)
                  /\ 0 <= T + H / 2 - h / 2 /\ T + H / 2 + h / 2 <= inject_Z (innerHeight win)
       end%Q).
Proof.
  intros L T W H w h Hg Hn. change no_offset with (finite 0 0). rewrite inside_finite.
  destruct (anchor_on_grid target Hg) as [-> ->].
  destruct Hg as [Hw [Hh _]]. destruct Hn as [Hpw Hph].
  destruct (dimensions_on_grid target Hw Hh) as [-> ->].
  destruct (dimensions_on_grid node Hpw Hph) as [-> ->].
  fold L T W H w h.
  generalize (inject_Z (innerWidth win)), (inject_Z (innerHeight win)).
  clearbody L T W H w h. intros iw ih.
  unfold Qdiv. change (/ 2)%Q with (1 # 2).
  destruct p; cbn [Formula.l Formula.r Formula.t Formula.b];
    unfold Qdiv; change (/ 2)%Q with (1 # 2);
    (split; intros [H1 [H2 [H3 H4]]]; repeat split; lra).
Qed.

(** X22. With boxes on the grid of a size that is not negative and no offset,
    all four sides are inside exactly when the target has the room of
    [roomy] around it; the call then returns whichever side is desired. *)
Theorem every_side_inside_iff_roomy (win : Window) (target node : DOMRect) :
  grid_box target -> grid_size node ->
  sized target node ->
  ((forall p, inside win (getCurrentMouseOffset target) (table_of target node)
                     no_offset p = true)
   <-> roomy win target node)
  /\ (roomy win target node ->
      forall desiredPlace, exists pos,
        getTooltipPosition win target node desiredPlace (VObj [])
        = Ok {| res_place := desiredPlace; res_position := pos |}).
Proof.
  intros Hg Hn [HW [HH [Hw Hh]]].
  assert (E : (forall p, inside win (getCurrentMouseOffset target) (table_of target node)
                                no_offset p = true)
              <-> roomy win target node).
  { unfold roomy. rewrite !Zle_Qle, !inject_Z_plus.
    rewrite Zle_Qle in HW, HH, Hw, Hh.
    split.
    - intro A.
      pose proof (proj1 (inside_no_offset win target node Top Hg Hn) (A Top)) as At.
      pose proof (proj1 (inside_no_offset win target node Bottom Hg Hn) (A Bottom)) as Ab.
      pose proof (proj1 (inside_no_offset win target node Left Hg Hn) (A Left)) as Al.
      pose proof (proj1 (inside_no_offset win target node Right Hg Hn) (A Right)) as Ar.
      cbv zeta in At, Ab, Al, Ar. clear Hg Hn A.
      revert HW HH Hw Hh At Ab Al Ar.
      change (inject_Z 0) with 0%Q. change (inject_Z 6) with 6%Q.
      generalize (inject_Z (Qtrunc (rect_left target))), (inject_Z (Qtrunc (rect_top target))),
        (inject_Z (Qtrunc (rect_width target))), (inject_Z (Qtrunc (rect_height target))),
        (inject_Z (Qtrunc (rect_width node))), (inject_Z (Qtrunc (rect_height node))),
        (inject_Z (innerWidth win)), (inject_Z (innerHeight win)).
      intros L T W H w h iw ih.
      unfold Qdiv. change (/ 2)%Q with (1 # 2). intros. repeat split; lra.
    - intros R p. apply (inside_no_offset win target node p Hg Hn).
      cbv zeta. clear Hg Hn.
      revert HW HH Hw Hh R.
      change (inject_Z 0) with 0%Q. change (inject_Z 6) with 6%Q.
      generalize (inject_Z (Qtrunc (rect_left target))), (inject_Z (Qtrunc (rect_top target))),
        (inject_Z (Qtrunc (rect_width target))), (inject_Z (Qtrunc (rect_height target))),
        (inject_Z (Qtrunc (rect_width node))), (inject_Z (Qtrunc (rect_height node))),
        (inject_Z (innerWidth win)), (inject_Z (innerHeight win)).
      intros L T W H w h iw ih.
      unfold Qdiv. change (/ 2)%Q with (1 # 2). intros.
      destruct p; repeat split; lra. }
  split; [exact E |].
  intros R desiredPlace.
  rewrite (getTooltipPosition_unfold win target node desiredPlace (VObj []) no_offset eq_refl).
  rewrite (choose_desired _ _ _ _ _ (proj2 E R desiredPlace)).
  eexists. reflexivity.
Qed.

Lemma every_side_inside_iff_roomy_witness :
  (forall p, inside win_1000x600 (getCurrentMouseOffset rect_100x40_centre)
                    (table_of rect_100x40_centre rect_tip_120x30) no_offset p = true)
  <-> roomy win_1000x600 rect_100x40_centre rect_tip_120x30.
Proof.
  apply (every_side_inside_iff_roomy win_1000x600 rect_100x40_centre rect_tip_120x30).
  - repeat split.
  - repeat split.
  - vm_compute. repeat split; discriminate.
Defined.
